(** * CPUProcessScheduler: the discrete-event engine of [sim.py]

    A shallow embedding of the classes [Process], [Event], [EventQueue],
    [FCFS_Scheduler], [SPN_Scheduler] and [Sim], of the two file readers of
    [Sim] and of the script at the end of the file, followed by the
    properties of the engine that the specification states and by more
    properties of the program.

    Conventions of the embedding.
    - Python integers are [Z].
    - A [Process] object is mutable and shared (the event queue, the ready
      queue and [sim.procs] all hold the same objects), so processes live in
      a store [heap : list Process] and are referred to by their address
      [ref], an index into the store.
    - A method that can raise returns an [outcome]; the methods of [Sim] and
      of the schedulers run in the state-and-exception monad [M Sim].
    - [while] loops take a bound on their number of iterations and return
      [OutOfFuel] when the bound is reached.
    - The engine prints almost nothing, so the state carries a ghost log
      [trace] of the scheduling decisions; nothing ever reads it. *)

From Stdlib Require Strings.String Strings.Ascii.
From stdpp Require Import base numbers option list sorting.
Import Stdlib.Strings.String.StringSyntax.
Delimit Scope string_scope with string.
Local Open Scope Z_scope.

(** ** Exceptions and results *)

Inductive exn : Type :=
| TypeError
| LookupError
| IndexError
| AttributeError.

Inductive outcome (A : Type) : Type :=
| Ok (a : A)
| Raise (e : exn)
| OutOfFuel.
Arguments Ok {A} a.
Arguments Raise {A} e.
Arguments OutOfFuel {A}.

#[global] Instance outcome_ret : MRet outcome := λ A a, Ok a.
#[global] Instance outcome_bind : MBind outcome := λ A B f m,
  match m with
  | Ok a => f a
  | Raise e => Raise e
  | OutOfFuel => OutOfFuel
  end.

(** State and exceptions: an exception aborts the run, nothing catches it. *)
Definition M (S A : Type) : Type := S → outcome (A * S).

#[global] Instance M_ret {S} : MRet (M S) := λ A a s, Ok (a, s).
#[global] Instance M_bind {S} : MBind (M S) := λ A B f m s,
  match m s with
  | Ok (a, s') => f a s'
  | Raise e => Raise e
  | OutOfFuel => OutOfFuel
  end.

Definition gets {S A} (f : S → A) : M S A := λ s, Ok (f s, s).
Definition modify {S} (f : S → S) : M S unit := λ s, Ok ((), f s).
Definition raise {S A} (e : exn) : M S A := λ _, Raise e.
Definition out_of_fuel {S A} : M S A := λ _, OutOfFuel.
Definition lift {S A} (o : outcome A) : M S A := λ s,
  match o with
  | Ok a => Ok (a, s)
  | Raise e => Raise e
  | OutOfFuel => OutOfFuel
  end.

(** ** Python lists *)

(** [l.pop()] *)
Definition list_pop {A} (l : list A) : option (A * list A) :=
  match reverse l with
  | [] => None
  | x :: r => Some (x, reverse r)
  end.

(** [l.sort()] is stable and compares with [<] only.  For a comparison that
    is a strict weak order the result is the one of any stable sort; here a
    straight insertion sort, where an element is put in front of the first
    one that is not smaller than it. *)
Fixpoint insert_sorted {A} (lt : A → A → bool) (x : A) (l : list A) : list A :=
  match l with
  | [] => [x]
  | y :: l' => if lt y x then y :: insert_sorted lt x l' else x :: l
  end.

Fixpoint list_sort {A} (lt : A → A → bool) (l : list A) : list A :=
  match l with
  | [] => []
  | x :: l' => insert_sorted lt x (list_sort lt l')
  end.

(** [l.sort(reverse=True)]: the list is reversed, sorted and reversed
    again, which keeps equal elements in their original order. *)
Definition list_sort_reverse {A} (lt : A → A → bool) (l : list A) : list A :=
  reverse (list_sort lt (reverse l)).

(** ** Process *)

Record Process : Type := mkProcess {
  pid : Z;
  arrive : Z;
  activities : list Z
}.

Definition ref : Type := nat.

(** A reference always points to a live object; the default is never read in
    a state built by [Sim_init] from references into its store. *)
Definition deref (heap : list Process) (p : ref) : Process :=
  default (mkProcess 0 0 []) (heap !! p).

(** ** Event *)

Definition ARRIVAL : Z := 0.
Definition UNBLOCK : Z := 1.

Record Event : Type := mkEvent {
  type : Z;
  process : ref;
  time : Z
}.
Arguments mkEvent type%_Z process%_nat time%_Z.

(** [Event.__lt__] *)
Definition Event_lt (heap : list Process) (self other : Event) : bool :=
  if time self =? time other then
    if type self =? type other then
      pid (deref heap (process self)) <? pid (deref heap (process other))
    else type self <? type other
  else time self <? time other.

(** ** EventQueue *)

Record EventQueue : Type := mkEventQueue {
  queue : list Event;
  dirty : bool
}.

(** [EventQueue.__init__] *)
Definition EventQueue_init : EventQueue := mkEventQueue [] false.

(** [EventQueue.push]; the argument is an [Event] by its type, so the
    [TypeError] branch is not reachable. *)
Definition EventQueue_push (item : Event) (self : EventQueue) : EventQueue :=
  mkEventQueue (queue self ++ [item]) true.

(** [EventQueue.__prepareLookup] *)
Definition EventQueue_prepareLookup (heap : list Process) (self : EventQueue)
  : outcome EventQueue :=
  match queue self with
  | [] => Raise LookupError
  | _ :: _ =>
      if dirty self
      then Ok (mkEventQueue (list_sort_reverse (Event_lt heap) (queue self)) false)
      else Ok self
  end.

(** [EventQueue.pop] *)
Definition EventQueue_pop (heap : list Process) (self : EventQueue)
  : outcome (Event * EventQueue) :=
  self' ← EventQueue_prepareLookup heap self;
  match list_pop (queue self') with
  | None => Raise IndexError
  | Some (e, rest) => Ok (e, mkEventQueue rest (dirty self'))
  end.

(** [EventQueue.peek] *)
Definition EventQueue_peek (heap : list Process) (self : EventQueue)
  : outcome (Event * EventQueue) :=
  self' ← EventQueue_prepareLookup heap self;
  match last (queue self') with
  | None => Raise IndexError
  | Some e => Ok (e, self')
  end.

(** [EventQueue.empty] *)
Definition EventQueue_empty (self : EventQueue) : bool :=
  bool_decide (length (queue self) = 0%nat).

(** [EventQueue.hasEvent] *)
Definition EventQueue_hasEvent (self : EventQueue) : bool :=
  bool_decide (0 < length (queue self))%nat.

(** ** Objects that reach a scheduler callback

    The engine calls [arrive] and [unblock] with positional arguments.  The
    parameters of [unblock] are therefore dynamically typed in the
    embedding: what the caller passes decides what [p] and [sim] are bound
    to, and so does what a ready queue holds. *)

Inductive pyobj : Type :=
| ObjSim
| ObjProcess (p : ref).
Arguments ObjProcess p%_nat.

(** ** Schedulers *)

Inductive SchedulerClass : Type :=
| FCFS_Scheduler
| SPN_Scheduler.

Record Scheduler : Type := mkScheduler {
  sched_class : SchedulerClass;
  sched_procs : list ref;
  ready_queue : list pyobj
}.

(** [FCFS_Scheduler.__init__] and [SPN_Scheduler.__init__] *)
Definition Scheduler_init (c : SchedulerClass) (procs : list ref) : Scheduler :=
  mkScheduler c procs [].

(** ** Scheduling decisions (ghost log) *)

Inductive LogEntry : Type :=
| Dispatched (e : Event)              (* [processEvent(e)] is entered *)
| Started (p : ref) (at_ burst : Z)   (* [sim.runningTime] := a burst of [p] *)
| Stopped (at_ : Z).                  (* [sched.stopRunning(sim)] is invoked *)
Arguments Started p%_nat at_%_Z burst%_Z.

(** ** Sim *)

Record Sim : Type := mkSim {
  heap : list Process;
  clock : Z;
  procs : list ref;
  events : EventQueue;
  runningTime : option Z;
  sched : Scheduler;
  trace : list LogEntry
}.

(** [Sim.__init__] *)
Definition Sim_init (heap : list Process) (procs : list ref)
    (scheduler : Scheduler) : Sim :=
  mkSim heap 0 procs EventQueue_init None scheduler [].

Definition set_heap (h : list Process) (s : Sim) : Sim :=
  mkSim h (clock s) (procs s) (events s) (runningTime s) (sched s) (trace s).
Definition set_clock (c : Z) (s : Sim) : Sim :=
  mkSim (heap s) c (procs s) (events s) (runningTime s) (sched s) (trace s).
Definition set_events (q : EventQueue) (s : Sim) : Sim :=
  mkSim (heap s) (clock s) (procs s) q (runningTime s) (sched s) (trace s).
Definition set_runningTime (r : option Z) (s : Sim) : Sim :=
  mkSim (heap s) (clock s) (procs s) (events s) r (sched s) (trace s).
Definition set_ready_queue (q : list pyobj) (s : Sim) : Sim :=
  mkSim (heap s) (clock s) (procs s) (events s) (runningTime s)
    (mkScheduler (sched_class (sched s)) (sched_procs (sched s)) q) (trace s).
Definition set_trace (t : list LogEntry) (s : Sim) : Sim :=
  mkSim (heap s) (clock s) (procs s) (events s) (runningTime s) (sched s) t.

Definition log (d : LogEntry) : M Sim unit :=
  modify (λ s, set_trace (trace s ++ [d]) s).

(** The methods of [self.events], run on the queue of the state. *)
Definition events_push (e : Event) : M Sim unit :=
  modify (λ s, set_events (EventQueue_push e (events s)) s).

Definition events_pop : M Sim Event := λ s,
  '(e, q) ← EventQueue_pop (heap s) (events s); Ok (e, set_events q s).

Definition events_peek : M Sim Event := λ s,
  '(e, q) ← EventQueue_peek (heap s) (events s); Ok (e, set_events q s).

Definition events_hasEvent : M Sim bool :=
  gets (λ s, EventQueue_hasEvent (events s)).

(** [Sim.addArrival] *)
Definition Sim_addArrival (p : ref) : M Sim unit :=
  a ← gets (λ s, arrive (deref (heap s) p));
  events_push (mkEvent ARRIVAL p a).

(** [Sim.addUnblockEvent] *)
Definition Sim_addUnblockEvent (p : ref) (t : Z) : M Sim unit :=
  c ← gets clock;
  events_push (mkEvent UNBLOCK p (c + t)).

(** Attribute access on an object of unknown class. *)
Definition as_process (x : pyobj) : M Sim ref :=
  match x with
  | ObjProcess p => mret p
  | ObjSim => raise AttributeError
  end.

(** [sim.runningTime], for whatever [sim] is bound to *)
Definition attr_runningTime (x : pyobj) : M Sim (option Z) :=
  match x with
  | ObjSim => gets runningTime
  | ObjProcess _ => raise AttributeError
  end.

(** [l[0]] *)
Definition getitem0 (l : list Z) : outcome Z :=
  match l with
  | [] => Raise IndexError
  | a :: _ => Ok a
  end.

(** *** FCFS_Scheduler *)

(** [FCFS_Scheduler.initialize] iterates over [sim.procs]. *)
Definition FCFS_Scheduler_initialize : M Sim unit :=
  ps ← gets procs;
  mapM Sim_addArrival ps;; mret ().

(** [FCFS_Scheduler.stopRunning] *)
Definition FCFS_Scheduler_stopRunning : M Sim unit := mret ().

(** [FCFS_Scheduler.timeout] *)
Definition FCFS_Scheduler_timeout : M Sim unit := mret ().

(** [FCFS_Scheduler.arrive(self, sim, p)] *)
Definition FCFS_Scheduler_arrive (p : ref) : M Sim unit :=
  modify (λ s, set_ready_queue (ready_queue (sched s) ++ [ObjProcess p]) s);;
  rq ← gets (λ s, ready_queue (sched s));
  if bool_decide (length rq = 1%nat) then
    acts ← gets (λ s, activities (deref (heap s) p));
    a ← lift (getitem0 acts);
    modify (set_runningTime (Some a));;
    c ← gets clock;
    log (Started p c a)
  else mret ().

(** [FCFS_Scheduler.unblock(self, p, sim)] *)
Definition FCFS_Scheduler_unblock (p sim : pyobj) : M Sim unit := mret ().

(** [FCFS_Scheduler.idle]; its [print] is the [Started] entry of the log. *)
Definition FCFS_Scheduler_idle : M Sim unit :=
  rq ← gets (λ s, ready_queue (sched s));
  match rq with
  | [] => mret ()
  | x :: rest =>
      modify (set_ready_queue rest);;
      p ← as_process x;
      acts ← gets (λ s, activities (deref (heap s) p));
      a ← lift (getitem0 acts);
      modify (set_runningTime (Some a));;
      c ← gets clock;
      log (Started p c a)
  end.

(** *** SPN_Scheduler *)

(** [SPN_Scheduler.initialize] iterates over [self.procs]. *)
Definition SPN_Scheduler_initialize : M Sim unit :=
  ps ← gets (λ s, sched_procs (sched s));
  mapM Sim_addArrival ps;; mret ().

(** The sort key [lambda x: x.activities[0]] *)
Definition SPN_key (heap : list Process) (x : pyobj) : outcome Z :=
  match x with
  | ObjSim => Raise AttributeError
  | ObjProcess p => getitem0 (activities (deref heap p))
  end.

(** [l.sort(key=...)]: the keys of all elements are computed first, in
    order, then the elements are sorted by key. *)
Definition sort_by_key (heap : list Process) (l : list pyobj)
  : outcome (list pyobj) :=
  keys ← mapM (SPN_key heap) l;
  Ok ((list_sort (λ a b, a.1 <? b.1) (zip keys l)).*2).

(** [SPN_Scheduler.add_to_ready_queue] *)
Definition SPN_Scheduler_add_to_ready_queue (proc : pyobj) : M Sim unit :=
  modify (λ s, set_ready_queue (ready_queue (sched s) ++ [proc]) s);;
  rq ← gets (λ s, ready_queue (sched s));
  h ← gets heap;
  rq' ← lift (sort_by_key h rq);
  modify (set_ready_queue rq').

(** [SPN_Scheduler.timeout] *)
Definition SPN_Scheduler_timeout : M Sim unit := mret ().

(** [SPN_Scheduler.stopRunning] *)
Definition SPN_Scheduler_stopRunning : M Sim unit :=
  modify (set_runningTime None).

(** [SPN_Scheduler.start_next_process]; [next_proc.activities.pop(0)] takes
    the first burst out of the process object itself. *)
Definition SPN_Scheduler_start_next_process : M Sim unit :=
  rq ← gets (λ s, ready_queue (sched s));
  match rq with
  | [] => mret ()
  | next_proc :: rest =>
      modify (set_ready_queue rest);;
      p ← as_process next_proc;
      o ← gets (λ s, deref (heap s) p);
      match activities o with
      | [] => raise IndexError
      | a :: acts =>
          modify (λ s, set_heap (<[p := mkProcess (pid o) (arrive o) acts]> (heap s)) s);;
          modify (set_runningTime (Some a));;
          c ← gets clock;
          log (Started p c a)
      end
  end.

(** [SPN_Scheduler.arrive(self, sim, p)] *)
Definition SPN_Scheduler_arrive (p : ref) : M Sim unit :=
  SPN_Scheduler_add_to_ready_queue (ObjProcess p);;
  rt ← gets runningTime;
  match rt with
  | None => SPN_Scheduler_start_next_process
  | Some _ => mret ()
  end.

(** [SPN_Scheduler.unblock(self, p, sim)] *)
Definition SPN_Scheduler_unblock (p sim : pyobj) : M Sim unit :=
  SPN_Scheduler_add_to_ready_queue p;;
  rt ← attr_runningTime sim;
  match rt with
  | None => SPN_Scheduler_start_next_process
  | Some _ => mret ()
  end.

(** [SPN_Scheduler.idle] *)
Definition SPN_Scheduler_idle : M Sim unit :=
  rq ← gets (λ s, ready_queue (sched s));
  match rq with
  | [] => mret ()
  | _ :: _ => SPN_Scheduler_start_next_process
  end.

(** *** Method dispatch on [self.sched] *)

Definition sched_initialize : M Sim unit := λ s,
  match sched_class (sched s) with
  | FCFS_Scheduler => FCFS_Scheduler_initialize s
  | SPN_Scheduler => SPN_Scheduler_initialize s
  end.

Definition sched_stopRunning : M Sim unit := λ s,
  match sched_class (sched s) with
  | FCFS_Scheduler => FCFS_Scheduler_stopRunning s
  | SPN_Scheduler => SPN_Scheduler_stopRunning s
  end.

Definition sched_arrive (p : ref) : M Sim unit := λ s,
  match sched_class (sched s) with
  | FCFS_Scheduler => FCFS_Scheduler_arrive p s
  | SPN_Scheduler => SPN_Scheduler_arrive p s
  end.

Definition sched_unblock (p sim : pyobj) : M Sim unit := λ s,
  match sched_class (sched s) with
  | FCFS_Scheduler => FCFS_Scheduler_unblock p sim s
  | SPN_Scheduler => SPN_Scheduler_unblock p sim s
  end.

Definition sched_idle : M Sim unit := λ s,
  match sched_class (sched s) with
  | FCFS_Scheduler => FCFS_Scheduler_idle s
  | SPN_Scheduler => SPN_Scheduler_idle s
  end.

(** *** The control loop *)

(** [Sim.getTimeForward] *)
Definition Sim_getTimeForward : M Sim (option Z) :=
  b ← events_hasEvent;
  if b : bool then
    e ← events_peek;
    c ← gets clock;
    mret (Some (time e - c))
  else
    rt ← gets runningTime;
    match rt with
    | Some r => mret (Some r)
    | None => mret None
    end.

(** [Sim.handleTimeDone] *)
Definition Sim_handleTimeDone (move : option Z) : M Sim bool :=
  match move with
  | None => mret false
  | Some mv =>
      rt ← gets runningTime;
      match rt with
      | Some r =>
          if r <=? mv then
            modify (λ s, set_clock (clock s + r) s);;
            modify (set_runningTime None);;
            c ← gets clock;
            log (Stopped c);;
            sched_stopRunning;;
            mret true
          else mret false
      | None => mret false
      end
  end.

(** [Sim.processEvent]: both callbacks get the engine first and the process
    second; [arrive] declares them in that order and [unblock] in the other
    one. *)
Definition Sim_processEvent (e : Event) : M Sim unit :=
  log (Dispatched e);;
  if type e =? ARRIVAL then sched_arrive (process e)
  else sched_unblock ObjSim (ObjProcess (process e)).

(** The loop [while move is not None and self.handleTimeDone(move)] *)
Fixpoint Sim_run_settle (fuel : nat) (move : option Z) : M Sim unit :=
  match fuel with
  | O => out_of_fuel
  | S fuel' =>
      match move with
      | None => mret ()
      | Some _ =>
          handled ← Sim_handleTimeDone move;
          if handled : bool then
            move' ← Sim_getTimeForward;
            Sim_run_settle fuel' move'
          else mret ()
      end
  end.

(** The test [self.events.hasEvent() and
    self.events.peek().time == self.clock] *)
Definition Sim_run_due : M Sim bool :=
  b ← events_hasEvent;
  if b : bool then
    e ← events_peek;
    c ← gets clock;
    mret (time e =? c)
  else mret false.

(** The loop [while self.events.hasEvent() and
    self.events.peek().time == self.clock] *)
Fixpoint Sim_run_drain (fuel : nat) : M Sim unit :=
  match fuel with
  | O => out_of_fuel
  | S fuel' =>
      again ← Sim_run_due;
      if again : bool then
        e ← events_pop;
        Sim_processEvent e;;
        Sim_run_drain fuel'
      else mret ()
  end.

(** One turn of the outer loop of [Sim.run], entered with [move] not
    [None]; it returns the next [move]. *)
Definition Sim_run_body (fuel : nat) (move : Z) : M Sim (option Z) :=
  handled ← Sim_handleTimeDone (Some move);
  (if handled : bool then
     move' ← Sim_getTimeForward;
     Sim_run_settle fuel move'
   else
     rt ← gets runningTime;
     match rt with
     | Some r => modify (set_runningTime (Some (r - move)))
     | None => mret ()
     end;;
     e ← events_peek;
     modify (set_clock (time e));;
     e' ← events_pop;
     Sim_processEvent e');;
  Sim_run_drain fuel;;
  rt ← gets runningTime;
  match rt with
  | None => sched_idle
  | Some _ => mret ()
  end;;
  Sim_getTimeForward.

(** The loop [while move is not None] *)
Fixpoint Sim_run_loop (fuel n : nat) (move : option Z) : M Sim unit :=
  match move with
  | None => mret ()
  | Some mv =>
      match n with
      | O => out_of_fuel
      | S n' =>
          move' ← Sim_run_body fuel mv;
          Sim_run_loop fuel n' move'
      end
  end.

(** [Sim.run]; every loop of it makes at most [fuel] turns. *)
Definition Sim_run (fuel : nat) : M Sim unit :=
  sched_initialize;;
  move ← Sim_getTimeForward;
  Sim_run_loop fuel fuel move.

(** The script at the end of the file: [Sim(procs, C(procs)).run()] on the
    list [procs] of all the process objects. *)
Definition all_refs (heap : list Process) : list ref := seq 0 (length heap).

Definition simulate (c : SchedulerClass) (heap : list Process) (fuel : nat)
  : outcome (unit * Sim) :=
  Sim_run fuel (Sim_init heap (all_refs heap) (Scheduler_init c (all_refs heap))).

(** ** The engine, for any scheduler object *)

(** [self.sched] is whatever object the engine was made with: the engine
    only calls its methods. *)
Record SchedulerObject : Type := mkSchedulerObject {
  obj_initialize : M Sim unit;
  obj_stopRunning : M Sim unit;
  obj_arrive : ref → M Sim unit;
  obj_unblock : pyobj → pyobj → M Sim unit;
  obj_idle : M Sim unit
}.

(** The scheduler objects of the two classes of the file. *)
Definition sched_object : SchedulerObject :=
  mkSchedulerObject sched_initialize sched_stopRunning sched_arrive
    sched_unblock sched_idle.

Section engine_on.
Variable o : SchedulerObject.

(** [Sim.handleTimeDone] *)
Definition Sim_handleTimeDone_on (move : option Z) : M Sim bool :=
  match move with
  | None => mret false
  | Some mv =>
      rt ← gets runningTime;
      match rt with
      | Some r =>
          if r <=? mv then
            modify (λ s, set_clock (clock s + r) s);;
            modify (set_runningTime None);;
            c ← gets clock;
            log (Stopped c);;
            obj_stopRunning o;;
            mret true
          else mret false
      | None => mret false
      end
  end.

(** [Sim.processEvent] *)
Definition Sim_processEvent_on (e : Event) : M Sim unit :=
  log (Dispatched e);;
  if type e =? ARRIVAL then obj_arrive o (process e)
  else obj_unblock o ObjSim (ObjProcess (process e)).

(** The loop [while move is not None and self.handleTimeDone(move)] *)
Fixpoint Sim_run_settle_on (fuel : nat) (move : option Z) : M Sim unit :=
  match fuel with
  | O => out_of_fuel
  | S fuel' =>
      match move with
      | None => mret ()
      | Some _ =>
          handled ← Sim_handleTimeDone_on move;
          if handled : bool then
            move' ← Sim_getTimeForward;
            Sim_run_settle_on fuel' move'
          else mret ()
      end
  end.

(** The loop [while self.events.hasEvent() and
    self.events.peek().time == self.clock] *)
Fixpoint Sim_run_drain_on (fuel : nat) : M Sim unit :=
  match fuel with
  | O => out_of_fuel
  | S fuel' =>
      again ← Sim_run_due;
      if again : bool then
        e ← events_pop;
        Sim_processEvent_on e;;
        Sim_run_drain_on fuel'
      else mret ()
  end.

(** What a turn of the loop of [Sim.run] does after [handleTimeDone] has
    returned [True]. *)
Definition Sim_run_handled_on (fuel : nat) : M Sim (option Z) :=
  (move' ← Sim_getTimeForward;
   Sim_run_settle_on fuel move');;
  Sim_run_drain_on fuel;;
  rt ← gets runningTime;
  match rt with
  | None => obj_idle o
  | Some _ => mret ()
  end;;
  Sim_getTimeForward.

(** One turn of the loop of [Sim.run] *)
Definition Sim_run_body_on (fuel : nat) (move : Z) : M Sim (option Z) :=
  handled ← Sim_handleTimeDone_on (Some move);
  (if handled : bool then
     move' ← Sim_getTimeForward;
     Sim_run_settle_on fuel move'
   else
     rt ← gets runningTime;
     match rt with
     | Some r => modify (set_runningTime (Some (r - move)))
     | None => mret ()
     end;;
     e ← events_peek;
     modify (set_clock (time e));;
     e' ← events_pop;
     Sim_processEvent_on e');;
  Sim_run_drain_on fuel;;
  rt ← gets runningTime;
  match rt with
  | None => obj_idle o
  | Some _ => mret ()
  end;;
  Sim_getTimeForward.

(** The loop [while move is not None] *)
Fixpoint Sim_run_loop_on (fuel n : nat) (move : option Z) : M Sim unit :=
  match move with
  | None => mret ()
  | Some mv =>
      match n with
      | O => out_of_fuel
      | S n' =>
          move' ← Sim_run_body_on fuel mv;
          Sim_run_loop_on fuel n' move'
      end
  end.

(** [Sim.run] *)
Definition Sim_run_on (fuel : nat) : M Sim unit :=
  obj_initialize o;;
  move ← Sim_getTimeForward;
  Sim_run_loop_on fuel fuel move.

End engine_on.

(** ** The notions the specification is stated with *)

(** The total order of the specification on events: by time ascending,
    ties broken first by kind ([ARRIVAL], which is 0, before [UNBLOCK],
    which is 1), then by process id ascending. *)
Definition Event_le (heap : list Process) (a b : Event) : Prop :=
  time a < time b ∨
  (time a = time b ∧
   (type a < type b ∨
    (type a = type b ∧
     pid (deref heap (process a)) ≤ pid (deref heap (process b))))).

(** What holds of the backing list whenever the dirty flag is clear: it is
    in descending order, the earliest event last. *)
Definition queue_ordered (heap : list Process) (q : EventQueue) : Prop :=
  dirty q = false → StronglySorted (flip (Event_le heap)) (queue q).

(** Sequences of calls on an [EventQueue] and what they return. *)
Inductive queue_op : Type :=
| OpPush (e : Event)
| OpPop
| OpPeek.

Inductive queue_obs : Type :=
| Pushed (e : Event)
| Popped (e : Event)
| Peeked (e : Event).

Fixpoint run_ops (heap : list Process) (ops : list queue_op) (q : EventQueue)
  : outcome (list queue_obs * EventQueue) :=
  match ops with
  | [] => Ok ([], q)
  | OpPush e :: ops' =>
      '(obs, q'') ← run_ops heap ops' (EventQueue_push e q);
      Ok (Pushed e :: obs, q'')
  | OpPop :: ops' =>
      '(e, q') ← EventQueue_pop heap q;
      '(obs, q'') ← run_ops heap ops' q';
      Ok (Popped e :: obs, q'')
  | OpPeek :: ops' =>
      '(e, q') ← EventQueue_peek heap q;
      '(obs, q'') ← run_ops heap ops' q';
      Ok (Peeked e :: obs, q'')
  end.

Definition popped (obs : list queue_obs) : list Event :=
  omap (λ o, match o with Popped e => Some e | _ => None end) obs.

(** The backing list as [__prepareLookup] leaves it. *)
Definition prepared (heap : list Process) (q : EventQueue) : list Event :=
  if dirty q then list_sort_reverse (Event_lt heap) (queue q) else queue q.

(** No event pushed after a pop is smaller than what that pop returned. *)
Fixpoint no_smaller_push (R : relation Event) (obs : list queue_obs) : Prop :=
  match obs with
  | [] => True
  | Popped a :: obs' => (∀ b, Pushed b ∈ obs' → R a b) ∧ no_smaller_push R obs'
  | _ :: obs' => no_smaller_push R obs'
  end.

(** [m] run from [s] returns, and its result satisfies [Q]. *)
Definition returns {A} (m : M Sim A) (s : Sim) (Q : A → Sim → Prop) : Prop :=
  ∃ a s', m s = Ok (a, s') ∧ Q a s'.

(** Whenever [m] returns it has kept the clock and has only appended to
    the log decisions that satisfy [P]. *)
Definition logs {A} (P : LogEntry → Prop) (m : M Sim A) : Prop :=
  ∀ s a s', m s = Ok (a, s') →
    clock s' = clock s ∧ ∃ t, trace s' = trace s ++ t ∧ Forall P t.

Definition is_Started (d : LogEntry) : Prop :=
  match d with Started _ _ _ => True | _ => False end.

(** ** Workloads and the invariant of a run *)

(** A well-formed workload: every process has a non-negative arrival time
    and a non-empty sequence of positive bursts. *)
Definition well_formed (heap : list Process) : Prop :=
  Forall (λ o, 0 ≤ arrive o ∧ activities o ≠ [] ∧
               Forall (λ b, 0 < b) (activities o)) heap.

(** The processes a ready queue holds. *)
Definition ready_refs (rq : list pyobj) : list ref :=
  omap (λ x, match x with ObjProcess p => Some p | ObjSim => None end) rq.

(** The processes that wait: for their arrival or in the ready queue. *)
Definition pending (s : Sim) : list ref :=
  (process <$> queue (events s)) ++ ready_refs (ready_queue (sched s)).

(** The bursts that the starts of [p] have put on the CPU, in order. *)
Definition starts (p : ref) (t : list LogEntry) : list Z :=
  omap (λ d, match d with
             | Started p' _ b => if decide (p' = p) then Some b else None
             | _ => None
             end) t.

(** The variant of the loop of [Sim.run]. *)
Definition measure (s : Sim) : nat :=
  (4 * length (queue (events s)) + 2 * length (ready_queue (sched s)) +
   match runningTime s with Some _ => 1 | None => 0 end)%nat.

(** What holds between the calls the engine makes, in a run on the
    workload [h0]: only arrivals are queued, a process waits at most once,
    a waiting process is as in the workload and, under SPN, has not been
    started, and under SPN a process that waits no more has been started
    exactly once and has lost exactly its first burst. *)
Record run_inv (c : SchedulerClass) (h0 : list Process) (s : Sim) : Prop :=
mk_run_inv {
  inv_class : sched_class (sched s) = c;
  inv_length : length (heap s) = length h0;
  inv_ready : Forall (λ x, x ≠ ObjSim) (ready_queue (sched s));
  inv_arrivals : Forall (λ e, type e = ARRIVAL) (queue (events s));
  inv_nodup : NoDup (pending s);
  inv_pending : ∀ p, p ∈ pending s → heap s !! p = h0 !! p ∧ is_Some (h0 !! p);
  inv_fresh : c = SPN_Scheduler →
              ∀ p, p ∈ pending s → starts p (trace s) = [];
  inv_started : c = SPN_Scheduler →
                ∀ p o, h0 !! p = Some o → p ∉ pending s →
                  ∃ a acts, activities o = a :: acts ∧
                    heap s !! p = Some (mkProcess (pid o) (arrive o) acts) ∧
                    starts p (trace s) = [a]
}.

(** What holds at the head of the loop of [Sim.run], [move] being the
    value of the loop variable. *)
Definition at_head (c : SchedulerClass) (h0 : list Process)
    (move : option Z) (s : Sim) : Prop :=
  run_inv c h0 s ∧
  (queue (events s) = [] → move = runningTime s) ∧
  (queue (events s) ≠ [] → is_Some move) ∧
  (runningTime s = None → ready_queue (sched s) = []).

(** The sum of a sequence of bursts. *)
Definition total (l : list Z) : Z := foldr Z.add 0 l.

(** The decisions of a log: what was started and when bursts ended. *)
Definition decisions (t : list LogEntry) : list LogEntry :=
  omap (λ d, match d with Dispatched _ => None | _ => Some d end) t.

(** [m'] returns what [m] returns, wherever [m] returns. *)
Definition refines {A} (m m' : M Sim A) : Prop :=
  ∀ s r, m s = Ok r → m' s = Ok r.

(** ** More of the program *)

(** [EventQueue.__iter__]: the sequence that the iterator over the backing
    list walks, as long as the queue is not changed during the walk, and
    the queue as the call leaves it. *)
Definition EventQueue_iter (heap : list Process) (self : EventQueue)
  : list Event * EventQueue :=
  if dirty self
  then let l := list_sort_reverse (Event_lt heap) (queue self) in
       (l, mkEventQueue l false)
  else (queue self, self).

(** The next burst of a ready process, when the sort key can read it. *)
Definition burst_key (heap : list Process) (x : pyobj) : option Z :=
  match SPN_key heap x with
  | Ok k => Some k
  | _ => None
  end.

(** Whenever [m] returns, the state it returns in is related by [R] to the
    state it ran from. *)
Definition preserves {A} (R : relation Sim) (m : M Sim A) : Prop :=
  ∀ s a s', m s = Ok (a, s') → R s s'.

(** Under FCFS: the processes are as they were. *)
Definition FCFS_frame (s s' : Sim) : Prop :=
  sched_class (sched s) = FCFS_Scheduler →
  heap s' = heap s ∧ sched_class (sched s') = FCFS_Scheduler.

(** A start that puts on the CPU the first burst that the process has in
    the store [h]. *)
Definition starts_first (h : list Process) (d : LogEntry) : Prop :=
  match d with
  | Started p _ a => ∃ acts, activities (deref h p) = a :: acts
  | _ => True
  end.

(** Under FCFS: the processes are as they were, and the log has grown by
    starts of first bursts only. *)
Definition FCFS_log_frame (s s' : Sim) : Prop :=
  sched_class (sched s) = FCFS_Scheduler →
  heap s' = heap s ∧ sched_class (sched s') = FCFS_Scheduler ∧
  ∃ t, trace s' = trace s ++ t ∧ Forall (starts_first (heap s)) t.

(** ** Time in a run *)

(** The time a log entry is made at: an event is dispatched at the time it
    is due. *)
Definition entry_time (d : LogEntry) : Z :=
  match d with
  | Dispatched e => time e
  | Started _ t _ => t
  | Stopped t => t
  end.

Definition chronological (t : list LogEntry) : Prop :=
  StronglySorted Z.le (entry_time <$> t).

(** The events a log has dispatched, in order. *)
Definition dispatched (t : list LogEntry) : list Event :=
  omap (λ d, match d with Dispatched e => Some e | _ => None end) t.

(** The events that [initialize] queues. *)
Definition arrivals (h : list Process) : list Event :=
  (λ p, mkEvent ARRIVAL p (arrive (deref h p))) <$> all_refs h.

(** Reading a log as slices of CPU time: a start must find the CPU free
    and occupies it until the start time plus the burst; an end of burst
    must come at exactly that time and frees the CPU.  The state is the
    time until which the CPU is occupied, if it is; [None] is a log that
    cannot be read so. *)
Definition slice_step (st : option (option Z)) (d : LogEntry)
  : option (option Z) :=
  match st, d with
  | Some busy, Dispatched _ => Some busy
  | Some None, Started _ t a => Some (Some (t + a))
  | Some (Some t'), Stopped t => if decide (t = t') then Some None else None
  | _, _ => None
  end.

Definition slices (t : list LogEntry) : option (option Z) :=
  foldl slice_step (Some None) t.

(** A workload without negative arrival times or bursts. *)
Definition nonneg_workload (h : list Process) : Prop :=
  Forall (λ o, 0 ≤ arrive o ∧ Forall (λ b, 0 ≤ b) (activities o)) h.

(** Workloads whose bursts are all positive. *)
Definition positive_bursts (h : list Process) : Prop :=
  Forall (λ o, Forall (λ b, 0 < b) (activities o)) h.

(** Reading a log for the precedence of the end of a burst over the events:
    the state is the time at which the running burst ends, if one runs,
    that is the clock at its start plus its length.  An event dispatched
    while a burst runs must be due before the end of the burst, and the
    call of [stopRunning] must come at the end of the burst exactly;
    [None] is a log that cannot be read so. *)
Definition precedence_step (st : option (option Z)) (d : LogEntry)
  : option (option Z) :=
  match st, d with
  | Some None, Dispatched _ => Some None
  | Some (Some u), Dispatched e =>
      if decide (time e < u) then Some (Some u) else None
  | Some _, Started _ t a => Some (Some (t + a))
  | Some (Some u), Stopped t => if decide (t = u) then Some None else None
  | _, _ => None
  end.

Definition precedence (t : list LogEntry) : option (option Z) :=
  foldl precedence_step (Some None) t.

(** What a callback of a scheduler of class [c] does when it returns, [new]
    being the processes it is called with: it changes the ready queue, to
    processes that were ready or are new, and it may start one of them. *)
Inductive sched_effect (c : SchedulerClass) (new : list ref) (s : Sim)
  : Sim → Prop :=
| effect_queue rq' :
    (∀ x, x ∈ ready_refs rq' → x ∈ ready_refs (ready_queue (sched s)) ++ new) →
    sched_effect c new s (set_ready_queue rq' s)
| effect_start rq' q o a acts h' :
    (∀ x, x ∈ ready_refs rq' → x ∈ ready_refs (ready_queue (sched s)) ++ new) →
    q ∈ ready_refs (ready_queue (sched s)) ++ new →
    heap s !! q = Some o →
    activities o = a :: acts →
    match c with
    | FCFS_Scheduler => h' = heap s
    | SPN_Scheduler =>
        h' = <[q := mkProcess (pid o) (arrive o) acts]> (heap s) ∧
        runningTime s = None
    end →
    sched_effect c new s
      (set_trace (trace s ++ [Started q (clock s) a])
         (set_runningTime (Some a) (set_heap h' (set_ready_queue rq' s)))).

(** What holds of the times between the calls the engine makes, in a run
    on the workload [h0]. *)
Record time_inv (c : SchedulerClass) (h0 : list Process) (s : Sim) : Prop :=
mk_time_inv {
  tinv_class : sched_class (sched s) = c;
  tinv_fields : ∀ p, pid (deref (heap s) p) = pid (deref h0 p) ∧
                     arrive (deref (heap s) p) = arrive (deref h0 p);
  tinv_bursts : Forall (λ o, Forall (λ b, 0 ≤ b) (activities o)) (heap s);
  tinv_ordered : queue_ordered (heap s) (events s);
  tinv_events : ∀ e, e ∈ queue (events s) →
                  type e = ARRIVAL ∧ time e = arrive (deref h0 (process e)) ∧
                  clock s ≤ time e;
  tinv_running : ∀ r, runningTime s = Some r → 0 ≤ r;
  tinv_ready : ∀ q, q ∈ ready_refs (ready_queue (sched s)) →
                 arrive (deref h0 q) ≤ clock s;
  tinv_log : Forall (λ d, entry_time d ≤ clock s) (trace s);
  tinv_chron : chronological (trace s);
  tinv_started : ∀ p t a, Started p t a ∈ trace s → arrive (deref h0 p) ≤ t;
  tinv_dispatch : dispatched (trace s) ++ queue (events s) ≡ₚ arrivals h0;
  tinv_sorted : StronglySorted (Event_le h0) (dispatched (trace s));
  tinv_least : ∀ d x, d ∈ dispatched (trace s) → x ∈ queue (events s) →
                 Event_le h0 d x;
  tinv_slices : c = SPN_Scheduler →
                slices (trace s) = Some ((λ r, clock s + r) <$> runningTime s);
  tinv_prec : positive_bursts h0 →
              positive_bursts (heap s) ∧
              (∀ r, runningTime s = Some r → 0 < r) ∧
              precedence (trace s)
              = Some ((λ r, clock s + r) <$> runningTime s)
}.

(** The loop variable [move] at the head of the loop of [Sim.run]. *)
Definition head_time (move : option Z) (s : Sim) : Prop :=
  match queue (events s) with
  | [] => move = runningTime s
  | _ :: _ => ∃ e, EventQueue_peek (heap s) (events s) = Ok (e, events s) ∧
                   move = Some (time e - clock s)
  end.

(** ** The script *)

(** The two runs at the end of the file.  Both engines are made on the same
    list [procs] of the same objects, so the second run starts on the
    store as the first run leaves it. *)
Definition script (h : list Process) (fuel : nat) : outcome (Sim * Sim) :=
  let procs := all_refs h in
  '(_, sim_fcfs) ← Sim_run fuel (Sim_init h procs (Scheduler_init FCFS_Scheduler procs));
  '(_, sim_spn) ← Sim_run fuel (Sim_init (heap sim_fcfs) procs
                                  (Scheduler_init SPN_Scheduler procs));
  Ok (sim_fcfs, sim_spn).

(** ** Reading the process file *)

(** A Python string is a sequence of Unicode code points. *)
Definition char : Type := N.
Definition str : Type := list char.

(** The string of a literal of the source, all of which are ASCII. *)
Definition codes (s : String.string) : str :=
  Ascii.N_of_ascii <$> String.list_ascii_of_string s.

(** What [parseProcessFile] can raise once the file is open: its own two
    [ValueError]s, which carry the number of the line, the [ValueError] of
    [int], and the [IndexError] of [tmp[0]]. *)
Inductive parse_exn : Type :=
| NoFinalActivity (lineNumber : Z)
| InvalidProcess (lineNumber : Z)
| IntValueError
| TmpIndexError.

(** [l.rstrip()] takes [f] for whitespace. *)
Fixpoint dropwhile {A} (f : A → bool) (l : list A) : list A :=
  match l with
  | [] => []
  | x :: l' => if f x then dropwhile f l' else l
  end.

Section parseProcessFile.
(** Which characters are whitespace (for [str.rstrip] and [\s]) and which
    are decimal digits (for [\d]), and what [int] makes of a string,
    [None] when it raises [ValueError], are those of the Python that runs
    the script. *)
Variable isspace : char → bool.
Variable isdecimal : char → bool.
Variable int : str → option Z.

(** [line.rstrip()] *)
Definition rstrip (line : str) : str :=
  reverse (dropwhile isspace (reverse line)).

(** [re.split('\s+', p)]: the pieces of [p] between its maximal runs of
    whitespace; a run at the start or at the end of [p] leaves an empty
    piece there.  [cur] is the piece being read, and [in_run] tells that
    the character before was whitespace. *)
Fixpoint re_split (in_run : bool) (cur : str) (p : str) : list str :=
  match p with
  | [] => [cur]
  | c :: p' =>
      if isspace c then
        if in_run then re_split true [] p'
        else cur :: re_split true [] p'
      else re_split false (cur ++ [c]) p'
  end.

(** [re.fullmatch('\d+', tok) != None] *)
Definition fullmatch_digits (tok : str) : bool :=
  bool_decide (tok ≠ []) && forallb isdecimal tok.

(** The loop [for i in range(0, len(tmp))], on the elements of [tmp] that
    are left. *)
Fixpoint convert (lineNumber : Z) (tmp : list str) : parse_exn + list Z :=
  match tmp with
  | [] => inr []
  | tok :: tmp' =>
      if fullmatch_digits tok then
        match int tok with
        | Some v =>
            match convert lineNumber tmp' with
            | inr vs => inr (v :: vs)
            | inl e => inl e
            end
        | None => inl IntValueError
        end
      else inl (InvalidProcess lineNumber)
  end.

(** The body of the loop [for p in lines] *)
Definition parse_line (lineNumber : Z) (p : str) : parse_exn + Process :=
  let tmp := re_split false [] p in
  if decide (length tmp < 3)%nat then inl (NoFinalActivity lineNumber)
  else
    match convert lineNumber tmp with
    | inl e => inl e
    | inr [] => inl TmpIndexError
    | inr (a :: acts) => inr (mkProcess (lineNumber - 1) a acts)
    end.

(** The loop [for p in lines], on the lines that are left. *)
Fixpoint parse_lines (lineNumber : Z) (lines : list str)
  : parse_exn + list Process :=
  match lines with
  | [] => inr []
  | p :: lines' =>
      match parse_line lineNumber p with
      | inl e => inl e
      | inr proc =>
          match parse_lines (lineNumber + 1) lines' with
          | inl e => inl e
          | inr procs => inr (proc :: procs)
          end
      end
  end.

(** [Sim.parseProcessFile], on the lines that iterating over the open file
    gives. *)
Definition parseProcessFile (f : list str) : parse_exn + list Process :=
  parse_lines 1 (rstrip <$> f).

End parseProcessFile.

(** An instance of these tables for the examples, not the tables of
    Python: the ASCII whitespace characters, the ASCII decimal digits only
    (Python has decimal digits outside ASCII), and the number that a short
    string of ASCII digits stands for (the [int] of Python refuses strings
    of digits above a length that can be configured).  The properties of
    [parseProcessFile] are stated for all tables; only the examples use
    this instance, on strings for which it agrees with Python. *)
Definition ascii_isspace (c : char) : bool :=
  bool_decide (c ∈ [9; 10; 11; 12; 13; 28; 29; 30; 31; 32]%N).

Definition ascii_isdecimal (c : char) : bool :=
  (48 <=? c)%N && (c <=? 57)%N.

Definition ascii_int (tok : str) : option Z :=
  Some (foldl (λ a c, 10 * a + (Z.of_N c - 48)) 0 tok).

(** ** Reading the scheduler file *)

(** What [parseSchedulerFile] can raise once the file is open: the
    [IndexError] of [lines[0]], its own [ValueError]s, and the [ValueError]
    of [int], which [checkSchedOption] lets through. *)
Inductive sched_exn : Type :=
| LinesIndexError
| InvalidSchedulerID (algorithm : str)
| InvalidSchedulerOption (lineNumber : Z)
| OptionIntValueError.

(** [Sim.SCHED_IDS] *)
Definition SCHED_IDS : list str :=
  [codes "FCFS"; codes "RR"; codes "SPN"; codes "HRRN"; codes "FEEDBACK"]%string.

(** [d[k] = v] on a [dict], which keeps its keys in the order in which they
    were first set. *)
Fixpoint dict_set {V} (k : str) (v : V) (d : list (str * V)) : list (str * V) :=
  match d with
  | [] => [(k, v)]
  | (k', v') :: d' =>
      if decide (k' = k) then (k, v) :: d' else (k', v') :: dict_set k v d'
  end.

(** [s.split('=')]: the pieces of [s] between its occurrences of [sep];
    [cur] is the piece being read. *)
Fixpoint split_on (sep : char) (cur : str) (s : str) : list str :=
  match s with
  | [] => [cur]
  | c :: s' =>
      if decide (c = sep) then cur :: split_on sep [] s'
      else split_on sep (cur ++ [c]) s'
  end.

Section parseSchedulerFile.
(** Besides the whitespace characters: [str.isdigit], [int] and [float],
    [None] where they raise [ValueError], the floating point numbers being
    those of the Python that runs the script. *)
Variable isspace : char → bool.
Variable isdigit : str → bool.
Variable int : str → option Z.
Variable float_t : Type.
Variable float : str → option float_t.

(** The values that [checkSchedOption] returns, [None] apart. *)
Inductive optval : Type :=
| VInt (z : Z)
| VBool (b : bool)
| VFloat (x : float_t).

(** [int(value)] as [checkSchedOption] returns it. *)
Definition return_int (value : str) : sched_exn + option optval :=
  match int value with
  | Some z => inr (Some (VInt z))
  | None => inl OptionIntValueError
  end.

(** [Sim.checkSchedOption] *)
Definition checkSchedOption (algorithm opt value : str)
  : sched_exn + option optval :=
  if decide (algorithm = codes "FCFS"%string) then inr None
  else if bool_decide (algorithm ∈ [codes "VRR"; codes "RR"]%string)
          && bool_decide (opt = codes "quantum"%string) && isdigit value
  then return_int value
  else if decide (algorithm = codes "FEEDBACK"%string) then
    if bool_decide (opt = codes "quantum"%string) && isdigit value
    then return_int value
    else if bool_decide (opt = codes "num_priorities"%string) && isdigit value
    then return_int value
    else inr None
  else if bool_decide (algorithm ∈ [codes "SPN"; codes "SRT"; codes "HRRN"]%string)
  then
    if decide (opt = codes "service_given"%string) then
      if decide (value = codes "true"%string) then inr (Some (VBool true))
      else if decide (value = codes "false"%string) then inr (Some (VBool false))
      else inr None
    else if decide (opt = codes "alpha"%string) then
      match float value with
      | Some x => inr (Some (VFloat x))
      | None => inr None
      end
    else inr None
  else inr None.

(** [re.split(r'\s*=\s*', line)]: the pieces of [line] between its equals
    signs, without the whitespace next to an equals sign: a match of the
    pattern starts where the whitespace before an equals sign starts and
    goes on to where the whitespace after it ends.  [first] tells that no
    equals sign comes before the first of the pieces [ps]. *)
Fixpoint strip_pieces (first : bool) (ps : list str) : list str :=
  match ps with
  | [] => []
  | p :: ps' =>
      let p' := if first then p else dropwhile isspace p in
      match ps' with
      | [] => [p']
      | _ :: _ => rstrip isspace p' :: strip_pieces false ps'
      end
  end.

Definition re_split_eq (line : str) : list str :=
  strip_pieces true (split_on 61%N [] line).

(** The loop [for line in lines[1:]], on the lines that are left. *)
Fixpoint parse_options (algorithm : str) (lineNumber : Z) (lines : list str)
    (options : list (str * optval)) : sched_exn + list (str * optval) :=
  match lines with
  | [] => inr options
  | line :: lines' =>
      match re_split_eq line with
      | [opt; val] =>
          match checkSchedOption algorithm opt val with
          | inl e => inl e
          | inr None => inl (InvalidSchedulerOption lineNumber)
          | inr (Some value) =>
              parse_options algorithm (lineNumber + 1) lines'
                (dict_set opt value options)
          end
      | _ => inl (InvalidSchedulerOption lineNumber)
      end
  end.

(** [Sim.parseSchedulerFile], on the lines that iterating over the open
    file gives. *)
Definition parseSchedulerFile (f : list str)
  : sched_exn + (str * list (str * optval)) :=
  match rstrip isspace <$> f with
  | [] => inl LinesIndexError
  | algorithm :: lines =>
      if bool_decide (algorithm ∈ SCHED_IDS) then
        match parse_options algorithm 1 lines [] with
        | inl e => inl e
        | inr options => inr (algorithm, options)
        end
      else inl (InvalidSchedulerID algorithm)
  end.

(** What the branches of [checkSchedOption] admit: the options of an
    algorithm and the kind of their values. *)
Definition admits (algorithm opt : str) (v : optval) : Prop :=
  (algorithm ∈ [codes "VRR"; codes "RR"; codes "FEEDBACK"]%string ∧
   opt = codes "quantum"%string ∧ ∃ z, v = VInt z) ∨
  (algorithm = codes "FEEDBACK"%string ∧
   opt = codes "num_priorities"%string ∧ ∃ z, v = VInt z) ∨
  (algorithm ∈ [codes "SPN"; codes "SRT"; codes "HRRN"]%string ∧
   ((opt = codes "service_given"%string ∧ ∃ b, v = VBool b) ∨
    (opt = codes "alpha"%string ∧ ∃ x, v = VFloat x))).

End parseSchedulerFile.
Arguments VInt {float_t} z.
Arguments VBool {float_t} b.
Arguments VFloat {float_t} x.

(** The same for the scheduler file, again for the examples only:
    [str.isdigit] restricted to ASCII, and a stand-in for [float] that
    reads strings of ASCII digits, where [float] gives a whole number, and
    refuses every other string, which the [float] of Python does not. *)
Definition ascii_isdigit (s : str) : bool :=
  fullmatch_digits ascii_isdecimal s.

Definition ascii_float (s : str) : option Z :=
  if ascii_isdigit s then ascii_int s else None.

(** * Properties *)

(** ** Python lists *)

Section list_facts.
Context {A : Type}.
Implicit Types (l : list A) (x : A).

Lemma list_pop_snoc l x : list_pop (l ++ [x]) = Some (x, l).
Proof. unfold list_pop. by rewrite reverse_snoc, reverse_involutive. Qed.

Lemma list_pop_nil : list_pop (@nil A) = None.
Proof. done. Qed.

Lemma list_pop_Some l x r : list_pop l = Some (x, r) ↔ l = r ++ [x].
Proof.
  split; [|intros ->; apply list_pop_snoc].
  unfold list_pop. destruct (reverse l) as [|y k] eqn:E; [done|].
  intros [= -> <-]. apply (f_equal reverse) in E.
  by rewrite reverse_involutive, reverse_cons in E.
Qed.

Lemma list_pop_None l : list_pop l = None ↔ l = [].
Proof.
  destruct l as [|y l] using rev_ind; [done|].
  rewrite list_pop_snoc. split; [done|]. by destruct l.
Qed.

Lemma last_pop l x r : list_pop l = Some (x, r) → last l = Some x.
Proof. rewrite list_pop_Some. intros ->. apply last_snoc. Qed.
End list_facts.

Section sort_facts.
Context {A : Type} (lt : A → A → bool).
Implicit Types (l : list A) (x : A).

Lemma insert_sorted_Permutation x l : insert_sorted lt x l ≡ₚ x :: l.
Proof.
  induction l as [|y l IH]; simpl; [done|].
  destruct (lt y x); [|done]. rewrite IH. apply Permutation_swap.
Qed.

Lemma list_sort_Permutation l : list_sort lt l ≡ₚ l.
Proof.
  induction l as [|x l IH]; simpl; [done|].
  by rewrite insert_sorted_Permutation, IH.
Qed.

Lemma list_sort_reverse_Permutation l : list_sort_reverse lt l ≡ₚ l.
Proof.
  unfold list_sort_reverse.
  by rewrite reverse_Permutation, list_sort_Permutation, reverse_Permutation.
Qed.

(** Sortedness, for a comparison that is asymmetric and whose complement
    is transitive. *)
Context (le : relation A).
Context (le_lt : ∀ x y, lt y x = false ↔ le x y).
Context (lt_asym : ∀ x y, lt x y = true → lt y x = false).
Context (le_trans : Transitive le).

Lemma insert_sorted_sorted x l :
  StronglySorted le l → StronglySorted le (insert_sorted lt x l).
Proof.
  induction l as [|y l IH]; simpl; intros Hl.
  - repeat constructor.
  - apply StronglySorted_cons in Hl as [Hy Hl].
    destruct (lt y x) eqn:E.
    + apply StronglySorted_cons. split; [|by apply IH].
      rewrite insert_sorted_Permutation. constructor; [|done].
      by apply le_lt, lt_asym.
    + apply le_lt in E. apply StronglySorted_cons. split.
      * constructor; [done|]. eapply Forall_impl; [exact Hy|].
        intros z Hz. by etrans.
      * by apply StronglySorted_cons.
Qed.

Lemma list_sort_sorted l : StronglySorted le (list_sort lt l).
Proof.
  induction l; simpl; [constructor|]. by apply insert_sorted_sorted.
Qed.

Lemma StronglySorted_reverse (R : relation A) l :
  StronglySorted R l → StronglySorted (flip R) (reverse l).
Proof.
  induction l as [|x l IH]; [intros _; constructor|].
  rewrite StronglySorted_cons, reverse_cons. intros [Hx Hl].
  apply StronglySorted_app_2; [|by apply IH|repeat constructor].
  intros a b Ha Hb. apply list_elem_of_singleton in Hb as ->.
  rewrite elem_of_reverse in Ha. unfold flip.
  rewrite Forall_forall in Hx. by apply Hx.
Qed.

Lemma list_sort_reverse_sorted l :
  StronglySorted (flip le) (list_sort_reverse lt l).
Proof. apply StronglySorted_reverse, list_sort_sorted. Qed.
End sort_facts.

(** ** Event: [__lt__] is the strict part of the order of the specification *)

Section event_order.
Context (heap : list Process).
Implicit Types a b c : Event.

Lemma Event_lt_le a b : Event_lt heap b a = false ↔ Event_le heap a b.
Proof.
  unfold Event_lt, Event_le.
  destruct (Z.eqb_spec (time b) (time a)), (Z.eqb_spec (type b) (type a));
    rewrite ?Z.ltb_ge; lia.
Qed.

Lemma Event_lt_spec a b :
  Event_lt heap a b = true ↔ Event_le heap a b ∧ ¬ Event_le heap b a.
Proof.
  unfold Event_lt, Event_le.
  destruct (Z.eqb_spec (time a) (time b)), (Z.eqb_spec (type a) (type b));
    rewrite ?Z.ltb_lt; lia.
Qed.

Lemma Event_lt_asym a b : Event_lt heap a b = true → Event_lt heap b a = false.
Proof. rewrite Event_lt_spec, Event_lt_le. tauto. Qed.

#[global] Instance Event_le_refl : Reflexive (Event_le heap).
Proof. intros a. unfold Event_le. lia. Qed.

#[global] Instance Event_le_trans : Transitive (Event_le heap).
Proof. intros a b c. unfold Event_le. lia. Qed.

Lemma Event_le_total a b : Event_le heap a b ∨ Event_le heap b a.
Proof. unfold Event_le. lia. Qed.

(** On the two kinds of the program the order on [type] is "ARRIVAL
    before UNBLOCK". *)
Lemma kind_lt_ARRIVAL_UNBLOCK a b :
  type a ∈ [ARRIVAL; UNBLOCK] → type b ∈ [ARRIVAL; UNBLOCK] →
  type a < type b ↔ type a = ARRIVAL ∧ type b = UNBLOCK.
Proof. unfold ARRIVAL, UNBLOCK. rewrite !elem_of_cons, !elem_of_nil. lia. Qed.
End event_order.

(** ** EventQueue *)

Section event_queue.
Context (heap : list Process).
Implicit Types (q : EventQueue) (e : Event).

Lemma prepared_Permutation q : prepared heap q ≡ₚ queue q.
Proof.
  unfold prepared. destruct (dirty q); [|done].
  apply list_sort_reverse_Permutation.
Qed.

Lemma prepared_sorted q :
  queue_ordered heap q → StronglySorted (flip (Event_le heap)) (prepared heap q).
Proof.
  unfold prepared, queue_ordered. destruct (dirty q); [intros _|auto].
  apply list_sort_reverse_sorted.
  - intros x y. apply Event_lt_le.
  - apply Event_lt_asym.
  - apply Event_le_trans.
Qed.

Lemma prepareLookup_empty q :
  queue q = [] → EventQueue_prepareLookup heap q = Raise LookupError.
Proof. unfold EventQueue_prepareLookup. by intros ->. Qed.

Lemma prepareLookup_nonempty q :
  queue q ≠ [] →
  EventQueue_prepareLookup heap q = Ok (mkEventQueue (prepared heap q) false).
Proof.
  unfold EventQueue_prepareLookup, prepared.
  destruct q as [[|e l] [|]]; simpl; done.
Qed.

Lemma prepared_snoc q :
  queue q ≠ [] → ∃ e rest, prepared heap q = rest ++ [e].
Proof.
  intros Hq. destruct (prepared heap q) as [|y l] eqn:E using rev_ind; [|eauto].
  pose proof (prepared_Permutation q) as HP. rewrite E in HP.
  symmetry in HP. by apply Permutation_nil_r in HP.
Qed.

Lemma last_least rest e :
  StronglySorted (flip (Event_le heap)) (rest ++ [e]) →
  Forall (Event_le heap e) (rest ++ [e]).
Proof.
  intros HS. apply Forall_app. split; [|by repeat constructor].
  apply Forall_forall. intros x Hx.
  apply (StronglySorted_app_1_elem_of _ _ _ x e HS); [done|].
  by apply list_elem_of_singleton.
Qed.

Lemma EventQueue_pop_nonempty q e rest :
  prepared heap q = rest ++ [e] →
  EventQueue_pop heap q = Ok (e, mkEventQueue rest false).
Proof.
  intros E. unfold EventQueue_pop.
  rewrite prepareLookup_nonempty; simpl.
  - by rewrite E, list_pop_snoc.
  - intros Hq. pose proof (prepared_Permutation q) as HP.
    rewrite E, Hq in HP. apply Permutation_nil_r in HP. by destruct rest.
Qed.

Lemma EventQueue_peek_nonempty q e rest :
  prepared heap q = rest ++ [e] →
  EventQueue_peek heap q = Ok (e, mkEventQueue (rest ++ [e]) false).
Proof.
  intros E. unfold EventQueue_peek.
  rewrite prepareLookup_nonempty; simpl.
  - by rewrite E, last_snoc.
  - intros Hq. pose proof (prepared_Permutation q) as HP.
    rewrite E, Hq in HP. apply Permutation_nil_r in HP. by destruct rest.
Qed.

Lemma EventQueue_pop_inv q e q' :
  EventQueue_pop heap q = Ok (e, q') →
  ∃ rest, prepared heap q = rest ++ [e] ∧ q' = mkEventQueue rest false.
Proof.
  intros H. destruct (decide (queue q = [])) as [Hq|Hq].
  - unfold EventQueue_pop in H. by rewrite prepareLookup_empty in H.
  - destruct (prepared_snoc q Hq) as (e' & rest & E).
    rewrite (EventQueue_pop_nonempty _ _ _ E) in H. injection H as -> <-. eauto.
Qed.

Lemma EventQueue_peek_inv q e q' :
  EventQueue_peek heap q = Ok (e, q') →
  ∃ rest, prepared heap q = rest ++ [e] ∧ q' = mkEventQueue (rest ++ [e]) false.
Proof.
  intros H. destruct (decide (queue q = [])) as [Hq|Hq].
  - unfold EventQueue_peek in H. by rewrite prepareLookup_empty in H.
  - destruct (prepared_snoc q Hq) as (e' & rest & E).
    rewrite (EventQueue_peek_nonempty _ _ _ E) in H. injection H as -> <-. eauto.
Qed.

(** The invariant of the class. *)
Lemma queue_ordered_init : queue_ordered heap EventQueue_init.
Proof. intros _. constructor. Qed.

Lemma queue_ordered_push e q : queue_ordered heap (EventQueue_push e q).
Proof. by intros ?. Qed.

Lemma EventQueue_pop_least q e q' :
  queue_ordered heap q →
  EventQueue_pop heap q = Ok (e, q') →
  queue q ≡ₚ e :: queue q' ∧ Forall (Event_le heap e) (queue q) ∧
  queue_ordered heap q'.
Proof.
  intros Hq (rest & E & ->)%EventQueue_pop_inv.
  pose proof (prepared_sorted q Hq) as HS.
  pose proof (prepared_Permutation q) as HP. rewrite E in HS, HP.
  split_and!; simpl.
  - rewrite <-HP. by rewrite Permutation_app_comm.
  - rewrite <-HP. by apply last_least.
  - intros _. simpl. by apply StronglySorted_app_1_l in HS.
Qed.

Lemma EventQueue_peek_least q e q' :
  queue_ordered heap q →
  EventQueue_peek heap q = Ok (e, q') →
  queue q' ≡ₚ queue q ∧ Forall (Event_le heap e) (queue q) ∧
  queue_ordered heap q' ∧ last (queue q') = Some e ∧ dirty q' = false.
Proof.
  intros Hq (rest & E & ->)%EventQueue_peek_inv.
  pose proof (prepared_sorted q Hq) as HS.
  pose proof (prepared_Permutation q) as HP. rewrite E in HS, HP.
  split_and!; simpl; [done| |by intros _|apply last_snoc|done].
  rewrite <-HP. by apply last_least.
Qed.

Lemma run_ops_sorted ops : ∀ q obs qf (lo : list Event),
  queue_ordered heap q →
  run_ops heap ops q = Ok (obs, qf) →
  (∀ a x, a ∈ lo → x ∈ queue q → Event_le heap a x) →
  (∀ a b, a ∈ lo → Pushed b ∈ obs → Event_le heap a b) →
  (∀ l1 a l2 b l3,
     obs = l1 ++ Popped a :: l2 ++ Pushed b :: l3 → Event_le heap a b) →
  StronglySorted (Event_le heap) (popped obs) ∧
  (∀ a x, a ∈ lo → x ∈ popped obs → Event_le heap a x) ∧
  queue_ordered heap qf.
Proof.
  induction ops as [|[e| |] ops IH]; intros q obs qf lo Hq Hrun Hlo Hpush Hsplit;
    simpl in Hrun.
  - injection Hrun as <- <-. split_and!; [constructor| |done].
    intros a x _ Hx. by apply elem_of_nil in Hx.
  - destruct (run_ops heap ops (EventQueue_push e q)) as [[obs' q'']| |] eqn:E;
      simplify_eq/=.
    eapply IH in E as (HS & Hlo' & Hqf); [done|apply queue_ordered_push| | |].
    + intros a x Ha [Hx| ->%list_elem_of_singleton]%elem_of_app; [by apply Hlo|].
      apply Hpush; [done|]. by left.
    + intros a b Ha Hb. apply Hpush; [done|]. by right.
    + intros l1 a l2 b l3 ->. by apply (Hsplit (Pushed e :: l1) a l2 b l3).
  - destruct (EventQueue_pop heap q) as [[e q']| |] eqn:Ep; simplify_eq/=.
    destruct (run_ops heap ops q') as [[obs' q'']| |] eqn:E; simplify_eq/=.
    destruct (EventQueue_pop_least _ _ _ Hq Ep) as (HP & Hleast & Hq').
    rewrite Forall_forall in Hleast.
    eapply (IH _ _ _ (e :: lo)) in E as (HS & Hlo' & Hqf); [|done| | |].
    + split_and!; [|intros a x Ha [->|Hx]%elem_of_cons|done].
      * constructor; [done|]. apply Forall_forall. intros x Hx.
        apply Hlo'; [by left|done].
      * apply Hlo; [done|]. rewrite HP. by left.
      * apply Hlo'; [by right|done].
    + intros a x [->|Ha]%elem_of_cons Hx.
      * apply Hleast. rewrite HP. by right.
      * apply Hlo; [done|]. rewrite HP. by right.
    + intros a b [->|Ha]%elem_of_cons Hb.
      * apply list_elem_of_split in Hb as (l2 & l3 & ->).
        by apply (Hsplit [] e l2 b l3).
      * apply Hpush; [done|]. by right.
    + intros l1 a l2 b l3 ->. by apply (Hsplit (Popped e :: l1) a l2 b l3).
  - destruct (EventQueue_peek heap q) as [[e q']| |] eqn:Ep; simplify_eq/=.
    destruct (run_ops heap ops q') as [[obs' q'']| |] eqn:E; simplify_eq/=.
    destruct (EventQueue_peek_least _ _ _ Hq Ep) as (HP & _ & Hq' & _).
    eapply (IH _ _ _ lo) in E as (HS & Hlo' & Hqf); [done|done| | |].
    + intros a x Ha Hx. apply Hlo; [done|]. by rewrite <-HP.
    + intros a b Ha Hb. apply Hpush; [done|]. by right.
    + intros l1 a l2 b l3 ->. by apply (Hsplit (Peeked e :: l1) a l2 b l3).
Qed.

Lemma run_ops_ordered ops obs q :
  run_ops heap ops EventQueue_init = Ok (obs, q) → queue_ordered heap q.
Proof.
  revert obs q. generalize queue_ordered_init. generalize EventQueue_init.
  induction ops as [|[e| |] ops IH]; intros q0 Hq0 obs q Hrun; simpl in Hrun.
  - by simplify_eq.
  - destruct (run_ops heap ops (EventQueue_push e q0)) as [[obs' q'']| |] eqn:E;
      simplify_eq/=.
    eapply IH; [|done]. apply queue_ordered_push.
  - destruct (EventQueue_pop heap q0) as [[e q']| |] eqn:Ep; simplify_eq/=.
    destruct (run_ops heap ops q') as [[obs' q'']| |] eqn:E; simplify_eq/=.
    eapply IH; [|done]. by eapply EventQueue_pop_least.
  - destruct (EventQueue_peek heap q0) as [[e q']| |] eqn:Ep; simplify_eq/=.
    destruct (run_ops heap ops q') as [[obs' q'']| |] eqn:E; simplify_eq/=.
    eapply IH; [|done]. by eapply EventQueue_peek_least.
Qed.
End event_queue.

(** C8. [peek] and [pop] on an [EventQueue] with no elements raise the
    lookup error of an empty queue (Python's [LookupError], the
    [EmptyQueueError] of the specification); on a queue with elements both
    first bring the backing list in order, sorting it only if the dirty
    flag is set, and clear the flag; [peek] then returns and [pop] removes
    the last element, which is the earliest event of the queue. *)
Theorem EventQueue_lookup_contract (heap : list Process) (q : EventQueue) :
  (queue q = [] →
     EventQueue_peek heap q = Raise LookupError ∧
     EventQueue_pop heap q = Raise LookupError) ∧
  (queue q ≠ [] →
     ∃ e rest,
       (if dirty q then list_sort_reverse (Event_lt heap) (queue q) else queue q)
         = rest ++ [e] ∧
       EventQueue_peek heap q = Ok (e, mkEventQueue (rest ++ [e]) false) ∧
       EventQueue_pop heap q = Ok (e, mkEventQueue rest false) ∧
       (queue_ordered heap q →
          StronglySorted (flip (Event_le heap)) (rest ++ [e]) ∧
          Forall (Event_le heap e) (queue q))).
Proof.
  split.
  - intros Hq. unfold EventQueue_peek, EventQueue_pop.
    by rewrite prepareLookup_empty.
  - intros Hq. destruct (prepared_snoc heap q Hq) as (e & rest & E).
    exists e, rest. split_and!.
    + exact E.
    + by apply EventQueue_peek_nonempty.
    + by apply EventQueue_pop_nonempty.
    + intros Ho. pose proof (prepared_sorted heap q Ho) as HS.
      rewrite E in HS. split; [done|].
      rewrite <-(prepared_Permutation heap q), E. by apply last_least.
Qed.

Lemma EventQueue_lookup_contract_witness :
  let heap := [mkProcess 0 0 [5]; mkProcess 1 2 [3]] in
  let q := mkEventQueue [mkEvent ARRIVAL 1 2; mkEvent UNBLOCK 0 7;
                         mkEvent ARRIVAL 0 2] true in
  ∃ e rest,
    list_sort_reverse (Event_lt heap) (queue q) = rest ++ [e] ∧
    EventQueue_peek heap q = Ok (e, mkEventQueue (rest ++ [e]) false) ∧
    EventQueue_pop heap q = Ok (e, mkEventQueue rest false) ∧
    StronglySorted (flip (Event_le heap)) (rest ++ [e]) ∧
    Forall (Event_le heap e) (queue q).
Proof.
  intros heap q.
  destruct (EventQueue_lookup_contract heap q) as [_ H].
  destruct H as (e & rest & H1 & H2 & H3 & H4); [discriminate|].
  exists e, rest. repeat split; try assumption; apply H4; discriminate.
Defined.

Lemma no_smaller_push_split (R : relation Event) (obs : list queue_obs) :
  no_smaller_push R obs →
  ∀ l1 a l2 b l3, obs = l1 ++ Popped a :: l2 ++ Pushed b :: l3 → R a b.
Proof.
  intros H l1 a l2 b l3 ->. induction l1 as [|o l1 IH]; simpl in H.
  - destruct H as [H _]. apply H, elem_of_app. right. by left.
  - apply IH. by destruct o as [?|?|?]; [|destruct H|].
Qed.

(** C2. Whatever events are pushed, in whatever order and with whatever
    pops and peeks in between, a pop returns a least event of the queue
    (and removes just that one), and the events popped one after the other
    are non-decreasing in the order (time, kind, process id) as long as no
    event pushed after a pop is smaller than the one that pop returned. *)
Theorem EventQueue_pop_order (heap : list Process) (ops : list queue_op)
    (obs : list queue_obs) (q : EventQueue) :
  run_ops heap ops EventQueue_init = Ok (obs, q) →
  (∀ e q', EventQueue_pop heap q = Ok (e, q') →
     queue q ≡ₚ e :: queue q' ∧ Forall (Event_le heap e) (queue q)) ∧
  ((∀ l1 a l2 b l3,
      obs = l1 ++ Popped a :: l2 ++ Pushed b :: l3 → Event_le heap a b) →
   StronglySorted (Event_le heap) (popped obs)).
Proof.
  intros Hrun. split.
  - intros e q' Hpop. pose proof (run_ops_ordered _ _ _ _ Hrun) as Hq.
    destruct (EventQueue_pop_least _ _ _ _ Hq Hpop) as (? & ? & _). done.
  - intros Hsplit.
    eapply (run_ops_sorted heap ops _ _ _ []) in Hrun as (HS & _ & _);
      [done|apply queue_ordered_init| | |done].
    + intros a x Ha. by apply elem_of_nil in Ha.
    + intros a x Ha. by apply elem_of_nil in Ha.
Qed.

Lemma EventQueue_pop_order_witness :
  let heap := [mkProcess 0 0 [5]; mkProcess 1 2 [3]] in
  let e1 := mkEvent ARRIVAL 0 2 in
  let e2 := mkEvent ARRIVAL 1 2 in
  let e3 := mkEvent UNBLOCK 0 2 in
  let e4 := mkEvent ARRIVAL 0 7 in
  run_ops heap [OpPush e4; OpPush e2; OpPush e1; OpPop; OpPush e3; OpPop;
                OpPop; OpPop] EventQueue_init
    = Ok ([Pushed e4; Pushed e2; Pushed e1; Popped e1; Pushed e3; Popped e2;
           Popped e3; Popped e4], mkEventQueue [] false) ∧
  StronglySorted (Event_le heap) [e1; e2; e3; e4].
Proof.
  intros heap e1 e2 e3 e4.
  match goal with |- ?lhs = Ok (?obs, ?q) ∧ _ =>
    assert (lhs = Ok (obs, q)) as Hrun by reflexivity;
    split; [exact Hrun|];
    apply (proj2 (EventQueue_pop_order heap _ obs q Hrun))
  end.
  apply no_smaller_push_split. simpl. split_and!; try exact I; intros b Hb;
    repeat (apply elem_of_cons in Hb as [Hb|Hb];
            [try discriminate Hb; injection Hb as ->|]);
    try (by apply elem_of_nil in Hb).
  unfold Event_le, e1, e3, ARRIVAL, UNBLOCK. simpl. lia.
Defined.

(** ** The monad *)

Section monad_facts.
Context {A B : Type}.

Lemma bind_eq (m : M Sim A) (f : A → M Sim B) s :
  (m ≫= f) s =
  match m s with
  | Ok (a, s') => f a s'
  | Raise e => Raise e
  | OutOfFuel => OutOfFuel
  end.
Proof. done. Qed.

Lemma bind_Ok (m : M Sim A) (f : A → M Sim B) s b s'' :
  (m ≫= f) s = Ok (b, s'') ↔ ∃ a s', m s = Ok (a, s') ∧ f a s' = Ok (b, s'').
Proof.
  rewrite bind_eq. destruct (m s) as [[a s']| |].
  - split; [eauto|]. by intros (? & ? & [= <- <-] & ?).
  - split; [done|]. by intros (? & ? & ? & ?).
  - split; [done|]. by intros (? & ? & ? & ?).
Qed.

Lemma returns_bind (m : M Sim A) (f : A → M Sim B) s Q :
  returns m s (λ a s', returns (f a) s' Q) → returns (m ≫= f) s Q.
Proof.
  intros (a & s' & Hm & b & s'' & Hf & HQ). exists b, s''.
  split; [|done]. apply bind_Ok. eauto.
Qed.

Lemma returns_mono (m : M Sim A) s (Q Q' : A → Sim → Prop) :
  returns m s Q → (∀ a s', Q a s' → Q' a s') → returns m s Q'.
Proof. intros (a & s' & ? & ?) HQ. exists a, s'. eauto. Qed.

Lemma returns_eq (m : M Sim A) s a s' (Q : A → Sim → Prop) :
  m s = Ok (a, s') → Q a s' → returns m s Q.
Proof. intros. exists a, s'. eauto. Qed.

Lemma returns_inv (m : M Sim A) s a s' (Q : A → Sim → Prop) :
  returns m s Q → m s = Ok (a, s') → Q a s'.
Proof. intros (a' & s'' & E & HQ) E'. rewrite E in E'. by simplify_eq. Qed.

Lemma logs_bind P (m : M Sim A) (f : A → M Sim B) :
  logs P m → (∀ a, logs P (f a)) → logs P (m ≫= f).
Proof.
  intros Hm Hf s b s'' (a & s' & E1 & E2)%bind_Ok.
  destruct (Hm _ _ _ E1) as (Hc1 & t1 & Ht1 & HP1).
  destruct (Hf _ _ _ _ E2) as (Hc2 & t2 & Ht2 & HP2).
  split; [congruence|]. exists (t1 ++ t2).
  rewrite Ht2, Ht1, (assoc_L (++)). split; [done|]. by apply Forall_app.
Qed.

Lemma logs_mono (P P' : LogEntry → Prop) (m : M Sim A) :
  (∀ d, P d → P' d) → logs P m → logs P' m.
Proof.
  intros HP Hm s a s' E. destruct (Hm _ _ _ E) as (? & t & ? & ?).
  split; [done|]. exists t. split; [done|]. by eapply Forall_impl.
Qed.

Lemma logs_ret P (a : A) : logs P (mret a : M Sim A).
Proof.
  intros s a' s' [= <- <-]. split; [done|]. exists [].
  by rewrite (right_id_L [] (++)).
Qed.

Lemma logs_gets P (f : Sim → A) : logs P (gets f).
Proof.
  intros s a' s' [= <- <-]. split; [done|]. exists [].
  by rewrite (right_id_L [] (++)).
Qed.

Lemma logs_raise P e : logs P (raise e : M Sim A).
Proof. by intros s a s'. Qed.

Lemma logs_out_of_fuel P : logs P (out_of_fuel : M Sim A).
Proof. by intros s a s'. Qed.

Lemma logs_lift P (o : outcome A) : logs P (lift o).
Proof.
  intros s a s'. unfold lift. destruct o; intros [= <- <-].
  split; [done|]. exists []. by rewrite (right_id_L [] (++)).
Qed.
End monad_facts.

(** Rewriting rules to run a method on a state. *)
Section run_facts.
Context {A B C : Type}.

Lemma bind_assoc (m : M Sim A) (f : A → M Sim B) (g : B → M Sim C) s :
  ((m ≫= f) ≫= g) s = (m ≫= λ a, f a ≫= g) s.
Proof. rewrite !bind_eq. by destruct (m s) as [[a s']| |]. Qed.

Lemma bind_ret (a : A) (f : A → M Sim B) s : (mret a ≫= f) s = f a s.
Proof. done. Qed.

Lemma bind_gets (g : Sim → A) (f : A → M Sim B) s :
  (gets g ≫= f) s = f (g s) s.
Proof. done. Qed.

Lemma bind_modify (g : Sim → Sim) (f : unit → M Sim B) s :
  (modify g ≫= f) s = f () (g s).
Proof. done. Qed.

Lemma bind_log d (f : unit → M Sim B) s :
  (log d ≫= f) s = f () (set_trace (trace s ++ [d]) s).
Proof. done. Qed.

Lemma bind_lift_Ok (a : A) (f : A → M Sim B) s : (lift (Ok a) ≫= f) s = f a s.
Proof. done. Qed.

Lemma bind_lift_Raise e (f : A → M Sim B) s :
  (lift (Raise e) ≫= f) s = Raise e.
Proof. done. Qed.

Lemma bind_raise e (f : A → M Sim B) s : (raise e ≫= f) s = Raise e.
Proof. done. Qed.
End run_facts.

Ltac run_step :=
  first
    [ rewrite bind_assoc
    | rewrite bind_ret
    | rewrite bind_gets
    | rewrite bind_log
    | rewrite bind_modify
    | rewrite bind_lift_Ok
    | rewrite bind_lift_Raise
    | rewrite bind_raise ].

Lemma logs_modify P (f : Sim → Sim) :
  (∀ s, clock (f s) = clock s ∧ trace (f s) = trace s) → logs P (modify f).
Proof.
  intros Hf s a s' [= <- <-]. destruct (Hf s) as [-> ->].
  split; [done|]. exists []. by rewrite (right_id_L [] (++)).
Qed.

Lemma logs_log (P : LogEntry → Prop) d : P d → logs P (log d).
Proof.
  intros Hd s a s' [= <- <-]. split; [done|]. exists [d]. by repeat constructor.
Qed.

(** A method that only reads and writes the queue, the store, the ready
    queue and the running time. *)
Ltac logs_step :=
  first
    [ apply logs_bind; [|intros ?]
    | apply logs_ret
    | apply logs_gets
    | apply logs_raise
    | apply logs_out_of_fuel
    | apply logs_lift
    | apply logs_modify; by intros []
    | apply logs_log; exact I
    | match goal with
      | |- logs _ (match ?x with _ => _ end) => destruct x
      | |- logs _ (if ?x then _ else _) => destruct x
      end ].

Lemma logs_events_peek P : logs P events_peek.
Proof.
  intros s e s' H. unfold events_peek in H.
  destruct (EventQueue_peek _ _) as [[e' q]| |]; simplify_eq/=.
  split; [done|]. exists []. by rewrite (right_id_L [] (++)).
Qed.

Lemma logs_events_pop P : logs P events_pop.
Proof.
  intros s e s' H. unfold events_pop in H.
  destruct (EventQueue_pop _ _) as [[e' q]| |]; simplify_eq/=.
  split; [done|]. exists []. by rewrite (right_id_L [] (++)).
Qed.

Lemma logs_Sim_getTimeForward P : logs P Sim_getTimeForward.
Proof.
  unfold Sim_getTimeForward, events_hasEvent.
  repeat first [apply logs_events_peek | logs_step].
Qed.

Lemma logs_FCFS_idle : logs is_Started FCFS_Scheduler_idle.
Proof. unfold FCFS_Scheduler_idle, as_process. repeat logs_step. Qed.

Lemma logs_SPN_start_next_process : logs is_Started SPN_Scheduler_start_next_process.
Proof. unfold SPN_Scheduler_start_next_process, as_process. repeat logs_step. Qed.

Lemma logs_SPN_idle : logs is_Started SPN_Scheduler_idle.
Proof.
  unfold SPN_Scheduler_idle.
  repeat first [apply logs_SPN_start_next_process | logs_step].
Qed.

Lemma logs_sched_idle : logs is_Started sched_idle.
Proof.
  intros s a s'. unfold sched_idle. destruct (sched_class (sched s)).
  - apply logs_FCFS_idle.
  - apply logs_SPN_idle.
Qed.

Lemma logs_SPN_add_to_ready_queue P x : logs P (SPN_Scheduler_add_to_ready_queue x).
Proof. unfold SPN_Scheduler_add_to_ready_queue. repeat logs_step. Qed.

Lemma logs_sched_arrive p : logs is_Started (sched_arrive p).
Proof.
  intros s a s'. unfold sched_arrive. destruct (sched_class (sched s)).
  - revert s a s'. unfold FCFS_Scheduler_arrive. repeat logs_step.
  - revert s a s'. unfold SPN_Scheduler_arrive.
    repeat first [apply logs_SPN_add_to_ready_queue
                 |apply logs_SPN_start_next_process | logs_step].
Qed.

Lemma logs_sched_unblock x y : logs is_Started (sched_unblock x y).
Proof.
  intros s a s'. unfold sched_unblock. destruct (sched_class (sched s)).
  - revert s a s'. unfold FCFS_Scheduler_unblock. repeat logs_step.
  - revert s a s'. unfold SPN_Scheduler_unblock, attr_runningTime.
    repeat first [apply logs_SPN_add_to_ready_queue
                 |apply logs_SPN_start_next_process | logs_step].
Qed.

(** ** Sim: scheduling events *)

(** C10. [addUnblockEvent(p, t)] pushes exactly one [UNBLOCK] event for [p]
    due at [clock + t], and [addArrival(p)] exactly one [ARRIVAL] event for
    [p] due at the arrival time of [p]; both leave the clock, the running
    time, the processes (so their bursts) and the scheduler as they are. *)
Theorem Sim_add_event_frame (s : Sim) (p : ref) (t : Z) :
  (∃ s', Sim_addUnblockEvent p t s = Ok ((), s') ∧
     queue (events s') = queue (events s) ++ [mkEvent UNBLOCK p (clock s + t)] ∧
     clock s' = clock s ∧ runningTime s' = runningTime s ∧ heap s' = heap s ∧
     sched s' = sched s ∧ procs s' = procs s ∧ trace s' = trace s) ∧
  (∃ s', Sim_addArrival p s = Ok ((), s') ∧
     queue (events s') =
       queue (events s) ++ [mkEvent ARRIVAL p (arrive (deref (heap s) p))] ∧
     clock s' = clock s ∧ runningTime s' = runningTime s ∧ heap s' = heap s ∧
     sched s' = sched s ∧ procs s' = procs s ∧ trace s' = trace s).
Proof. split; eexists; (split; [reflexivity|]); by destruct s. Qed.

(** ** Sim: the end of a burst *)

(** C7, as stated, fails: under FCFS, whose [stopRunning] does nothing, the
    running time is not left set when a burst of 5 elapses. *)
Lemma handleTimeDone_keeps_runningTime_counterexample :
  let s := set_runningTime (Some 5)
             (Sim_init [mkProcess 0 0 [5]] [0%nat]
                (Scheduler_init FCFS_Scheduler [0%nat])) in
  FCFS_Scheduler_stopRunning s = Ok ((), s) ∧
  ¬ (∀ s', Sim_handleTimeDone (Some 5) s = Ok (true, s') →
           is_Some (runningTime s')).
Proof.
  intros s. split; [done|]. intros H.
  destruct (H _ eq_refl) as [r Hr]. discriminate Hr.
Qed.

(** What [handleTimeDone] does when the running burst has elapsed. *)
Lemma Sim_handleTimeDone_elapsed (s : Sim) (mv r : Z) :
  runningTime s = Some r → r ≤ mv →
  let s1 := set_trace (trace s ++ [Stopped (clock s + r)])
              (set_runningTime None (set_clock (clock s + r) s)) in
  Sim_handleTimeDone (Some mv) s = (sched_stopRunning ≫= λ _, mret true) s1 ∧
  Sim_handleTimeDone (Some mv) s = Ok (true, s1).
Proof.
  intros Hr Hle s1.
  assert (Sim_handleTimeDone (Some mv) s
          = (sched_stopRunning ≫= λ _, mret true) s1) as E.
  { unfold Sim_handleTimeDone. rewrite bind_gets, Hr.
    by destruct (Z.leb_spec r mv); [|lia]. }
  split; [done|].
  rewrite E, bind_eq. unfold sched_stopRunning. simpl.
  by destruct (sched_class (sched s)).
Qed.

Lemma Sim_handleTimeDone_idle (s : Sim) (move : option Z) :
  runningTime s = None → Sim_handleTimeDone move s = Ok (false, s).
Proof.
  intros Hr. unfold Sim_handleTimeDone. destruct move; [|done].
  by rewrite bind_gets, Hr.
Qed.

Lemma Sim_handleTimeDone_running (s : Sim) (mv r : Z) :
  runningTime s = Some r → mv < r →
  Sim_handleTimeDone (Some mv) s = Ok (false, s).
Proof.
  intros Hr Hlt. unfold Sim_handleTimeDone. rewrite bind_gets, Hr.
  by destruct (Z.leb_spec r mv); [lia|].
Qed.

(** C7, amended. When a running burst has fully elapsed ([runningTime] is
    at most [move]), [handleTimeDone] itself advances the clock by the
    running time and sets [runningTime] to [None], and only then calls
    [stopRunning]; under both schedulers, also under FCFS whose
    [stopRunning] does nothing, it returns [True] with [runningTime]
    [None]. *)
Theorem handleTimeDone_resets_runningTime (s : Sim) (mv r : Z) :
  runningTime s = Some r → r ≤ mv →
  let s1 := set_trace (trace s ++ [Stopped (clock s + r)])
              (set_runningTime None (set_clock (clock s + r) s)) in
  Sim_handleTimeDone (Some mv) s = (sched_stopRunning ≫= λ _, mret true) s1 ∧
  runningTime s1 = None ∧
  Sim_handleTimeDone (Some mv) s = Ok (true, s1).
Proof.
  intros Hr Hle s1.
  destruct (Sim_handleTimeDone_elapsed s mv r Hr Hle) as [E1 E2]. done.
Qed.

Lemma handleTimeDone_resets_runningTime_witness :
  let s := set_runningTime (Some 5)
             (Sim_init [mkProcess 0 0 [5]] [0%nat]
                (Scheduler_init FCFS_Scheduler [0%nat])) in
  Sim_handleTimeDone (Some 7) s =
    Ok (true, set_trace [Stopped 5] (set_runningTime None (set_clock 5 s))).
Proof.
  intros s.
  exact (proj2 (proj2 (handleTimeDone_resets_runningTime s 7 5 eq_refl
                         ltac:(lia)))).
Defined.

(** ** Sim: dispatch of an [UNBLOCK] event *)

Lemma SPN_key_ObjSim heap (l : list pyobj) :
  ObjSim ∈ l → ∃ x, mapM (SPN_key heap) l = Raise x.
Proof.
  induction l as [|y l IH]; intros Hin; [by apply elem_of_nil in Hin|].
  simpl. apply elem_of_cons in Hin as [<-|Hin]; [by eexists|].
  destruct (IH Hin) as [x ->].
  destruct y as [|p]; simpl; [by eexists|].
  destruct (activities (deref heap p)); simpl; by eexists.
Qed.

(** Under SPN the dispatch of an event that is not an arrival never
    returns: [unblock] is called with the engine where it expects the
    process, and the sort of the ready queue raises on it. *)
Lemma SPN_dispatch_unblock_raises (s : Sim) (e : Event) :
  sched_class (sched s) = SPN_Scheduler → type e ≠ ARRIVAL →
  ∃ x, Sim_processEvent e s = Raise x.
Proof.
  intros Hc Ht. unfold Sim_processEvent. rewrite bind_log.
  destruct (Z.eqb_spec (type e) ARRIVAL); [done|].
  unfold sched_unblock. simpl. rewrite Hc.
  unfold SPN_Scheduler_unblock, SPN_Scheduler_add_to_ready_queue.
  repeat run_step. simpl. unfold sort_by_key.
  destruct (SPN_key_ObjSim (heap s) (ready_queue (sched s) ++ [ObjSim]))
    as [x ->]; [apply elem_of_app; right; by left|].
  simpl. run_step. by eexists.
Qed.

(** C6, on the code.  [processEvent] passes the engine first and the
    process second to [unblock], which declares them the other way round.
    Under SPN the dispatch of an [UNBLOCK] event for a process with a burst
    of 3, with the CPU idle, raises [AttributeError] where the claim has
    the process put in the ready queue and started; under FCFS it returns
    and has neither queued nor started the process, although the CPU is
    idle. *)
Theorem unblock_dispatch_on_code :
  let heap := [mkProcess 0 0 [3]] in
  let spn := Sim_init heap [0%nat] (Scheduler_init SPN_Scheduler [0%nat]) in
  let fcfs := Sim_init heap [0%nat] (Scheduler_init FCFS_Scheduler [0%nat]) in
  let e := mkEvent UNBLOCK 0 0 in
  Sim_processEvent e spn = Raise AttributeError ∧
  (∃ s', Sim_processEvent (mkEvent ARRIVAL 0 0) spn = Ok ((), s') ∧
     runningTime s' = Some 3 ∧ trace s' = [Dispatched (mkEvent ARRIVAL 0 0);
                                           Started 0 0 3]) ∧
  Sim_processEvent e fcfs = Ok ((), set_trace [Dispatched e] fcfs) ∧
  runningTime fcfs = None.
Proof. intros heap spn fcfs e. split_and!; [done|by eexists|done|done]. Qed.

(** ** Sim: one turn of the loop *)

Lemma peek_nonempty heap q e q' :
  EventQueue_peek heap q = Ok (e, q') → queue q ≠ [] ∧ queue q' ≠ [].
Proof.
  intros (rest & E & ->)%EventQueue_peek_inv. split.
  - intros Hq. pose proof (prepared_Permutation heap q) as HP.
    rewrite E, Hq in HP. apply Permutation_nil_r in HP. by destruct rest.
  - simpl. by destruct rest.
Qed.

Lemma hasEvent_nonempty q : queue q ≠ [] → EventQueue_hasEvent q = true.
Proof.
  intros Hq. unfold EventQueue_hasEvent. apply bool_decide_eq_true.
  destruct (queue q); [done|simpl; lia].
Qed.

Lemma hasEvent_empty q : queue q = [] → EventQueue_hasEvent q = false.
Proof. intros Hq. unfold EventQueue_hasEvent. by rewrite Hq. Qed.

Lemma peek_again heap q e q' :
  EventQueue_peek heap q = Ok (e, q') →
  EventQueue_peek heap q' = Ok (e, q') ∧
  ∃ rest, q' = mkEventQueue (rest ++ [e]) false ∧
          EventQueue_pop heap q' = Ok (e, mkEventQueue rest false).
Proof.
  intros (rest & E & ->)%EventQueue_peek_inv. split; [|exists rest; split; [done|]].
  - by apply EventQueue_peek_nonempty.
  - by apply EventQueue_pop_nonempty.
Qed.

Lemma Sim_getTimeForward_events (s : Sim) e q :
  EventQueue_peek (heap s) (events s) = Ok (e, q) →
  Sim_getTimeForward s = Ok (Some (time e - clock s), set_events q s).
Proof.
  intros Hp. unfold Sim_getTimeForward, events_hasEvent.
  rewrite bind_gets, hasEvent_nonempty
    by exact (proj1 (peek_nonempty _ _ _ _ Hp)).
  rewrite bind_eq. unfold events_peek. by rewrite Hp.
Qed.

Lemma Sim_getTimeForward_no_events (s : Sim) :
  queue (events s) = [] → Sim_getTimeForward s = Ok (runningTime s, s).
Proof.
  intros Hq. unfold Sim_getTimeForward, events_hasEvent.
  rewrite bind_gets, hasEvent_empty, bind_gets by done.
  by destruct (runningTime s).
Qed.

Lemma Sim_run_due_events (s : Sim) e q :
  EventQueue_peek (heap s) (events s) = Ok (e, q) →
  Sim_run_due s = Ok (time e =? clock s, set_events q s).
Proof.
  intros Hp. unfold Sim_run_due, events_hasEvent.
  rewrite bind_gets, hasEvent_nonempty
    by exact (proj1 (peek_nonempty _ _ _ _ Hp)).
  rewrite bind_eq. unfold events_peek. by rewrite Hp.
Qed.

Lemma Sim_run_due_no_events (s : Sim) :
  queue (events s) = [] → Sim_run_due s = Ok (false, s).
Proof.
  intros Hq. unfold Sim_run_due, events_hasEvent.
  by rewrite bind_gets, hasEvent_empty.
Qed.

Lemma Sim_run_settle_idle fuel (s : Sim) (move : option Z) :
  runningTime s = None →
  Sim_run_settle (S fuel) move s = Ok ((), s).
Proof.
  intros Hr. simpl. destruct move; [|done].
  by rewrite bind_eq, Sim_handleTimeDone_idle.
Qed.

Lemma Sim_processEvent_log (e : Event) s a s' :
  Sim_processEvent e s = Ok (a, s') →
  clock s' = clock s ∧
  ∃ t, trace s' = trace s ++ Dispatched e :: t ∧ Forall is_Started t.
Proof.
  unfold Sim_processEvent. rewrite bind_log. intros H.
  assert (logs is_Started
            (if type e =? ARRIVAL then sched_arrive (process e)
             else sched_unblock ObjSim (ObjProcess (process e)))) as Hl.
  { destruct (type e =? ARRIVAL);
      [apply logs_sched_arrive|apply logs_sched_unblock]. }
  destruct (Hl _ _ _ H) as (Hc & t & Ht & HP). split; [done|].
  exists t. split; [|done]. rewrite Ht. simpl. by rewrite <-(assoc_L (++)).
Qed.

Lemma logs_Sim_processEvent (e : Event) : logs (λ _, True) (Sim_processEvent e).
Proof.
  intros s a s' H. destruct (Sim_processEvent_log _ _ _ _ H) as (? & t & -> & _).
  split; [done|]. eexists. split; [done|]. by apply Forall_true.
Qed.

Lemma logs_Sim_run_drain fuel : logs (λ _, True) (Sim_run_drain fuel).
Proof.
  induction fuel as [|fuel IH]; simpl; [apply logs_out_of_fuel|].
  unfold Sim_run_due, events_hasEvent.
  repeat first [apply logs_events_peek | apply logs_events_pop
               |apply logs_Sim_processEvent | apply IH | logs_step].
Qed.

Lemma set_events_id (s : Sim) q : events s = q → set_events q s = s.
Proof. intros <-. by destruct s. Qed.

Lemma set_ready_queue_id (s : Sim) :
  set_ready_queue (ready_queue (sched s)) s = s.
Proof. by destruct s as [? ? ? ? ? [] ?]. Qed.

Lemma logs_run_body_end :
  logs is_Started
    (rt ← gets runningTime;
     match rt with
     | None => sched_idle
     | Some _ => mret ()
     end;;
     Sim_getTimeForward).
Proof.
  repeat first [apply logs_sched_idle | apply logs_Sim_getTimeForward | logs_step].
Qed.

(** ** The invariant of a run *)

Lemma ready_refs_app rq rq' : ready_refs (rq ++ rq') = ready_refs rq ++ ready_refs rq'.
Proof. apply omap_app. Qed.

#[global] Instance ready_refs_Permutation :
  Proper ((≡ₚ) ==> (≡ₚ)) ready_refs.
Proof. intros rq rq' H. unfold ready_refs. by rewrite H. Qed.

Lemma ready_refs_elem_of rq p : p ∈ ready_refs rq ↔ ObjProcess p ∈ rq.
Proof.
  unfold ready_refs. rewrite list_elem_of_omap. split.
  - intros ([|p'] & Hin & E); [done|]. by injection E as ->.
  - intros Hin. by exists (ObjProcess p).
Qed.

Lemma starts_snoc p t d :
  starts p (t ++ [d]) =
  starts p t ++ match d with
                | Started p' _ b => if decide (p' = p) then [b] else []
                | _ => []
                end.
Proof.
  unfold starts. rewrite omap_app. f_equal.
  destruct d as [|p' c b|]; simpl; [done| |done]. by destruct (decide (p' = p)).
Qed.

Lemma deref_lookup heap p o : heap !! p = Some o → deref heap p = o.
Proof. unfold deref. by intros ->. Qed.

(** The invariant only depends on the store, on who waits, on the starts
    logged and on the class of the scheduler. *)
Lemma run_inv_transfer c h0 (s s' : Sim) :
  run_inv c h0 s →
  heap s' = heap s →
  sched_class (sched s') = sched_class (sched s) →
  pending s' ≡ₚ pending s →
  Forall (λ x, x ≠ ObjSim) (ready_queue (sched s')) →
  Forall (λ e, type e = ARRIVAL) (queue (events s')) →
  (c = SPN_Scheduler → ∀ p, starts p (trace s') = starts p (trace s)) →
  run_inv c h0 s'.
Proof.
  intros [H0 H1 H2 H3 H4 H5 H6 H7] Hh Hc Hp Hr He Ht.
  split; rewrite ?Hh, ?Hc; try done.
  - by rewrite Hp.
  - intros p. rewrite Hp. apply H5.
  - intros HS p. rewrite Hp, (Ht HS). by apply H6.
  - intros HS p o Ho. rewrite Hp, (Ht HS). by apply H7.
Qed.

Lemma measure_events_length (s : Sim) :
  (4 * length (queue (events s)) ≤ measure s)%nat.
Proof. unfold measure. lia. Qed.

(** *** The sort of the ready queue *)

Lemma mapM_SPN_key_ok heap (l : list pyobj) :
  Forall (λ x, ∃ k, SPN_key heap x = Ok k) l →
  ∃ ks, mapM (SPN_key heap) l = Ok ks ∧ length ks = length l.
Proof.
  induction 1 as [|x l [k Hk] _ (ks & IH & Hlen)]; [by exists []|].
  exists (k :: ks). simpl. rewrite Hk. simpl. rewrite IH. simpl.
  by rewrite Hlen.
Qed.

Lemma sort_by_key_ok heap (l : list pyobj) :
  Forall (λ x, ∃ k, SPN_key heap x = Ok k) l →
  ∃ l', sort_by_key heap l = Ok l' ∧ l' ≡ₚ l.
Proof.
  intros (ks & E & Hlen)%mapM_SPN_key_ok. unfold sort_by_key. rewrite E. simpl.
  eexists. split; [done|].
  rewrite list_sort_Permutation. by rewrite snd_zip by lia.
Qed.

Lemma SPN_add_to_ready_queue_run (s : Sim) (y : pyobj) :
  Forall (λ x, ∃ k, SPN_key (heap s) x = Ok k) (ready_queue (sched s) ++ [y]) →
  ∃ rq', SPN_Scheduler_add_to_ready_queue y s = Ok ((), set_ready_queue rq' s) ∧
         rq' ≡ₚ ready_queue (sched s) ++ [y].
Proof.
  intros (rq' & E & HP)%sort_by_key_ok. exists rq'. split; [|done].
  unfold SPN_Scheduler_add_to_ready_queue. repeat run_step. simpl.
  rewrite E. run_step. by destruct s.
Qed.

(** *** The callbacks keep the invariant *)

Section callbacks.
Context (h0 : list Process).
Context (Hbursts : Forall (λ o, activities o ≠ []) h0).

Lemma pending_burst c (s : Sim) p :
  run_inv c h0 s → p ∈ pending s →
  ∃ o a acts, h0 !! p = Some o ∧ heap s !! p = Some o ∧ deref (heap s) p = o ∧
              activities o = a :: acts.
Proof.
  intros Hinv Hp. destruct (inv_pending _ _ _ Hinv p Hp) as [Hh [o Ho]].
  rewrite Ho in Hh. rewrite Forall_lookup in Hbursts.
  pose proof (Hbursts _ _ Ho) as Hne.
  destruct (activities o) as [|a acts] eqn:E; [done|].
  exists o, a, acts. split_and!; try done. by apply deref_lookup.
Qed.

Lemma ready_queue_keys c (s : Sim) :
  run_inv c h0 s →
  Forall (λ x, ∃ k, SPN_key (heap s) x = Ok k) (ready_queue (sched s)).
Proof.
  intros Hinv. pose proof (inv_ready _ _ _ Hinv) as Hr.
  apply Forall_forall. intros [|p] Hx.
  - rewrite Forall_forall in Hr. by destruct (Hr _ Hx).
  - destruct (pending_burst c s p Hinv) as (o & a & acts & _ & _ & Hd & Ha).
    { apply elem_of_app. right. by apply ready_refs_elem_of. }
    exists a. simpl. by rewrite Hd, Ha.
Qed.

Lemma SPN_start_next_process_run (s : Sim) :
  run_inv SPN_Scheduler h0 s →
  ready_queue (sched s) ≠ [] →
  runningTime s = None →
  returns SPN_Scheduler_start_next_process s (λ _ s',
    run_inv SPN_Scheduler h0 s' ∧ events s' = events s ∧
    (measure s' + 1 = measure s)%nat ∧ is_Some (runningTime s')).
Proof.
  intros Hinv Hrq Hrt.
  destruct (ready_queue (sched s)) as [|x rest] eqn:Erq; [done|]. clear Hrq.
  pose proof (inv_ready _ _ _ Hinv) as Hr. rewrite Erq in Hr.
  apply Forall_cons in Hr as [Hx Hrest]. destruct x as [|p]; [done|].
  assert (pending s = (process <$> queue (events s)) ++ p :: ready_refs rest)
    as Epend by (unfold pending; by rewrite Erq).
  assert (p ∈ pending s) as Hp.
  { rewrite Epend. apply elem_of_app. right. by left. }
  destruct (pending_burst _ s p Hinv Hp) as (o & a & acts & Ho & Hh & Hd & Ha).
  pose proof (inv_nodup _ _ _ Hinv) as Hnd. rewrite Epend in Hnd.
  apply NoDup_app in Hnd as (Hnd1 & Hnd2 & [Hp3 Hnd3]%NoDup_cons).
  eapply returns_eq.
  { unfold SPN_Scheduler_start_next_process. rewrite bind_gets, Erq.
    rewrite bind_modify. unfold as_process. rewrite bind_ret, bind_gets.
    simpl. rewrite Hd, Ha. repeat run_step. reflexivity. }
  split_and!; [|done|unfold measure; simpl; rewrite Erq, Hrt; simpl; lia|done].
  assert (∀ q, q ∈ (process <$> queue (events s)) ++ ready_refs rest →
               q ≠ p ∧ q ∈ pending s) as Hother.
  { intros q Hq. split.
    - intros ->. apply elem_of_app in Hq as [Hq|Hq]; [|done].
      apply (Hnd2 _ Hq). by left.
    - rewrite Epend. apply elem_of_app in Hq as [Hq|Hq]; apply elem_of_app;
        [by left|right; by right]. }
  split; simpl.
  - apply (inv_class _ _ _ Hinv).
  - rewrite length_insert. apply (inv_length _ _ _ Hinv).
  - done.
  - apply (inv_arrivals _ _ _ Hinv).
  - unfold pending. simpl. apply NoDup_app. split_and!; [done| |done].
    intros q Hq Hq'. apply (Hnd2 q Hq). by right.
  - intros q Hq. destruct (Hother q Hq) as [Hne Hq'].
    rewrite list_lookup_insert_ne by done.
    by apply (inv_pending _ _ _ Hinv).
  - intros _ q Hq. destruct (Hother q Hq) as [Hne Hq'].
    rewrite starts_snoc. destruct (decide (p = q)); [done|].
    rewrite (right_id_L [] (++)). by apply (inv_fresh _ _ _ Hinv).
  - intros _ q o' Ho' Hq. unfold pending in Hq. simpl in Hq.
    rewrite starts_snoc. destruct (decide (p = q)) as [<-|Hne].
    + rewrite Ho in Ho'. injection Ho' as <-. exists a, acts.
      split_and!; [done| |].
      * apply list_lookup_insert_eq. by apply lookup_lt_Some in Hh.
      * by rewrite (inv_fresh _ _ _ Hinv eq_refl p Hp).
    + rewrite (right_id_L [] (++)), list_lookup_insert_ne by done.
      apply (inv_started _ _ _ Hinv eq_refl q o' Ho').
      rewrite Epend. intros [Hq'|[->|Hq']%elem_of_cons]%elem_of_app;
        [|done|]; apply Hq, elem_of_app; eauto.
Qed.
Lemma run_inv_FCFS_shrink (s s' : Sim) :
  run_inv FCFS_Scheduler h0 s →
  heap s' = heap s →
  sched_class (sched s') = sched_class (sched s) →
  NoDup (pending s') →
  (∀ p, p ∈ pending s' → p ∈ pending s) →
  Forall (λ x, x ≠ ObjSim) (ready_queue (sched s')) →
  Forall (λ e, type e = ARRIVAL) (queue (events s')) →
  run_inv FCFS_Scheduler h0 s'.
Proof.
  intros [H0 H1 H2 H3 H4 H5 H6 H7] Hh Hc Hnd Hp Hr He.
  split; rewrite ?Hh, ?Hc; try done.
  intros p Hin. by apply H5, Hp.
Qed.

Lemma FCFS_idle_run (s : Sim) :
  run_inv FCFS_Scheduler h0 s →
  runningTime s = None →
  returns FCFS_Scheduler_idle s (λ _ s',
    run_inv FCFS_Scheduler h0 s' ∧ events s' = events s ∧
    (measure s' ≤ measure s)%nat ∧
    (runningTime s' = None → ready_queue (sched s') = [])).
Proof.
  intros Hinv Hrt. unfold FCFS_Scheduler_idle.
  destruct (ready_queue (sched s)) as [|x rest] eqn:Erq.
  { eapply returns_eq; [by rewrite bind_gets, Erq|]. done. }
  pose proof (inv_ready _ _ _ Hinv) as Hr. rewrite Erq in Hr.
  apply Forall_cons in Hr as [Hx Hrest]. destruct x as [|p]; [done|].
  assert (pending s = (process <$> queue (events s)) ++ p :: ready_refs rest)
    as Epend by (unfold pending; by rewrite Erq).
  destruct (pending_burst _ s p Hinv) as (o & a & acts & Ho & Hh & Hd & Ha).
  { rewrite Epend. apply elem_of_app. right. by left. }
  pose proof (inv_nodup _ _ _ Hinv) as Hnd. rewrite Epend in Hnd.
  apply NoDup_app in Hnd as (Hnd1 & Hnd2 & [Hp3 Hnd3]%NoDup_cons).
  eapply returns_eq.
  { rewrite bind_gets, Erq, bind_modify. unfold as_process.
    rewrite bind_ret, bind_gets. simpl. rewrite Hd, Ha.
    repeat run_step. reflexivity. }
  split_and!; [|done|unfold measure; simpl; rewrite Erq, Hrt; simpl; lia|done].
  eapply run_inv_FCFS_shrink; [exact Hinv|done|done| | |done|].
  - unfold pending. simpl. apply NoDup_app. split_and!; [done| |done].
    intros q Hq Hq'. apply (Hnd2 q Hq). by right.
  - intros q. rewrite Epend. unfold pending. simpl.
    rewrite !elem_of_app, elem_of_cons. tauto.
  - apply (inv_arrivals _ _ _ Hinv).
Qed.

Lemma SPN_idle_run (s : Sim) :
  run_inv SPN_Scheduler h0 s →
  runningTime s = None →
  returns SPN_Scheduler_idle s (λ _ s',
    run_inv SPN_Scheduler h0 s' ∧ events s' = events s ∧
    (measure s' ≤ measure s)%nat ∧
    (runningTime s' = None → ready_queue (sched s') = [])).
Proof.
  intros Hinv Hrt. unfold SPN_Scheduler_idle.
  destruct (ready_queue (sched s)) as [|x rest] eqn:Erq.
  { eapply returns_eq; [by rewrite bind_gets, Erq|]. done. }
  destruct (SPN_start_next_process_run s Hinv) as ([] & s' & E & H1 & H2 & H3 & H4);
    [by rewrite Erq|done|].
  eapply returns_eq; [by rewrite bind_gets, Erq|].
  split_and!; [done|done|lia|]. intros Hn. rewrite Hn in H4. by destruct H4.
Qed.

Lemma sched_idle_run c (s : Sim) :
  run_inv c h0 s →
  runningTime s = None →
  returns sched_idle s (λ _ s',
    run_inv c h0 s' ∧ events s' = events s ∧
    (measure s' ≤ measure s)%nat ∧
    (runningTime s' = None → ready_queue (sched s') = [])).
Proof.
  intros Hinv Hrt. unfold returns, sched_idle.
  rewrite (inv_class _ _ _ Hinv). destruct c.
  - by apply FCFS_idle_run.
  - by apply SPN_idle_run.
Qed.
Lemma events_pop_run (s : Sim) :
  queue (events s) ≠ [] →
  ∃ e q', events_pop s = Ok (e, set_events q' s) ∧
          queue (events s) ≡ₚ e :: queue q'.
Proof.
  intros Hq. destruct (prepared_snoc (heap s) _ Hq) as (e & rest & E).
  exists e, (mkEventQueue rest false). split.
  - unfold events_pop. by rewrite (EventQueue_pop_nonempty _ _ _ _ E).
  - simpl. rewrite <-(prepared_Permutation (heap s)), E.
    by rewrite Permutation_app_comm.
Qed.

Lemma events_peek_run (s : Sim) :
  queue (events s) ≠ [] →
  ∃ e q', EventQueue_peek (heap s) (events s) = Ok (e, q') ∧
          events_peek s = Ok (e, set_events q' s) ∧
          queue q' ≡ₚ queue (events s).
Proof.
  intros Hq. destruct (prepared_snoc (heap s) _ Hq) as (e & rest & E).
  exists e, (mkEventQueue (rest ++ [e]) false).
  pose proof (EventQueue_peek_nonempty _ _ _ _ E) as Hp. split_and!; [done| |].
  - unfold events_peek. by rewrite Hp.
  - simpl. by rewrite <-(prepared_Permutation (heap s)), E.
Qed.

Lemma returns_bind_assoc {A B C} (m : M Sim A) (f : A → M Sim B)
    (g : B → M Sim C) s Q :
  returns ((m ≫= f) ≫= g) s Q → returns (m ≫= λ a, f a ≫= g) s Q.
Proof. unfold returns. by rewrite bind_assoc. Qed.

Lemma bind_gets' {A B} (g : Sim → A) (f : A → M Sim B) s Q :
  returns (gets g ≫= f) s Q ↔ returns (f (g s)) s Q.
Proof. done. Qed.

Lemma bind_modify' {B} (g : Sim → Sim) (f : unit → M Sim B) s Q :
  returns (modify g ≫= f) s Q ↔ returns (f ()) (g s) Q.
Proof. done. Qed.

Lemma bind_ret' {A B} (a : A) (f : A → M Sim B) s Q :
  returns (mret a ≫= f) s Q ↔ returns (f a) s Q.
Proof. done. Qed.

Lemma returns_bind_eq {A B} (m : M Sim A) (f : A → M Sim B) s a s' Q :
  m s = Ok (a, s') → returns (f a) s' Q → returns (m ≫= f) s Q.
Proof. intros E H. apply returns_bind. by eapply returns_eq. Qed.

(** An arrival is taken from the queue and dispatched. *)
Lemma pop_dispatch_run c (s : Sim) :
  run_inv c h0 s →
  queue (events s) ≠ [] →
  returns (e ← events_pop; Sim_processEvent e) s (λ _ s',
    run_inv c h0 s' ∧ (measure s' < measure s)%nat ∧
    (length (queue (events s')) < length (queue (events s)))%nat).
Proof.
  intros Hinv Hq. destruct (events_pop_run s Hq) as (e & q' & Epop & HP).
  eapply returns_bind_eq; [exact Epop|].
  assert (type e = ARRIVAL) as Hty.
  { pose proof (inv_arrivals _ _ _ Hinv) as Ha. rewrite HP in Ha.
    by apply Forall_cons in Ha as [? _]. }
  assert (Forall (λ e, type e = ARRIVAL) (queue q')) as Harr.
  { pose proof (inv_arrivals _ _ _ Hinv) as Ha. rewrite HP in Ha.
    by apply Forall_cons in Ha as [_ ?]. }
  assert (length (queue (events s)) = S (length (queue q'))) as Hlen
    by by rewrite HP.
  set (p := process e).
  assert (pending s ≡ₚ p :: (process <$> queue q') ++
                         ready_refs (ready_queue (sched s))) as Hpend.
  { unfold pending. by rewrite HP. }
  destruct (pending_burst _ s p Hinv) as (o & a & acts & Ho & Hh & Hd & Ha).
  { rewrite Hpend. by left. }
  pose proof (inv_ready _ _ _ Hinv) as Hr.
  unfold returns, Sim_processEvent. rewrite bind_log, Hty. simpl.
  unfold sched_arrive. simpl. rewrite (inv_class _ _ _ Hinv). destruct c.
  - (* FCFS *)
    unfold FCFS_Scheduler_arrive. rewrite bind_modify, bind_gets. simpl.
    set (sa := set_ready_queue _ _).
    assert (run_inv FCFS_Scheduler h0 sa) as Hsa.
    { eapply run_inv_transfer; [exact Hinv|done|done| | |done|done].
      - unfold pending. simpl. rewrite Hpend, ready_refs_app. simpl.
        rewrite (assoc_L (++)). by rewrite <-Permutation_cons_append.
      - apply Forall_app. split; [done|]. by repeat constructor. }
    case_bool_decide as Hone.
    + rewrite bind_gets. simpl. fold p. rewrite Hd, Ha. repeat run_step.
      eexists _, _. split; [reflexivity|]. split_and!.
      * eapply run_inv_transfer;
          [exact Hsa|done|done|done|apply (inv_ready _ _ _ Hsa)
          |apply (inv_arrivals _ _ _ Hsa)|discriminate].
      * unfold measure. simpl. rewrite length_app, Hlen. simpl.
        destruct (runningTime s); lia.
      * simpl. lia.
    + eexists _, _. split; [reflexivity|]. split_and!; [done| |].
      * unfold measure. simpl. rewrite length_app, Hlen. simpl.
        destruct (runningTime s); lia.
      * simpl. lia.
  - (* SPN *)
    unfold SPN_Scheduler_arrive. set (sm := set_trace _ _).
    destruct (SPN_add_to_ready_queue_run sm (ObjProcess p)) as (rq' & Eadd & HPrq).
    { apply Forall_app. split; [by eapply (ready_queue_keys _ s)|].
      repeat constructor. exists a. simpl. by rewrite Hd, Ha. }
    simpl in HPrq. fold p. rewrite bind_eq, Eadd. set (sa := set_ready_queue _ _).
    assert (run_inv SPN_Scheduler h0 sa) as Hsa.
    { eapply run_inv_transfer; [exact Hinv|done|done| | |done|].
      - unfold pending. simpl. rewrite HPrq, Hpend, ready_refs_app. simpl.
        rewrite (assoc_L (++)). by rewrite <-Permutation_cons_append.
      - simpl. rewrite HPrq. apply Forall_app. split; [done|].
        by repeat constructor.
      - intros _ q. simpl. rewrite starts_snoc. simpl.
        by rewrite (right_id_L [] (++)). }
    assert (length rq' = S (length (ready_queue (sched s)))) as Hlrq.
    { rewrite HPrq, length_app. simpl. lia. }
    rewrite bind_gets. simpl. destruct (runningTime s) eqn:Hrt.
    + eexists _, _. split; [reflexivity|]. split_and!; [done| |].
      * unfold measure. simpl. rewrite Hlrq, Hlen, Hrt. lia.
      * simpl. lia.
    + destruct (SPN_start_next_process_run sa Hsa)
        as ([] & s' & E & H1 & H2 & H3 & H4); [|done|].
      { simpl. intros Hnil. rewrite Hnil in Hlrq. done. }
      eexists _, _. split; [exact E|]. split_and!; [done| |].
      * assert (measure sa + 2 = measure s)%nat; [|lia].
        unfold measure. simpl. rewrite Hlrq, Hlen, Hrt. lia.
      * rewrite H2. simpl. lia.
Qed.
(** *** The loops keep the invariant and come to an end *)

Lemma run_inv_set_events c (s : Sim) q :
  run_inv c h0 s → queue q ≡ₚ queue (events s) →
  run_inv c h0 (set_events q s) ∧ measure (set_events q s) = measure s.
Proof.
  intros Hinv HP. split.
  - eapply run_inv_transfer; [exact Hinv|done|done| |apply (inv_ready _ _ _ Hinv)| |done].
    + unfold pending. simpl. by rewrite HP.
    + simpl. rewrite HP. apply (inv_arrivals _ _ _ Hinv).
  - unfold measure. simpl. by rewrite HP.
Qed.

Lemma Sim_getTimeForward_run c (s : Sim) :
  run_inv c h0 s →
  returns Sim_getTimeForward s (λ move s',
    run_inv c h0 s' ∧ measure s' = measure s ∧
    runningTime s' = runningTime s ∧
    ready_queue (sched s') = ready_queue (sched s) ∧
    length (queue (events s')) = length (queue (events s)) ∧
    (queue (events s) = [] → move = runningTime s) ∧
    (queue (events s) ≠ [] → is_Some move)).
Proof.
  intros Hinv. destruct (decide (queue (events s) = [])) as [Hq|Hq].
  - eapply returns_eq; [by apply Sim_getTimeForward_no_events|]. done.
  - destruct (events_peek_run s Hq) as (e & q' & Hp & _ & HP).
    eapply returns_eq; [by apply Sim_getTimeForward_events|].
    destruct (run_inv_set_events c s q' Hinv HP) as [? ?].
    split_and!; try done. simpl. by rewrite HP.
Qed.

Lemma Sim_run_drain_run c fuel : ∀ s : Sim,
  run_inv c h0 s →
  (length (queue (events s)) < fuel)%nat →
  returns (Sim_run_drain fuel) s (λ _ s',
    run_inv c h0 s' ∧ (measure s' ≤ measure s)%nat ∧
    (length (queue (events s')) ≤ length (queue (events s)))%nat).
Proof.
  induction fuel as [|fuel IH]; intros s Hinv Hlen; [lia|]. simpl.
  destruct (decide (queue (events s) = [])) as [Hq|Hq].
  { eapply returns_bind_eq; [by apply Sim_run_due_no_events|].
    by eapply returns_eq. }
  destruct (events_peek_run s Hq) as (e & q' & Hp & _ & HP).
  eapply returns_bind_eq; [by apply Sim_run_due_events|].
  destruct (run_inv_set_events c s q' Hinv HP) as [Hinv1 Hm1].
  assert (length (queue q') = length (queue (events s))) as Hl1 by by rewrite HP.
  destruct (time e =? clock s).
  - apply returns_bind_assoc, returns_bind.
    eapply returns_mono; [apply (pop_dispatch_run c _ Hinv1)|].
    { simpl. intros Hnil. rewrite Hnil in Hl1. by destruct (queue (events s)). }
    simpl. intros [] s2 (Hinv2 & Hm2 & Hl2).
    eapply returns_mono; [apply (IH s2 Hinv2); simpl in Hl2; lia|].
    simpl. intros [] s3 (Hinv3 & Hm3 & Hl3). split_and!; [done|lia|].
    simpl in Hl2. lia.
  - eapply returns_eq; [done|]. split_and!; [done|lia|simpl; lia].
Qed.
Lemma length_zero_iff_nil' {A} (l l' : list A) :
  length l = length l' → l = [] ↔ l' = [].
Proof. destruct l, l'; naive_solver. Qed.

Lemma Sim_run_body_end_run c fuel (s : Sim) :
  run_inv c h0 s →
  (length (queue (events s)) < fuel)%nat →
  returns (Sim_run_drain fuel;;
           rt ← gets runningTime;
           match rt with
           | None => sched_idle
           | Some _ => mret ()
           end;;
           Sim_getTimeForward) s (λ move' s',
    at_head c h0 move' s' ∧ (measure s' ≤ measure s)%nat ∧
    (length (queue (events s')) ≤ length (queue (events s)))%nat).
Proof.
  intros Hinv Hlen. apply returns_bind.
  eapply returns_mono; [by apply (Sim_run_drain_run c fuel s)|].
  simpl. intros [] s1 (Hinv1 & Hm1 & Hl1). rewrite bind_gets'.
  assert (returns (match runningTime s1 with
                   | None => sched_idle
                   | Some _ => mret ()
                   end) s1 (λ _ s2,
            run_inv c h0 s2 ∧ events s2 = events s1 ∧
            (measure s2 ≤ measure s1)%nat ∧
            (runningTime s2 = None → ready_queue (sched s2) = []))) as Hidle.
  { destruct (runningTime s1) eqn:Hrt; [|by apply sched_idle_run].
    eapply returns_eq; [done|]. split_and!; try done. by rewrite Hrt. }
  apply returns_bind. eapply returns_mono; [exact Hidle|].
  simpl. intros [] s2 (Hinv2 & He2 & Hm2 & Hrq2).
  eapply returns_mono; [by apply (Sim_getTimeForward_run c s2)|].
  simpl. intros move' s3 (Hinv3 & Hm3 & Hrt3 & Hrq3 & Hl3 & Hnil & Hcons).
  pose proof (length_zero_iff_nil' _ _ Hl3) as Hiff.
  split_and!; [split_and!|lia|rewrite Hl3, He2; lia].
  - done.
  - rewrite Hrt3. intros ?. apply Hnil. by apply Hiff.
  - intros ?. apply Hcons. by rewrite <-Hiff.
  - rewrite Hrt3, Hrq3. done.
Qed.

Lemma Sim_run_body_run c fuel (s : Sim) (move : Z) :
  at_head c h0 (Some move) s →
  (length (queue (events s)) < fuel)%nat →
  returns (Sim_run_body fuel move) s (λ move' s',
    at_head c h0 move' s' ∧ (measure s' < measure s)%nat ∧
    (length (queue (events s')) ≤ length (queue (events s)))%nat).
Proof.
  intros (Hinv & Hnil & _ & _) Hlen. unfold Sim_run_body.
  assert (∀ s1 : Sim,
    run_inv c h0 s1 → (measure s1 < measure s)%nat →
    (length (queue (events s1)) ≤ length (queue (events s)))%nat →
    returns (Sim_run_drain fuel;;
             rt ← gets runningTime;
             match rt with
             | None => sched_idle
             | Some _ => mret ()
             end;;
             Sim_getTimeForward) s1 (λ move' s',
      at_head c h0 move' s' ∧ (measure s' < measure s)%nat ∧
      (length (queue (events s')) ≤ length (queue (events s)))%nat)) as Hend.
  { intros s1 Hinv1 Hm1 Hl1.
    eapply returns_mono; [apply (Sim_run_body_end_run c fuel s1 Hinv1); lia|].
    simpl. intros move' s' (? & ? & ?). split_and!; [done|lia..]. }
  assert (∀ sb : Sim,
    run_inv c h0 sb → measure sb = measure s → queue (events sb) ≠ [] →
    length (queue (events sb)) = length (queue (events s)) →
    returns (e ← events_peek;
             modify (set_clock (time e));;
             e' ← events_pop;
             Sim_processEvent e') sb (λ _ s1,
      run_inv c h0 s1 ∧ (measure s1 < measure s)%nat ∧
      (length (queue (events s1)) ≤ length (queue (events s)))%nat)) as Hnext.
  { intros sb Hinvb Hmb Hqb Hlb.
    destruct (events_peek_run sb Hqb) as (e & q' & _ & Hp & HP).
    eapply returns_bind_eq; [exact Hp|]. rewrite bind_modify'.
    destruct (run_inv_set_events c sb q' Hinvb HP) as [Hinv1 Hm1].
    eapply returns_mono; [apply (pop_dispatch_run c (set_clock (time e) (set_events q' sb)))|].
    - eapply run_inv_transfer; [exact Hinv1|done|done|done
        |apply (inv_ready _ _ _ Hinv1)|apply (inv_arrivals _ _ _ Hinv1)|done].
    - simpl. intros Hq'. rewrite Hq' in HP. symmetry in HP.
      by apply Permutation_nil_r in HP.
    - simpl. intros [] s1 (? & Hm & Hl). split_and!; [done| |].
      + assert (measure (set_clock (time e) (set_events q' sb))
                = measure (set_events q' sb)) by done. lia.
      + rewrite HP in Hl. lia. }
  destruct (runningTime s) as [r|] eqn:Hrt; [destruct (Z.le_gt_cases r move)|].
  - (* the running burst ends first *)
    destruct (Sim_handleTimeDone_elapsed s move r Hrt) as [_ Hdone]; [done|].
    eapply returns_bind_eq; [exact Hdone|]. simpl.
    set (s2 := set_trace _ _).
    assert (run_inv c h0 s2) as Hinv2.
    { eapply run_inv_transfer; [exact Hinv|done|done|done
        |apply (inv_ready _ _ _ Hinv)|apply (inv_arrivals _ _ _ Hinv)|].
      intros _ p. simpl. rewrite starts_snoc. by rewrite (right_id_L [] (++)). }
    assert (measure s2 + 1 = measure s)%nat as Hm2.
    { unfold measure. simpl. rewrite Hrt. lia. }
    apply returns_bind. apply returns_bind.
    eapply returns_mono; [by apply (Sim_getTimeForward_run c s2)|].
    simpl. intros move' s3 (Hinv3 & Hm3 & Hrt3 & Hrq3 & Hl3 & _).
    destruct fuel as [|fuel]; [lia|].
    eapply returns_eq; [by apply Sim_run_settle_idle|].
    apply Hend; [done|lia|]. rewrite Hl3. simpl. lia.
  - (* an event is due first, the burst goes on *)
    eapply returns_bind_eq; [by apply (Sim_handleTimeDone_running s move r)|].
    simpl. apply returns_bind. rewrite bind_gets', Hrt, bind_modify'.
    eapply returns_mono; [apply Hnext|].
    + eapply run_inv_transfer; [exact Hinv|done|done|done
        |apply (inv_ready _ _ _ Hinv)|apply (inv_arrivals _ _ _ Hinv)|done].
    + unfold measure. simpl. by rewrite Hrt.
    + simpl. intros Hq. specialize (Hnil Hq). injection Hnil as ->. lia.
    + done.
    + simpl. intros [] s1 (? & ? & ?). by apply Hend.
  - (* the CPU is idle, an event is due *)
    eapply returns_bind_eq; [by apply Sim_handleTimeDone_idle|].
    simpl. apply returns_bind. rewrite bind_gets', Hrt, bind_ret'.
    eapply returns_mono; [apply Hnext|].
    + done.
    + done.
    + intros Hq. by specialize (Hnil Hq).
    + done.
    + simpl. intros [] s1 (? & ? & ?). by apply Hend.
Qed.
Lemma Sim_run_loop_run c fuel n : ∀ (s : Sim) (move : option Z),
  at_head c h0 move s →
  (measure s < n)%nat →
  (length (queue (events s)) < fuel)%nat →
  returns (Sim_run_loop fuel n move) s (λ _ s', at_head c h0 None s').
Proof.
  induction n as [|n IH]; intros s move Hhead Hm Hlen; [lia|].
  destruct move as [mv|]; [|by eapply returns_eq].
  simpl. apply returns_bind.
  eapply returns_mono; [by apply (Sim_run_body_run c fuel s mv)|].
  simpl. intros move' s' (Hhead' & Hm' & Hl'). apply IH; [done|lia..].
Qed.

Lemma at_head_None c (s : Sim) :
  at_head c h0 None s →
  queue (events s) = [] ∧ runningTime s = None ∧ ready_queue (sched s) = [] ∧
  pending s = [].
Proof.
  intros (Hinv & Hnil & Hcons & Hrq).
  assert (queue (events s) = []) as Hq.
  { destruct (decide (queue (events s) = [])) as [|Hq]; [done|].
    by destruct (Hcons Hq). }
  assert (runningTime s = None) as Hrt by (symmetry; auto).
  split_and!; [done|done|auto|]. unfold pending. by rewrite Hq, (Hrq Hrt).
Qed.
End callbacks.

(** *** The start of a run *)

Lemma Sim_addArrival_all (ps : list ref) : ∀ s : Sim,
  ∃ l d, mapM Sim_addArrival ps s =
         Ok (l, set_events
                  (mkEventQueue
                     (queue (events s) ++
                      ((λ p, mkEvent ARRIVAL p (arrive (deref (heap s) p))) <$> ps))
                     d) s).
Proof.
  induction ps as [|p ps IH]; intros s.
  - exists [], (dirty (events s)). simpl. rewrite (right_id_L [] (++)).
    by destruct s as [? ? ? [] ? ? ?].
  - set (s1 := set_events (EventQueue_push
                 (mkEvent ARRIVAL p (arrive (deref (heap s) p))) (events s)) s).
    destruct (IH s1) as (l & d & E). exists (() :: l), d.
    change (mapM Sim_addArrival (p :: ps))
      with (y ← Sim_addArrival p; k ← mapM Sim_addArrival ps; mret (y :: k)).
    rewrite bind_eq. change (Sim_addArrival p s) with (Ok ((), s1)).
    cbv beta iota. rewrite bind_eq, E. simpl. by rewrite <-(assoc_L (++)).
Qed.

Lemma sched_initialize_run c (h0 : list Process) :
  returns sched_initialize
    (Sim_init h0 (all_refs h0) (Scheduler_init c (all_refs h0))) (λ _ s,
      run_inv c h0 s ∧ runningTime s = None ∧ ready_queue (sched s) = [] ∧
      length (queue (events s)) = length h0).
Proof.
  set (s0 := Sim_init _ _ _).
  destruct (Sim_addArrival_all (all_refs h0) s0) as (l & d & E).
  set (mk := λ p, mkEvent ARRIVAL p (arrive (deref (heap s0) p))) in E.
  assert (process <$> (mk <$> all_refs h0) = all_refs h0) as Hrefs.
  { rewrite <-list_fmap_compose. apply list_fmap_id. }
  eapply returns_eq.
  { unfold sched_initialize. simpl.
    unfold FCFS_Scheduler_initialize, SPN_Scheduler_initialize.
    destruct c; rewrite bind_gets; simpl; fold s0;
      rewrite bind_eq, E; reflexivity. }
  split_and!;
    [|done|done|simpl; unfold all_refs; by rewrite length_fmap, length_seq].
  split; simpl; try done.
  - apply Forall_fmap, Forall_true. done.
  - unfold pending. simpl. rewrite (right_id_L [] (++)), Hrefs. apply NoDup_seq.
  - unfold pending. simpl. intros p. rewrite (right_id_L [] (++)), Hrefs.
    unfold all_refs. intros [_ Hp]%elem_of_seq. split; [done|].
    apply lookup_lt_is_Some. lia.
  - unfold pending. simpl. intros _ p o Ho.
    rewrite (right_id_L [] (++)), Hrefs. unfold all_refs. rewrite elem_of_seq.
    apply lookup_lt_Some in Ho. lia.
Qed.

(** A run on a workload whose processes all have a burst returns, and it
    returns with nothing queued, nothing running and nothing ready. *)
Lemma simulate_run c (h0 : list Process) (fuel : nat) :
  Forall (λ o, activities o ≠ []) h0 →
  (4 * length h0 < fuel)%nat →
  ∃ s', simulate c h0 fuel = Ok ((), s') ∧ at_head c h0 None s'.
Proof.
  intros Hb Hfuel.
  cut (returns (Sim_run fuel)
         (Sim_init h0 (all_refs h0) (Scheduler_init c (all_refs h0)))
         (λ _ s', at_head c h0 None s')).
  { intros ([] & s' & ? & ?). by exists s'. }
  unfold Sim_run. apply returns_bind.
  eapply returns_mono; [apply sched_initialize_run|].
  simpl. intros [] s1 (Hinv1 & Hrt1 & Hrq1 & Hl1).
  apply returns_bind.
  eapply returns_mono; [by eapply Sim_getTimeForward_run|].
  simpl. intros move s2 (Hinv2 & Hm2 & Hrt2 & Hrq2 & Hl2 & Hnil & Hcons).
  pose proof (length_zero_iff_nil' _ _ Hl2) as Hiff.
  eapply Sim_run_loop_run; [done| | |].
  - split_and!; [done| | |by rewrite Hrq2].
    + rewrite Hrt2. intros ?. apply Hnil. by apply Hiff.
    + intros ?. apply Hcons. by rewrite <-Hiff.
  - rewrite Hm2. unfold measure. rewrite Hl1, Hrt1, Hrq1. simpl. lia.
  - lia.
Qed.

Lemma well_formed_bursts (h0 : list Process) :
  well_formed h0 → Forall (λ o, activities o ≠ []) h0.
Proof. intros H. eapply Forall_impl; [exact H|]. simpl. tauto. Qed.

(** ** Termination *)

(** C9. On every well-formed workload (each process with a non-negative
    arrival time and a non-empty sequence of positive bursts) [Sim.run]
    returns, under FCFS and under SPN, as soon as its loops are allowed
    more than four turns per process, and it returns in a state where
    [getTimeForward] is [None]. *)
Theorem Sim_run_terminates (c : SchedulerClass) (h0 : list Process) (fuel : nat) :
  well_formed h0 →
  (4 * length h0 < fuel)%nat →
  ∃ s', simulate c h0 fuel = Ok ((), s') ∧
        Sim_getTimeForward s' = Ok (None, s').
Proof.
  intros Hwf Hfuel.
  destruct (simulate_run c h0 fuel (well_formed_bursts _ Hwf) Hfuel)
    as (s' & Hrun & Hhead).
  exists s'. split; [done|].
  destruct (at_head_None _ _ _ Hhead) as (Hq & Hrt & _).
  by rewrite Sim_getTimeForward_no_events, Hrt.
Qed.

Lemma Sim_run_terminates_witness :
  let h0 := [mkProcess 0 0 [5; 2; 4]; mkProcess 1 2 [3]; mkProcess 2 2 [1; 1]] in
  (∃ s', simulate FCFS_Scheduler h0 13 = Ok ((), s') ∧
         Sim_getTimeForward s' = Ok (None, s')) ∧
  (∃ s', simulate SPN_Scheduler h0 13 = Ok ((), s') ∧
         Sim_getTimeForward s' = Ok (None, s')).
Proof.
  intros h0.
  assert (well_formed h0) as Hwf.
  { unfold well_formed, h0. repeat constructor; simpl; (lia || discriminate). }
  split; apply Sim_run_terminates; try exact Hwf; simpl; lia.
Defined.

(** ** Conservation of bursts *)

(** C5, as stated, fails: under SPN the process [{arrive 0, bursts [3; 2]}]
    is started once, with its burst of 3; its burst of 2 is never put on
    the CPU, so the bursts consumed sum to 3 and not to 5.  (Under FCFS the
    same process is started twice with the burst of 3, which no start
    removes from its bursts.) *)
Lemma conservation_counterexample :
  let h0 := [mkProcess 0 0 [3; 2]] in
  well_formed h0 ∧
  ¬ (∀ s', simulate SPN_Scheduler h0 10 = Ok ((), s') →
           total (starts 0%nat (trace s')) = total [3; 2]) ∧
  (∃ s', simulate FCFS_Scheduler h0 10 = Ok ((), s') ∧
         starts 0%nat (trace s') = [3; 3] ∧ heap s' = h0).
Proof.
  intros h0. split_and!.
  - unfold well_formed, h0. repeat constructor; simpl; (lia || discriminate).
  - intros H.
    assert (∃ s', simulate SPN_Scheduler h0 10 = Ok ((), s') ∧
                  starts 0%nat (trace s') = [3]) as (s' & E & Hs).
    { vm_compute. eexists. split; reflexivity. }
    specialize (H s' E). rewrite Hs in H. discriminate H.
  - vm_compute. eexists. split_and!; reflexivity.
Qed.

(** What a start does under SPN. *)
Lemma SPN_start_next_process_front (s : Sim) p rest o a acts :
  ready_queue (sched s) = ObjProcess p :: rest →
  heap s !! p = Some o →
  activities o = a :: acts →
  SPN_Scheduler_start_next_process s =
    Ok ((), set_trace (trace s ++ [Started p (clock s) a])
              (set_runningTime (Some a)
                 (set_heap (<[p := mkProcess (pid o) (arrive o) acts]> (heap s))
                    (set_ready_queue rest s)))).
Proof.
  intros Hrq Hh Ha. unfold SPN_Scheduler_start_next_process.
  rewrite bind_gets, Hrq, bind_modify. unfold as_process.
  rewrite bind_ret, bind_gets. simpl.
  rewrite (deref_lookup _ _ _ Hh), Ha. by repeat run_step.
Qed.

(** C5, amended.  Under SPN a start takes the first remaining burst of the
    process from the front of its burst sequence and puts it on the CPU,
    and on every well-formed workload the run returns having started each
    process exactly once: the bursts consumed via starts are, for each
    process, its first input burst and no other, and the process is left
    with the rest of its bursts. *)
Theorem SPN_conservation (h0 : list Process) (fuel : nat) :
  well_formed h0 →
  (4 * length h0 < fuel)%nat →
  (∀ (s : Sim) p rest o a acts,
     ready_queue (sched s) = ObjProcess p :: rest →
     heap s !! p = Some o →
     activities o = a :: acts →
     ∃ s', SPN_Scheduler_start_next_process s = Ok ((), s') ∧
           heap s' !! p = Some (mkProcess (pid o) (arrive o) acts) ∧
           runningTime s' = Some a ∧
           trace s' = trace s ++ [Started p (clock s) a]) ∧
  ∃ s', simulate SPN_Scheduler h0 fuel = Ok ((), s') ∧
        ∀ p o, h0 !! p = Some o →
          ∃ a acts, activities o = a :: acts ∧
                    starts p (trace s') = [a] ∧
                    heap s' !! p = Some (mkProcess (pid o) (arrive o) acts).
Proof.
  intros Hwf Hfuel. split.
  - intros s p rest o a acts Hrq Hh Ha. eexists. split.
    + by eapply SPN_start_next_process_front.
    + simpl. split_and!; [|done..].
      apply list_lookup_insert_eq. by apply lookup_lt_Some in Hh.
  - destruct (simulate_run SPN_Scheduler h0 fuel (well_formed_bursts _ Hwf) Hfuel)
      as (s' & Hrun & Hhead).
    exists s'. split; [done|]. intros p o Ho.
    destruct (at_head_None _ _ _ Hhead) as (_ & _ & _ & Hpend).
    destruct Hhead as [Hinv _].
    destruct (inv_started _ _ _ Hinv eq_refl p o Ho) as (a & acts & ? & ? & ?).
    { rewrite Hpend. apply not_elem_of_nil. }
    by exists a, acts.
Qed.

Lemma SPN_conservation_witness :
  let h0 := [mkProcess 0 0 [5; 2; 4]; mkProcess 1 2 [3]; mkProcess 2 2 [1; 1]] in
  ∃ s', simulate SPN_Scheduler h0 13 = Ok ((), s') ∧
        ∀ p o, h0 !! p = Some o →
          ∃ a acts, activities o = a :: acts ∧
                    starts p (trace s') = [a] ∧
                    heap s' !! p = Some (mkProcess (pid o) (arrive o) acts).
Proof.
  intros h0.
  assert (well_formed h0) as Hwf.
  { unfold well_formed, h0. repeat constructor; simpl; (lia || discriminate). }
  refine (proj2 (SPN_conservation h0 13 Hwf _)). simpl. lia.
Defined.

(** ** The bound on the loops

    A run that returns within a bound returns the same with any larger
    bound. *)

Lemma refines_refl {A} (m : M Sim A) : refines m m.
Proof. by intros s r. Qed.

Lemma refines_bind {A B} (m m' : M Sim A) (f f' : A → M Sim B) :
  refines m m' → (∀ a, refines (f a) (f' a)) → refines (m ≫= f) (m' ≫= f').
Proof.
  intros Hm Hf s [b s''] (a & s' & E1 & E2)%bind_Ok.
  apply bind_Ok. exists a, s'. split; [by apply Hm|by apply Hf].
Qed.

Lemma Sim_run_settle_mono fuel : ∀ fuel' move,
  (fuel ≤ fuel')%nat →
  refines (Sim_run_settle fuel move) (Sim_run_settle fuel' move).
Proof.
  induction fuel as [|fuel IH]; intros fuel' move Hle; [by intros s r|].
  destruct fuel' as [|fuel']; [lia|]. simpl.
  destruct move; [|apply refines_refl].
  apply refines_bind; [apply refines_refl|]. intros [|]; [|apply refines_refl].
  apply refines_bind; [apply refines_refl|]. intros move'. apply IH. lia.
Qed.

Lemma Sim_run_drain_mono fuel : ∀ fuel',
  (fuel ≤ fuel')%nat → refines (Sim_run_drain fuel) (Sim_run_drain fuel').
Proof.
  induction fuel as [|fuel IH]; intros fuel' Hle; [by intros s r|].
  destruct fuel' as [|fuel']; [lia|]. simpl.
  apply refines_bind; [apply refines_refl|]. intros [|]; [|apply refines_refl].
  apply refines_bind; [apply refines_refl|]. intros e.
  apply refines_bind; [apply refines_refl|]. intros _. apply IH. lia.
Qed.

Lemma Sim_run_body_mono fuel fuel' move :
  (fuel ≤ fuel')%nat →
  refines (Sim_run_body fuel move) (Sim_run_body fuel' move).
Proof.
  intros Hle. unfold Sim_run_body.
  apply refines_bind; [apply refines_refl|]. intros handled.
  apply refines_bind.
  - destruct handled; [|apply refines_refl].
    apply refines_bind; [apply refines_refl|]. intros move'.
    by apply Sim_run_settle_mono.
  - intros _. apply refines_bind; [by apply Sim_run_drain_mono|].
    intros _. apply refines_refl.
Qed.

Lemma Sim_run_loop_mono fuel fuel' n : ∀ n' move,
  (fuel ≤ fuel')%nat → (n ≤ n')%nat →
  refines (Sim_run_loop fuel n move) (Sim_run_loop fuel' n' move).
Proof.
  induction n as [|n IH]; intros n' move Hle Hn.
  - destruct move; [by intros s r|]. destruct n'; apply refines_refl.
  - destruct n' as [|n']; [lia|]. simpl.
    destruct move; [|apply refines_refl].
    apply refines_bind; [by apply Sim_run_body_mono|].
    intros move'. apply IH; lia.
Qed.

Lemma simulate_mono c (h0 : list Process) (fuel fuel' : nat) r :
  (fuel ≤ fuel')%nat →
  simulate c h0 fuel = Ok r → simulate c h0 fuel' = Ok r.
Proof.
  intros Hle. unfold simulate, Sim_run. apply refines_bind; [apply refines_refl|].
  intros _. apply refines_bind; [apply refines_refl|].
  intros move. by apply Sim_run_loop_mono.
Qed.

(** ** The examples of the specification *)

(** C3, on the code.  Under FCFS the run of [P0 = {arrive 0, bursts [5]}],
    [P1 = {arrive 2, bursts [3]}] does not make the decisions of the
    specification (P0 starts at 0 and finishes at 5, P1 starts at 5 and
    finishes at 8): [arrive] starts [P0] at 0 and leaves it in the ready
    queue, so that once its burst ends at 5 [idle] starts [P0] a second
    time; [P1] starts at 10 only and its burst ends at 13. *)
Theorem FCFS_example_run :
  ∃ s', (∀ fuel, (5 ≤ fuel)%nat →
           simulate FCFS_Scheduler [mkProcess 0 0 [5]; mkProcess 1 2 [3]] fuel
             = Ok ((), s')) ∧
    decisions (trace s') =
      [Started 0 0 5; Stopped 5; Started 0 5 5; Stopped 10;
       Started 1 10 3; Stopped 13] ∧
    decisions (trace s') ≠
      [Started 0 0 5; Stopped 5; Started 1 5 3; Stopped 8] ∧
    clock s' = 13.
Proof.
  eexists. split.
  - intros fuel Hfuel. apply (simulate_mono _ _ 5 fuel); [done|].
    vm_compute. reflexivity.
  - by simpl.
Qed.

(** C4. Under SPN the run of [P0 = {arrive 0, bursts [8]}],
    [P1 = {arrive 1, bursts [4]}] starts [P0] at 0, starts nothing when
    [P1] arrives at 1 (after that arrival what runs is the remaining 7 of
    the burst of [P0], and [P1] is in the ready queue), ends the burst of
    [P0] at 8, starts [P1] at 8 and ends its burst at 12. *)
Theorem SPN_example_run :
  (∃ s', (∀ fuel, (4 ≤ fuel)%nat →
            simulate SPN_Scheduler [mkProcess 0 0 [8]; mkProcess 1 1 [4]] fuel
              = Ok ((), s')) ∧
     decisions (trace s') =
       [Started 0 0 8; Stopped 8; Started 1 8 4; Stopped 12] ∧
     clock s' = 12 ∧ runningTime s' = None) ∧
  (∃ s1 mv,
     (sched_initialize ≫= λ _, mv ← Sim_getTimeForward;
                               mv ← Sim_run_body 3 (default 0 mv);
                               Sim_run_body 3 (default 0 mv))
       (Sim_init [mkProcess 0 0 [8]; mkProcess 1 1 [4]] [0; 1]%nat
          (Scheduler_init SPN_Scheduler [0; 1]%nat)) = Ok (mv, s1) ∧
     clock s1 = 1 ∧ runningTime s1 = Some 7 ∧
     ready_queue (sched s1) = [ObjProcess 1] ∧
     decisions (trace s1) = [Started 0 0 8]).
Proof.
  split.
  - eexists. split.
    + intros fuel Hfuel. apply (simulate_mono _ _ 4 fuel); [done|].
      vm_compute. reflexivity.
    + by simpl.
  - do 2 eexists. split; [vm_compute; reflexivity|]. by simpl.
Qed.

Lemma SPN_example_run_witness :
  ∃ s', simulate SPN_Scheduler [mkProcess 0 0 [8]; mkProcess 1 1 [4]] 4
          = Ok ((), s') ∧
        decisions (trace s') =
          [Started 0 0 8; Stopped 8; Started 1 8 4; Stopped 12].
Proof.
  destruct (proj1 SPN_example_run) as (s' & Hrun & Hd & _).
  exists s'. split; [apply Hrun; lia|exact Hd].
Defined.

(** * More properties of the program *)

(** ** EventQueue: how the methods compose *)

Section event_queue_more.
Context (heap : list Process).
Implicit Types (q : EventQueue) (e : Event) (l : list Event).

(** [peek] announces what [pop] removes: after a [peek] that returned [e],
    a [pop] (on the queue as it was or as [peek] left it) returns the same
    [e] and removes just it; [peek] keeps the events of the queue and a
    second [peek] changes nothing. *)
Theorem EventQueue_peek_then_pop q e q' :
  EventQueue_peek heap q = Ok (e, q') →
  queue q' ≡ₚ queue q ∧
  EventQueue_peek heap q' = Ok (e, q') ∧
  ∃ rest, queue q' = rest ++ [e] ∧
          EventQueue_pop heap q = Ok (e, mkEventQueue rest false) ∧
          EventQueue_pop heap q' = Ok (e, mkEventQueue rest false).
Proof.
  intros Hp. destruct (peek_again _ _ _ _ Hp) as (Hp' & rest & -> & Hpop').
  apply EventQueue_peek_inv in Hp as (rest' & E & [= Hr]).
  apply app_inj_tail in Hr as [<- _]. split_and!; [|done|].
  - simpl. by rewrite <-(prepared_Permutation heap q), E.
  - exists rest. split_and!; [done| |done]. by apply EventQueue_pop_nonempty.
Qed.
End event_queue_more.

Lemma EventQueue_peek_then_pop_witness :
  let h := [mkProcess 0 0 [5]; mkProcess 1 2 [3]] in
  let q := mkEventQueue [mkEvent ARRIVAL 0 0; mkEvent ARRIVAL 1 2] true in
  let e := mkEvent ARRIVAL 0 0 in
  let q' := mkEventQueue [mkEvent ARRIVAL 1 2; e] false in
  EventQueue_peek h q = Ok (e, q') ∧
  ∃ rest, queue q' = rest ++ [e] ∧
          EventQueue_pop h q = Ok (e, mkEventQueue rest false) ∧
          EventQueue_pop h q' = Ok (e, mkEventQueue rest false).
Proof.
  intros h q e q'. split; [reflexivity|].
  exact (proj2 (proj2 (EventQueue_peek_then_pop h q e q' eq_refl))).
Defined.

Section event_queue_all.
Context (heap : list Process).
Implicit Types (q : EventQueue) (e : Event) (l : list Event).

Lemma run_ops_app ops1 : ∀ ops2 q obs1 q1,
  run_ops heap ops1 q = Ok (obs1, q1) →
  run_ops heap (ops1 ++ ops2) q =
  match run_ops heap ops2 q1 with
  | Ok (obs2, q2) => Ok (obs1 ++ obs2, q2)
  | Raise x => Raise x
  | OutOfFuel => OutOfFuel
  end.
Proof.
  induction ops1 as [|[e| |] ops1 IH]; intros ops2 q obs1 q1 H; simpl in *.
  - injection H as <- <-. by destruct (run_ops heap ops2 q) as [[??]| |].
  - destruct (run_ops heap ops1 _) as [[obs q']| |] eqn:E; simplify_eq/=.
    rewrite (IH _ _ _ _ E). by destruct (run_ops heap ops2 q1) as [[??]| |].
  - destruct (EventQueue_pop heap q) as [[e q']| |]; simplify_eq/=.
    destruct (run_ops heap ops1 _) as [[obs q'']| |] eqn:E; simplify_eq/=.
    rewrite (IH _ _ _ _ E). by destruct (run_ops heap ops2 q1) as [[??]| |].
  - destruct (EventQueue_peek heap q) as [[e q']| |]; simplify_eq/=.
    destruct (run_ops heap ops1 _) as [[obs q'']| |] eqn:E; simplify_eq/=.
    rewrite (IH _ _ _ _ E). by destruct (run_ops heap ops2 q1) as [[??]| |].
Qed.

Lemma run_ops_push l : ∀ q,
  run_ops heap (OpPush <$> l) q =
  Ok (Pushed <$> l, foldl (λ q e, EventQueue_push e q) q l).
Proof. induction l as [|e l IH]; intros q; [done|]. simpl. by rewrite IH. Qed.

Lemma foldl_push_queue l : ∀ q,
  queue (foldl (λ q e, EventQueue_push e q) q l) = queue q ++ l.
Proof.
  induction l as [|e l IH]; intros q; simpl.
  - by rewrite (right_id_L [] (++)).
  - rewrite IH. simpl. by rewrite <-(assoc_L (++)).
Qed.

(** Pops on a queue whose flag is clear take the backing list from its
    end. *)
Lemma run_ops_pop_clean l :
  run_ops heap (replicate (length l) OpPop) (mkEventQueue l false) =
  Ok (Popped <$> reverse l, mkEventQueue [] false).
Proof.
  induction l as [|e l IH] using rev_ind; [done|].
  rewrite length_app, Nat.add_comm, reverse_snoc. simpl.
  rewrite (EventQueue_pop_nonempty heap _ e l) by done. simpl.
  by rewrite IH.
Qed.

(** As many pops as the queue has events empty it, from the least event
    up. *)
Lemma run_ops_pop_all q :
  queue q ≠ [] →
  run_ops heap (replicate (length (queue q)) OpPop) q =
  Ok (Popped <$> reverse (prepared heap q), mkEventQueue [] false).
Proof.
  intros Hq. destruct (prepared_snoc heap q Hq) as (e & rest & E).
  rewrite <-(prepared_Permutation heap q), E, length_app, Nat.add_comm.
  rewrite reverse_snoc. simpl.
  rewrite (EventQueue_pop_nonempty heap _ e rest E). simpl.
  by rewrite run_ops_pop_clean.
Qed.

Lemma popped_app obs obs' : popped (obs ++ obs') = popped obs ++ popped obs'.
Proof. apply omap_app. Qed.

Lemma popped_Pushed l : popped (Pushed <$> l) = [].
Proof. induction l as [|e l IH]; [done|]. by simpl. Qed.

Lemma popped_Popped l : popped (Popped <$> l) = l.
Proof. induction l as [|e l IH]; [done|]. simpl. by f_equal. Qed.

(** Events pushed in any order on a new queue come out of it in the order
    of [__lt__]: as many pops as there were pushes return, the events they
    return are those pushed, in ascending (time, kind, process id) order,
    and the pop after them raises [LookupError]. *)
Theorem EventQueue_push_all_pop_all l :
  ∃ out,
    run_ops heap ((OpPush <$> l) ++ replicate (length l) OpPop) EventQueue_init
      = Ok ((Pushed <$> l) ++ (Popped <$> out), mkEventQueue [] false) ∧
    out ≡ₚ l ∧
    StronglySorted (Event_le heap) out ∧
    run_ops heap ((OpPush <$> l) ++ replicate (length l) OpPop ++ [OpPop])
      EventQueue_init = Raise LookupError.
Proof.
  set (q := foldl (λ q e, EventQueue_push e q) EventQueue_init l).
  assert (queue q = l) as Hq by apply foldl_push_queue.
  assert (queue_ordered heap q) as Ho.
  { eapply (run_ops_ordered heap (OpPush <$> l)). apply run_ops_push. }
  assert (run_ops heap (replicate (length l) OpPop) q =
          Ok (Popped <$> reverse (prepared heap q), mkEventQueue [] false)) as Hpop.
  { destruct l as [|e0 l0]; [done|]. rewrite <-Hq. apply run_ops_pop_all.
    by rewrite Hq. }
  exists (reverse (prepared heap q)). split_and!.
  - rewrite (run_ops_app _ _ _ _ _ (run_ops_push l _)). fold q.
    by rewrite Hpop.
  - by rewrite reverse_Permutation, prepared_Permutation, Hq.
  - apply (StronglySorted_reverse (flip (Event_le heap))), prepared_sorted, Ho.
  - rewrite (run_ops_app _ _ _ _ _ (run_ops_push l _)). fold q.
    by rewrite (run_ops_app _ _ _ _ _ Hpop).
Qed.
End event_queue_all.

(** [__iter__] never raises and walks the events from the latest to the
    earliest, the reverse of the order in which [pop] returns them; it
    removes nothing, leaves the flag clear, and can be called again with
    the same result. *)
Theorem EventQueue_iter_descending (heap : list Process) (q : EventQueue) :
  queue_ordered heap q →
  ∃ l q', EventQueue_iter heap q = (l, q') ∧
    l ≡ₚ queue q ∧ queue q' = l ∧ dirty q' = false ∧
    StronglySorted (flip (Event_le heap)) l ∧
    EventQueue_iter heap q' = (l, q') ∧
    run_ops heap (replicate (length l) OpPop) q' =
      Ok (Popped <$> reverse l, mkEventQueue [] false).
Proof.
  intros Ho. unfold EventQueue_iter.
  pose proof (prepared_Permutation heap q) as HP.
  pose proof (prepared_sorted heap q Ho) as HS. unfold prepared in HP, HS.
  destruct q as [l [|]]; simpl in *.
  - eexists _, _. split_and!; try done. apply run_ops_pop_clean.
  - eexists _, _. split_and!; try done. apply run_ops_pop_clean.
Qed.

Lemma EventQueue_iter_descending_witness :
  let h := [mkProcess 0 0 [5]; mkProcess 1 2 [3]] in
  let q := mkEventQueue [mkEvent ARRIVAL 0 0; mkEvent ARRIVAL 1 2;
                         mkEvent UNBLOCK 0 1] true in
  ∃ l q', EventQueue_iter h q = (l, q') ∧
    l ≡ₚ queue q ∧ queue q' = l ∧ dirty q' = false ∧
    StronglySorted (flip (Event_le h)) l ∧
    EventQueue_iter h q' = (l, q') ∧
    run_ops h (replicate (length l) OpPop) q' =
      Ok (Popped <$> reverse l, mkEventQueue [] false).
Proof.
  intros h q. apply (EventQueue_iter_descending h q). discriminate.
Defined.

(** ** SPN: the order of the ready queue *)

Section stable_sort.
Context {A : Type} (lt : A → A → bool).
Context (P : A → Prop) `{!∀ x, Decision (P x)}.
Context (HP : ∀ x y, P x → P y → lt y x = false).

Lemma filter_insert_sorted x l :
  filter P (insert_sorted lt x l) = filter P (x :: l).
Proof.
  induction l as [|y l IH]; simpl; [done|].
  destruct (lt y x) eqn:E; [|done].
  rewrite filter_cons, IH, !filter_cons.
  destruct (decide (P y)) as [Hy|], (decide (P x)) as [Hx|]; try done.
  by rewrite (HP x y Hx Hy) in E.
Qed.

(** The sort keeps the elements of a class of pairwise not-smaller
    elements in their order. *)
Lemma list_sort_stable l : filter P (list_sort lt l) = filter P l.
Proof.
  induction l as [|x l IH]; simpl; [done|].
  by rewrite filter_insert_sorted, !filter_cons, IH.
Qed.
End stable_sort.

Section ready_queue_order.
Context (heap : list Process).
Implicit Types (l : list pyobj) (ks : list Z).

Lemma mapM_SPN_key_Forall2 l : ∀ ks,
  mapM (SPN_key heap) l = Ok ks →
  Forall2 (λ x k, SPN_key heap x = Ok k) l ks.
Proof.
  induction l as [|x l IH]; intros ks H; simpl in H.
  - injection H as <-. constructor.
  - destruct (SPN_key heap x) as [k| |] eqn:Ek; simplify_eq/=.
    destruct (mapM (SPN_key heap) l) as [ks'| |] eqn:E; simplify_eq/=.
    injection H as <-. constructor; [done|]. by apply IH.
Qed.

Lemma zip_keys_consistent l ks :
  Forall2 (λ x k, SPN_key heap x = Ok k) l ks →
  Forall (λ kx, SPN_key heap kx.2 = Ok kx.1) (zip ks l).
Proof. induction 1; simpl; constructor; done. Qed.

Lemma sorted_pairs_snd (kxs : list (Z * pyobj)) :
  Forall (λ kx, SPN_key heap kx.2 = Ok kx.1) kxs →
  StronglySorted (λ a b, a.1 ≤ b.1) kxs →
  StronglySorted (λ x y, ∃ kx ky, SPN_key heap x = Ok kx ∧
                                  SPN_key heap y = Ok ky ∧ kx ≤ ky) (kxs.*2).
Proof.
  intros Hc HS. induction HS as [|[k x] kxs HS IH Hall]; simpl; [constructor|].
  apply Forall_cons in Hc as [Hx Hc]. constructor; [by apply IH|].
  apply Forall_fmap, Forall_forall. intros [k' y] Hin.
  rewrite Forall_forall in Hall, Hc. exists k, k'.
  split_and!; [done|by apply (Hc _ Hin)|by apply (Hall _ Hin)].
Qed.

Lemma filter_pairs_snd k (kxs : list (Z * pyobj)) :
  Forall (λ kx, SPN_key heap kx.2 = Ok kx.1) kxs →
  filter (λ x, burst_key heap x = Some k) (kxs.*2) =
  (filter (λ kx, kx.1 = k) kxs).*2.
Proof.
  induction 1 as [|[k' x] kxs Hx _ IH]; [done|]. simpl in Hx.
  assert (burst_key heap x = Some k') as Hb
    by (unfold burst_key; by rewrite Hx).
  rewrite fmap_cons, !filter_cons, IH. simpl.
  destruct (decide (burst_key heap x = Some k)) as [Hk|Hk];
    destruct (decide (k' = k)) as [Hk'|Hk']; try done; congruence.
Qed.

(** The sort of the ready queue: what it returns is a permutation of the
    queue, in ascending order of next burst, and processes with the same
    next burst are in it in the order they had. *)
Lemma sort_by_key_sorted l l' :
  sort_by_key heap l = Ok l' →
  l' ≡ₚ l ∧
  StronglySorted (λ x y, ∃ kx ky, SPN_key heap x = Ok kx ∧
                                  SPN_key heap y = Ok ky ∧ kx ≤ ky) l' ∧
  ∀ k, filter (λ x, burst_key heap x = Some k) l' =
       filter (λ x, burst_key heap x = Some k) l.
Proof.
  unfold sort_by_key. destruct (mapM (SPN_key heap) l) as [ks| |] eqn:E;
    simpl; [|done..]. intros [= <-].
  pose proof (mapM_SPN_key_Forall2 _ _ E) as H2.
  pose proof (zip_keys_consistent _ _ H2) as Hc.
  pose proof (Forall2_length _ _ _ H2) as Hlen.
  set (lt := λ a b : Z * pyobj, a.1 <? b.1).
  assert (Forall (λ kx, SPN_key heap kx.2 = Ok kx.1) (list_sort lt (zip ks l)))
    as Hc' by by rewrite list_sort_Permutation.
  split_and!.
  - rewrite list_sort_Permutation. by rewrite snd_zip by lia.
  - apply sorted_pairs_snd; [done|].
    apply (list_sort_sorted lt (λ a b, a.1 ≤ b.1)).
    + intros x y. unfold lt. apply Z.ltb_ge.
    + intros x y. unfold lt. rewrite Z.ltb_lt, Z.ltb_ge. lia.
    + intros x y z. lia.
  - intros k. rewrite (filter_pairs_snd k _ Hc').
    rewrite (list_sort_stable lt (λ kx, kx.1 = k)).
    + rewrite <-(filter_pairs_snd k _ Hc). by rewrite snd_zip by lia.
    + intros x y Hx Hy. unfold lt. rewrite Hx, Hy. apply Z.ltb_irrefl.
Qed.
End ready_queue_order.

Lemma StronglySorted_weaken {A} (R R' : relation A) (l : list A) :
  (∀ x y, R x y → R' x y) → StronglySorted R l → StronglySorted R' l.
Proof.
  intros HR. induction 1 as [|x l _ IH Hx]; constructor; [done|].
  eapply Forall_impl; [exact Hx|]. auto.
Qed.

Lemma burst_key_Some heap x k :
  burst_key heap x = Some k ↔ SPN_key heap x = Ok k.
Proof.
  unfold burst_key. destruct (SPN_key heap x); split; intros H; by simplify_eq.
Qed.

Lemma burst_key_process heap x a :
  burst_key heap x = Some a →
  ∃ p o acts, x = ObjProcess p ∧ heap !! p = Some o ∧ activities o = a :: acts.
Proof.
  rewrite burst_key_Some. destruct x as [|p]; [done|]. simpl. unfold deref.
  destruct (heap !! p) as [o|] eqn:E; simpl; [|done].
  destruct (activities o) as [|a' acts] eqn:Ea; [done|]. intros [= ->].
  by exists p, o, acts.
Qed.

Lemma mapM_SPN_key_Raise heap (l : list pyobj) :
  ¬ Forall (λ x, is_Some (burst_key heap x)) l →
  ∃ e, mapM (SPN_key heap) l = Raise e.
Proof.
  induction l as [|x l IH]; intros Hn; [by destruct Hn|]. simpl.
  destruct (SPN_key heap x) as [k|e|] eqn:Ek; simpl; [|by eexists|].
  - destruct IH as [e He].
    + intros Hl. apply Hn. constructor; [|done].
      exists k. by apply burst_key_Some.
    + rewrite He. by eexists.
  - exfalso. destruct x as [|p]; [done|]. simpl in Ek.
    by destruct (activities (deref heap p)).
Qed.

Lemma SPN_add_to_ready_queue_sorted (s : Sim) (y : pyobj) :
  Forall (λ x, is_Some (burst_key (heap s) x)) (ready_queue (sched s) ++ [y]) →
  ∃ rq', SPN_Scheduler_add_to_ready_queue y s = Ok ((), set_ready_queue rq' s) ∧
    rq' ≡ₚ ready_queue (sched s) ++ [y] ∧
    StronglySorted (λ x1 x2, ∃ k1 k2, burst_key (heap s) x1 = Some k1 ∧
                                      burst_key (heap s) x2 = Some k2 ∧
                                      k1 ≤ k2) rq' ∧
    ∀ k, filter (λ x, burst_key (heap s) x = Some k) rq' =
         filter (λ x, burst_key (heap s) x = Some k)
           (ready_queue (sched s) ++ [y]).
Proof.
  intros Hok.
  destruct (SPN_add_to_ready_queue_run s y) as (rq' & E & HP).
  { eapply Forall_impl; [exact Hok|]. intros x [k Hk]. exists k.
    by apply burst_key_Some. }
  exists rq'. split; [done|].
  assert (sort_by_key (heap s) (ready_queue (sched s) ++ [y]) = Ok rq') as Hs.
  { revert E. unfold SPN_Scheduler_add_to_ready_queue. repeat run_step. simpl.
    destruct (sort_by_key _ _) as [l| |]; simpl; [|done..].
    run_step. intros [= H]. by rewrite H. }
  destruct (sort_by_key_sorted _ _ _ Hs) as (_ & HS & Hst).
  split_and!; [done| |done].
  eapply StronglySorted_weaken; [|exact HS]. simpl.
  intros x1 x2 (k1 & k2 & ? & ? & ?). exists k1, k2.
  by rewrite !burst_key_Some.
Qed.

(** When [add_to_ready_queue] returns, it has only changed the ready queue:
    the new ready queue holds the processes of the old one and the new
    process, in ascending order of next burst, processes with equal next
    bursts in the order in which they were queued.  It returns if the sort
    key can read a next burst of the new process and of every process of
    the ready queue; if not (a process without bursts, or an object that is
    no process) it raises. *)
Theorem SPN_add_to_ready_queue_order (s : Sim) (y : pyobj) :
  (Forall (λ x, is_Some (burst_key (heap s) x)) (ready_queue (sched s) ++ [y]) →
   ∃ rq', SPN_Scheduler_add_to_ready_queue y s = Ok ((), set_ready_queue rq' s) ∧
     rq' ≡ₚ ready_queue (sched s) ++ [y] ∧
     StronglySorted (λ x1 x2, ∃ k1 k2, burst_key (heap s) x1 = Some k1 ∧
                                       burst_key (heap s) x2 = Some k2 ∧
                                       k1 ≤ k2) rq' ∧
     ∀ k, filter (λ x, burst_key (heap s) x = Some k) rq' =
          filter (λ x, burst_key (heap s) x = Some k)
            (ready_queue (sched s) ++ [y])) ∧
  (¬ Forall (λ x, is_Some (burst_key (heap s) x)) (ready_queue (sched s) ++ [y]) →
   ∃ e, SPN_Scheduler_add_to_ready_queue y s = Raise e).
Proof.
  split; [apply SPN_add_to_ready_queue_sorted|].
  intros Hn. destruct (mapM_SPN_key_Raise _ _ Hn) as [e He].
  exists e. unfold SPN_Scheduler_add_to_ready_queue. repeat run_step. simpl.
  unfold sort_by_key. rewrite He. simpl. by run_step.
Qed.

Lemma SPN_add_to_ready_queue_order_witness :
  let h := [mkProcess 0 0 [5]; mkProcess 1 0 [3; 9]; mkProcess 2 0 [3]] in
  let s := set_ready_queue [ObjProcess 1; ObjProcess 0]
             (Sim_init h [0; 1; 2]%nat
                (Scheduler_init SPN_Scheduler [0; 1; 2]%nat)) in
  SPN_Scheduler_add_to_ready_queue (ObjProcess 2) s =
    Ok ((), set_ready_queue [ObjProcess 1; ObjProcess 2; ObjProcess 0] s) ∧
  ∃ rq', SPN_Scheduler_add_to_ready_queue (ObjProcess 2) s =
           Ok ((), set_ready_queue rq' s) ∧
         rq' ≡ₚ ready_queue (sched s) ++ [ObjProcess 2].
Proof.
  intros h s. split; [reflexivity|].
  destruct (proj1 (SPN_add_to_ready_queue_order s (ObjProcess 2)))
    as (rq' & E & HP & _).
  { repeat constructor; by eexists. }
  by exists rq'.
Defined.

(** SPN starts the shortest: when a process arrives while the CPU is idle,
    the process that [arrive] starts is one with the least next burst among
    the ready processes and the new one, the one queued first if several
    have that burst; it gets that burst as running time and loses it, and
    the others stay ready. *)
Theorem SPN_arrive_starts_shortest (s : Sim) (p : ref) :
  runningTime s = None →
  Forall (λ x, is_Some (burst_key (heap s) x))
         (ready_queue (sched s) ++ [ObjProcess p]) →
  ∃ q o a acts s',
    SPN_Scheduler_arrive p s = Ok ((), s') ∧
    heap s !! q = Some o ∧ activities o = a :: acts ∧
    ObjProcess q :: ready_queue (sched s') ≡ₚ
      ready_queue (sched s) ++ [ObjProcess p] ∧
    Forall (λ x, ∃ k, burst_key (heap s) x = Some k ∧ a ≤ k)
           (ready_queue (sched s')) ∧
    head (filter (λ x, burst_key (heap s) x = Some a)
                 (ready_queue (sched s) ++ [ObjProcess p]))
      = Some (ObjProcess q) ∧
    runningTime s' = Some a ∧
    heap s' = <[q := mkProcess (pid o) (arrive o) acts]> (heap s) ∧
    trace s' = trace s ++ [Started q (clock s) a] ∧
    clock s' = clock s ∧ events s' = events s.
Proof.
  intros Hrt Hok.
  destruct (SPN_add_to_ready_queue_sorted s (ObjProcess p) Hok)
    as (rq' & E & HP & HS & Hst).
  destruct rq' as [|x rest].
  { symmetry in HP. apply Permutation_nil_r in HP.
    by destruct (ready_queue (sched s)). }
  assert (is_Some (burst_key (heap s) x)) as [a Ha].
  { rewrite <-HP in Hok. by apply Forall_cons in Hok as [? _]. }
  destruct (burst_key_process _ _ _ Ha) as (q & o & acts & -> & Ho & Hacts).
  exists q, o, a, acts. eexists. split_and!.
  - unfold SPN_Scheduler_arrive. rewrite bind_eq, E, bind_gets. simpl.
    rewrite Hrt. by apply (SPN_start_next_process_front _ q rest o a acts).
  - done.
  - done.
  - done.
  - simpl. apply StronglySorted_cons in HS as [HS _].
    eapply Forall_impl; [exact HS|]. simpl.
    intros y (k1 & k2 & H1 & H2 & Hle). exists k2. split; [done|].
    rewrite Ha in H1. by injection H1 as <-.
  - rewrite <-Hst, filter_cons. by destruct (decide _).
  - done.
  - done.
  - done.
  - done.
  - done.
Qed.

Lemma SPN_arrive_starts_shortest_witness :
  let h := [mkProcess 0 0 [5]; mkProcess 1 0 [3; 9]; mkProcess 2 0 [3]] in
  let s := set_ready_queue [ObjProcess 1; ObjProcess 0]
             (Sim_init h [0; 1; 2]%nat
                (Scheduler_init SPN_Scheduler [0; 1; 2]%nat)) in
  ∃ q a s', SPN_Scheduler_arrive 2%nat s = Ok ((), s') ∧
            trace s' = [Started q 0 a] ∧
            Forall (λ x, ∃ k, burst_key h x = Some k ∧ a ≤ k)
                   (ready_queue (sched s')).
Proof.
  intros h s.
  destruct (SPN_arrive_starts_shortest s 2%nat eq_refl)
    as (q & o & a & acts & s' & E & _ & _ & _ & Hmin & _ & _ & _ & Ht & _).
  { repeat constructor; by eexists. }
  exists q, a, s'. split_and!; [exact E|exact Ht|exact Hmin].
Defined.

(** SPN does not preempt: when a process arrives while a process runs,
    [arrive] only puts it in the ready queue; the running time, the
    processes, the clock and the log stay as they are. *)
Theorem SPN_arrive_no_preemption (s : Sim) (p : ref) (r : Z) :
  runningTime s = Some r →
  Forall (λ x, is_Some (burst_key (heap s) x))
         (ready_queue (sched s) ++ [ObjProcess p]) →
  ∃ rq', SPN_Scheduler_arrive p s = Ok ((), set_ready_queue rq' s) ∧
         rq' ≡ₚ ready_queue (sched s) ++ [ObjProcess p] ∧
         runningTime (set_ready_queue rq' s) = Some r.
Proof.
  intros Hrt Hok.
  destruct (SPN_add_to_ready_queue_sorted s (ObjProcess p) Hok)
    as (rq' & E & HP & _).
  exists rq'. split_and!; [|done..].
  unfold SPN_Scheduler_arrive. rewrite bind_eq, E, bind_gets. simpl.
  by rewrite Hrt.
Qed.

Lemma SPN_arrive_no_preemption_witness :
  let h := [mkProcess 0 0 [5]; mkProcess 1 0 [3; 9]; mkProcess 2 0 [1]] in
  let s := set_runningTime (Some 4)
             (set_ready_queue [ObjProcess 1]
                (Sim_init h [0; 1; 2]%nat
                   (Scheduler_init SPN_Scheduler [0; 1; 2]%nat))) in
  ∃ rq', SPN_Scheduler_arrive 2%nat s = Ok ((), set_ready_queue rq' s) ∧
         rq' ≡ₚ [ObjProcess 1; ObjProcess 2] ∧
         runningTime (set_ready_queue rq' s) = Some 4.
Proof.
  intros h s. apply (SPN_arrive_no_preemption s 2%nat 4 eq_refl).
  repeat constructor; by eexists.
Defined.

(** ** FCFS: what an arrival does *)

Lemma FCFS_Scheduler_arrive_run (s : Sim) (p : ref) :
  (ready_queue (sched s) = [] →
   match activities (deref (heap s) p) with
   | [] => FCFS_Scheduler_arrive p s = Raise IndexError
   | a :: _ =>
       FCFS_Scheduler_arrive p s =
       Ok ((), set_trace (trace s ++ [Started p (clock s) a])
                 (set_runningTime (Some a)
                    (set_ready_queue [ObjProcess p] s)))
   end) ∧
  (ready_queue (sched s) ≠ [] →
   FCFS_Scheduler_arrive p s =
   Ok ((), set_ready_queue (ready_queue (sched s) ++ [ObjProcess p]) s)).
Proof.
  unfold FCFS_Scheduler_arrive. split; intros Hrq.
  - rewrite bind_modify, bind_gets. simpl. rewrite Hrq. simpl.
    rewrite bind_gets. simpl.
    destruct (activities (deref (heap s) p)); [done|]. by repeat run_step.
  - rewrite bind_modify, bind_gets. simpl.
    case_bool_decide as Hlen; [|done].
    rewrite length_app in Hlen. simpl in Hlen.
    destruct (ready_queue (sched s)); [done|simpl in Hlen; lia].
Qed.

(** Under FCFS a process that arrives is put at the end of the ready queue
    and stays there.  If the ready queue was empty, its first burst becomes
    the running time, whatever the running time was (also when another
    process is running), and no burst is removed; [IndexError] if it has no
    burst.  If the ready queue was not empty, nothing else changes. *)
Theorem FCFS_arrive_behaviour (s : Sim) (p : ref) :
  (ready_queue (sched s) = [] →
   match activities (deref (heap s) p) with
   | [] => FCFS_Scheduler_arrive p s = Raise IndexError
   | a :: _ =>
       FCFS_Scheduler_arrive p s =
       Ok ((), set_trace (trace s ++ [Started p (clock s) a])
                 (set_runningTime (Some a)
                    (set_ready_queue [ObjProcess p] s)))
   end) ∧
  (ready_queue (sched s) ≠ [] →
   FCFS_Scheduler_arrive p s =
   Ok ((), set_ready_queue (ready_queue (sched s) ++ [ObjProcess p]) s)).
Proof. apply FCFS_Scheduler_arrive_run. Qed.

Lemma FCFS_arrive_behaviour_witness :
  let h := [mkProcess 0 0 [10]; mkProcess 1 12 [1]] in
  let s := set_runningTime (Some 8)
             (set_clock 12
                (Sim_init h [0; 1]%nat
                   (Scheduler_init FCFS_Scheduler [0; 1]%nat))) in
  FCFS_Scheduler_arrive 1%nat s =
  Ok ((), set_trace [Started 1 12 1]
            (set_runningTime (Some 1) (set_ready_queue [ObjProcess 1] s))).
Proof.
  intros h s. exact (proj1 (FCFS_arrive_behaviour s 1%nat) eq_refl).
Defined.

(** ** FCFS: the processes are never changed *)

Section preserves_facts.
Context (R : relation Sim) `{!PreOrder R}.

Lemma preserves_bind {A B} (m : M Sim A) (f : A → M Sim B) :
  preserves R m → (∀ a, preserves R (f a)) → preserves R (m ≫= f).
Proof.
  intros Hm Hf s b s'' (a & s' & E1 & E2)%bind_Ok.
  etrans; [by eapply Hm|by eapply Hf].
Qed.

Lemma preserves_ret {A} (a : A) : preserves R (mret a : M Sim A).
Proof. by intros s a' s' [= <- <-]. Qed.

Lemma preserves_gets {A} (f : Sim → A) : preserves R (gets f).
Proof. by intros s a' s' [= <- <-]. Qed.

Lemma preserves_raise {A} e : preserves R (raise e : M Sim A).
Proof. by intros s a s'. Qed.

Lemma preserves_out_of_fuel {A} : preserves R (out_of_fuel : M Sim A).
Proof. by intros s a s'. Qed.

Lemma preserves_lift {A} (o : outcome A) : preserves R (lift o).
Proof. intros s a s'. unfold lift. by destruct o; intros [= <- <-]. Qed.

Lemma preserves_modify (f : Sim → Sim) :
  (∀ s, R s (f s)) → preserves R (modify f).
Proof. intros Hf s a s' [= <- <-]. apply Hf. Qed.

Lemma preserves_events_peek :
  (∀ s q, R s (set_events q s)) → preserves R events_peek.
Proof.
  intros HR s e s' H. unfold events_peek in H.
  destruct (EventQueue_peek _ _) as [[e' q]| |]; simplify_eq/=. apply HR.
Qed.

Lemma preserves_events_pop :
  (∀ s q, R s (set_events q s)) → preserves R events_pop.
Proof.
  intros HR s e s' H. unfold events_pop in H.
  destruct (EventQueue_pop _ _) as [[e' q]| |]; simplify_eq/=. apply HR.
Qed.
End preserves_facts.

#[global] Instance FCFS_frame_preorder : PreOrder FCFS_frame.
Proof.
  split.
  - by intros s Hc.
  - intros s1 s2 s3 H12 H23 Hc. destruct (H12 Hc) as [Hh Hc2].
    destruct (H23 Hc2) as [Hh3 Hc3]. split; [congruence|done].
Qed.

Ltac frame_step R :=
  first
    [ apply (preserves_bind R); [|intros ?]
    | apply (preserves_ret R)
    | apply (preserves_gets R)
    | apply (preserves_raise R)
    | apply (preserves_out_of_fuel R)
    | apply (preserves_lift R)
    | apply (preserves_events_peek R); by intros [] ?
    | apply (preserves_events_pop R); by intros [] ?
    | apply (preserves_modify R); by intros []
    | match goal with
      | |- preserves _ (match ?x with _ => _ end) => destruct x
      | |- preserves _ (if ?x then _ else _) => destruct x
      end ].

(** A method that dispatches on the class of the scheduler. *)
Lemma FCFS_frame_dispatch {A} (m mF mS : M Sim A) :
  (∀ s, m s = match sched_class (sched s) with
              | FCFS_Scheduler => mF s
              | SPN_Scheduler => mS s
              end) →
  preserves FCFS_frame mF → preserves FCFS_frame m.
Proof.
  intros Hm HF s a s' H Hc. rewrite Hm, Hc in H. by apply (HF _ _ _ H).
Qed.

Lemma FCFS_frame_Sim_addArrival_all (ps : list ref) :
  preserves FCFS_frame (mapM Sim_addArrival ps).
Proof.
  intros s l s' H. destruct (Sim_addArrival_all ps s) as (l' & d & E).
  rewrite E in H. injection H as <- <-. by intros Hc.
Qed.

Lemma FCFS_frame_getTimeForward : preserves FCFS_frame Sim_getTimeForward.
Proof.
  unfold Sim_getTimeForward, events_hasEvent. repeat frame_step FCFS_frame.
Qed.

Lemma FCFS_frame_handleTimeDone move :
  preserves FCFS_frame (Sim_handleTimeDone move).
Proof.
  unfold Sim_handleTimeDone, log.
  repeat first
    [ apply (FCFS_frame_dispatch sched_stopRunning FCFS_Scheduler_stopRunning
               SPN_Scheduler_stopRunning); [done|]
    | frame_step FCFS_frame ].
Qed.

Lemma FCFS_frame_arrive p : preserves FCFS_frame (sched_arrive p).
Proof.
  apply (FCFS_frame_dispatch (sched_arrive p) (FCFS_Scheduler_arrive p)
           (SPN_Scheduler_arrive p)); [done|].
  unfold FCFS_Scheduler_arrive, log. repeat frame_step FCFS_frame.
Qed.

Lemma FCFS_frame_unblock x y : preserves FCFS_frame (sched_unblock x y).
Proof.
  apply (FCFS_frame_dispatch (sched_unblock x y) (FCFS_Scheduler_unblock x y)
           (SPN_Scheduler_unblock x y)); [done|].
  apply (preserves_ret FCFS_frame).
Qed.

Lemma FCFS_frame_processEvent e : preserves FCFS_frame (Sim_processEvent e).
Proof.
  unfold Sim_processEvent, log.
  repeat first [apply FCFS_frame_arrive | apply FCFS_frame_unblock
               |frame_step FCFS_frame].
Qed.

Lemma FCFS_frame_idle : preserves FCFS_frame sched_idle.
Proof.
  apply (FCFS_frame_dispatch sched_idle FCFS_Scheduler_idle SPN_Scheduler_idle);
    [done|].
  unfold FCFS_Scheduler_idle, as_process, log. repeat frame_step FCFS_frame.
Qed.

Lemma FCFS_frame_settle fuel : ∀ move,
  preserves FCFS_frame (Sim_run_settle fuel move).
Proof.
  induction fuel as [|fuel IH]; intros move; simpl.
  - apply (preserves_out_of_fuel FCFS_frame).
  - repeat first [apply FCFS_frame_handleTimeDone
                 |apply FCFS_frame_getTimeForward | apply IH
                 |frame_step FCFS_frame].
Qed.

Lemma FCFS_frame_drain fuel : preserves FCFS_frame (Sim_run_drain fuel).
Proof.
  induction fuel as [|fuel IH]; simpl.
  - apply (preserves_out_of_fuel FCFS_frame).
  - unfold Sim_run_due, events_hasEvent.
    repeat first [apply FCFS_frame_processEvent | apply IH
                 |frame_step FCFS_frame].
Qed.

Lemma FCFS_frame_body fuel move : preserves FCFS_frame (Sim_run_body fuel move).
Proof.
  unfold Sim_run_body.
  repeat first [apply FCFS_frame_handleTimeDone
               |apply FCFS_frame_getTimeForward | apply FCFS_frame_settle
               |apply FCFS_frame_drain | apply FCFS_frame_processEvent
               |apply FCFS_frame_idle | frame_step FCFS_frame].
Qed.

Lemma FCFS_frame_loop fuel n : ∀ move,
  preserves FCFS_frame (Sim_run_loop fuel n move).
Proof.
  induction n as [|n IH]; intros move; simpl.
  - destruct move; [apply (preserves_out_of_fuel FCFS_frame)
                   |apply (preserves_ret FCFS_frame)].
  - destruct move; [|apply (preserves_ret FCFS_frame)].
    apply (preserves_bind FCFS_frame); [apply FCFS_frame_body|apply IH].
Qed.

Lemma FCFS_frame_run fuel : preserves FCFS_frame (Sim_run fuel).
Proof.
  unfold Sim_run.
  apply (preserves_bind FCFS_frame).
  - apply (FCFS_frame_dispatch sched_initialize FCFS_Scheduler_initialize
             SPN_Scheduler_initialize); [done|].
    unfold FCFS_Scheduler_initialize.
    repeat first [apply FCFS_frame_Sim_addArrival_all | frame_step FCFS_frame].
  - intros _. apply (preserves_bind FCFS_frame);
      [apply FCFS_frame_getTimeForward|apply FCFS_frame_loop].
Qed.

(** A run under FCFS that returns has changed no process: no burst is
    removed, whatever the workload and however long the run. *)
Theorem FCFS_run_keeps_processes (h0 : list Process) (fuel : nat) (s' : Sim) :
  simulate FCFS_Scheduler h0 fuel = Ok ((), s') → heap s' = h0.
Proof.
  intros H. by destruct (FCFS_frame_run fuel _ _ _ H eq_refl).
Qed.

Lemma FCFS_run_keeps_processes_witness :
  let h0 := [mkProcess 0 0 [5; 2; 4]; mkProcess 1 2 [3]] in
  ∃ s', simulate FCFS_Scheduler h0 9 = Ok ((), s') ∧ heap s' = h0.
Proof.
  intros h0.
  assert (∃ s', simulate FCFS_Scheduler h0 9 = Ok ((), s')) as [s' E].
  { vm_compute. eexists. reflexivity. }
  exists s'. split; [exact E|]. exact (FCFS_run_keeps_processes h0 9 s' E).
Defined.

(** ** Time in a run *)

(** *** What a callback does when it returns *)

Lemma deref_activities heap p a acts :
  activities (deref heap p) = a :: acts →
  ∃ o, heap !! p = Some o ∧ activities o = a :: acts.
Proof.
  unfold deref. destruct (heap !! p) as [o|]; simpl; [|done]. eauto.
Qed.

Lemma SPN_start_next_process_inv (s s' : Sim) :
  SPN_Scheduler_start_next_process s = Ok ((), s') →
  (ready_queue (sched s) = [] ∧ s' = s) ∨
  ∃ q rest o a acts,
    ready_queue (sched s) = ObjProcess q :: rest ∧
    heap s !! q = Some o ∧ activities o = a :: acts ∧
    s' = set_trace (trace s ++ [Started q (clock s) a])
           (set_runningTime (Some a)
              (set_heap (<[q := mkProcess (pid o) (arrive o) acts]> (heap s))
                 (set_ready_queue rest s))).
Proof.
  unfold SPN_Scheduler_start_next_process. rewrite bind_gets.
  destruct (ready_queue (sched s)) as [|x rest] eqn:Erq.
  { intros [= <-]. by left. }
  rewrite bind_modify. destruct x as [|q]; [done|]. simpl.
  rewrite bind_ret, bind_gets. simpl.
  destruct (activities (deref (heap s) q)) as [|a acts] eqn:Ea; [done|].
  destruct (deref_activities _ _ _ _ Ea) as (o & Ho & Ha).
  rewrite (deref_lookup _ _ _ Ho). repeat run_step. intros [= <-].
  right. by exists q, rest, o, a, acts.
Qed.

Lemma SPN_add_to_ready_queue_inv (s s' : Sim) (y : pyobj) :
  SPN_Scheduler_add_to_ready_queue y s = Ok ((), s') →
  ∃ rq', s' = set_ready_queue rq' s ∧ rq' ≡ₚ ready_queue (sched s) ++ [y].
Proof.
  unfold SPN_Scheduler_add_to_ready_queue. repeat run_step. simpl.
  destruct (sort_by_key _ _) as [rq'| |] eqn:E; simpl; [|done..].
  run_step. intros [= <-]. exists rq'. split; [by destruct s|].
  by destruct (sort_by_key_sorted _ _ _ E) as [? _].
Qed.

Lemma ready_refs_snoc rq p : ready_refs (rq ++ [ObjProcess p]) = ready_refs rq ++ [p].
Proof. by rewrite ready_refs_app. Qed.

Lemma sched_arrive_effect c (s s' : Sim) (p : ref) :
  sched_class (sched s) = c →
  sched_arrive p s = Ok ((), s') → sched_effect c [p] s s'.
Proof.
  intros Hc. unfold sched_arrive. rewrite Hc. destruct c.
  - destruct (FCFS_Scheduler_arrive_run s p) as [Hnil Hcons].
    destruct (ready_queue (sched s)) as [|x rq] eqn:Erq.
    + specialize (Hnil eq_refl).
      destruct (activities (deref (heap s) p)) as [|a acts] eqn:Ea;
        rewrite Hnil; [done|]. intros [= <-].
      destruct (deref_activities _ _ _ _ Ea) as (o & Ho & Ha).
      apply (effect_start _ _ s [ObjProcess p] p o a acts (heap s));
        rewrite ?Erq; simpl; try done. by left.
    + rewrite Hcons by done. intros [= <-]. apply effect_queue.
      intros y Hy. rewrite Erq.
      pose proof (ready_refs_snoc (x :: rq) p) as Hs. by rewrite <-Hs.
  - unfold SPN_Scheduler_arrive.
    intros ([] & s1 & (rq' & -> & HP)%SPN_add_to_ready_queue_inv & H)%bind_Ok.
    assert (∀ y, y ∈ ready_refs rq' ↔
                 y ∈ ready_refs (ready_queue (sched s)) ++ [p]) as Hrq.
    { intros y. by rewrite HP, ready_refs_snoc. }
    rewrite bind_gets in H. simpl in H.
    destruct (runningTime s) eqn:Hrt.
    + injection H as <-. apply effect_queue. intros y. by rewrite Hrq.
    + apply SPN_start_next_process_inv in H
        as [[_ ->]|(q & rest & o & a & acts & Erq & Ho & Ha & ->)].
      * apply effect_queue. intros y. by rewrite Hrq.
      * simpl in Erq. subst rq'.
        apply (effect_start _ _ s rest q o a acts _); try done.
        -- intros y Hy. apply Hrq. simpl. by right.
        -- apply Hrq. simpl. by left.
Qed.

Lemma sched_idle_effect c (s s' : Sim) :
  sched_class (sched s) = c →
  runningTime s = None →
  sched_idle s = Ok ((), s') → sched_effect c [] s s'.
Proof.
  intros Hc Hrt. unfold sched_idle. rewrite Hc. destruct c.
  - unfold FCFS_Scheduler_idle. rewrite bind_gets.
    destruct (ready_queue (sched s)) as [|x rest] eqn:Erq.
    { intros [= <-]. rewrite <-(set_ready_queue_id s) at 2.
      apply effect_queue. intros y. by rewrite Erq. }
    rewrite bind_modify. destruct x as [|q]; [done|]. simpl.
    rewrite bind_ret, bind_gets. simpl.
    destruct (activities (deref (heap s) q)) as [|a acts] eqn:Ea; [done|].
    destruct (deref_activities _ _ _ _ Ea) as (o & Ho & Ha).
    repeat run_step. intros [= <-].
    apply (effect_start _ _ s rest q o a acts (heap s)); rewrite ?Erq; simpl;
      try done.
    + intros y Hy. rewrite (right_id_L [] (++)). by right.
    + rewrite (right_id_L [] (++)). by left.
  - unfold SPN_Scheduler_idle. rewrite bind_gets.
    destruct (ready_queue (sched s)) as [|x rest] eqn:Erq.
    { intros [= <-]. rewrite <-(set_ready_queue_id s) at 2.
      apply effect_queue. intros y. by rewrite Erq. }
    intros [[Hnil _]|(q & rest' & o & a & acts & Erq' & Ho & Ha & ->)]
      %SPN_start_next_process_inv; [by rewrite Erq in Hnil|].
    rewrite Erq in Erq'. injection Erq' as -> ->.
    apply (effect_start _ _ s rest' q o a acts _); rewrite ?Erq; simpl;
      try done.
    + intros y Hy. rewrite (right_id_L [] (++)). by right.
    + rewrite (right_id_L [] (++)). by left.
Qed.

(** *** The invariant of times *)

Lemma Event_le_fields (h h' : list Process) (a b : Event) :
  (∀ p, pid (deref h p) = pid (deref h' p)) →
  Event_le h a b → Event_le h' a b.
Proof. intros Hp. unfold Event_le. by rewrite !Hp. Qed.

Lemma Event_le_time (h : list Process) (a b : Event) :
  Event_le h a b → time a ≤ time b.
Proof. unfold Event_le. lia. Qed.

Lemma queue_ordered_fields (h h' : list Process) (q : EventQueue) :
  (∀ p, pid (deref h p) = pid (deref h' p)) →
  queue_ordered h q → queue_ordered h' q.
Proof.
  intros Hp Ho Hd. eapply StronglySorted_weaken; [|exact (Ho Hd)].
  intros x y. unfold flip. by apply Event_le_fields.
Qed.

Lemma deref_insert (h : list Process) (q p : ref) (o o' : Process) :
  h !! q = Some o →
  deref (<[q := o']> h) p = if decide (p = q) then o' else deref h p.
Proof.
  intros Ho. unfold deref. destruct (decide (p = q)) as [->|Hne].
  - rewrite list_lookup_insert_eq; [done|]. by eapply lookup_lt_Some.
  - by rewrite list_lookup_insert_ne.
Qed.

Lemma chronological_snoc (t : list LogEntry) (d : LogEntry) :
  chronological t → Forall (λ d', entry_time d' ≤ entry_time d) t →
  chronological (t ++ [d]).
Proof.
  unfold chronological. intros Hc Hle. rewrite fmap_app.
  apply StronglySorted_app_2; [|done|repeat constructor].
  intros x y (d' & -> & Hd')%list_elem_of_fmap ->%list_elem_of_singleton.
  by eapply Forall_forall in Hle.
Qed.

Lemma slices_snoc (t : list LogEntry) (d : LogEntry) :
  slices (t ++ [d]) = slice_step (slices t) d.
Proof. apply foldl_snoc. Qed.

Lemma precedence_snoc (t : list LogEntry) (d : LogEntry) :
  precedence (t ++ [d]) = precedence_step (precedence t) d.
Proof. apply foldl_snoc. Qed.

Lemma dispatched_snoc (t : list LogEntry) (d : LogEntry) :
  dispatched (t ++ [d]) =
  dispatched t ++ match d with Dispatched e => [e] | _ => [] end.
Proof. unfold dispatched. rewrite omap_app. by destruct d. Qed.

Lemma time_inv_effect c h0 new (s s' : Sim) :
  time_inv c h0 s →
  (∀ p, p ∈ new → arrive (deref h0 p) ≤ clock s) →
  sched_effect c new s s' → time_inv c h0 s'.
Proof.
  intros J Hnew Heff.
  assert (∀ x, x ∈ ready_refs (ready_queue (sched s)) ++ new →
               arrive (deref h0 x) ≤ clock s) as Hall.
  { intros x [?|?]%elem_of_app; [by apply (tinv_ready c h0 s J)|auto]. }
  destruct Heff as [rq' Hrq|rq' q o a acts h' Hrq Hq Ho Ha Hh].
  { destruct J. split; simpl; try done. intros x Hx. auto. }
  assert (∀ p, pid (deref h' p) = pid (deref (heap s) p) ∧
               arrive (deref h' p) = arrive (deref (heap s) p)) as Hf.
  { destruct c; [by subst h'|]. destruct Hh as [-> _]. intros p.
    rewrite (deref_insert _ _ _ _ _ Ho).
    destruct (decide (p = q)) as [->|]; [|done].
    by rewrite (deref_lookup _ _ _ Ho). }
  assert (Forall (λ b, 0 ≤ b) (a :: acts)) as Hacts.
  { rewrite <-Ha. exact (Forall_lookup_1 _ _ _ _ (tinv_bursts c h0 s J) Ho). }
  destruct J. split; simpl.
  - done.
  - intros p. destruct (Hf p) as [-> ->]. apply tinv_fields0.
  - destruct c; [by subst h'|]. destruct Hh as [-> _].
    apply Forall_insert; [done|]. simpl. by inversion Hacts.
  - eapply queue_ordered_fields; [|exact tinv_ordered0].
    intros p. by destruct (Hf p).
  - done.
  - intros r [= <-]. by inversion Hacts.
  - intros x Hx. auto.
  - apply Forall_app. split; [done|]. repeat constructor. simpl. lia.
  - apply chronological_snoc; done.
  - intros p t b [Hin|Hin%list_elem_of_singleton]%elem_of_app; [eauto|].
    injection Hin as -> -> ->. auto.
  - by rewrite dispatched_snoc, (right_id_L [] (++)).
  - by rewrite dispatched_snoc, (right_id_L [] (++)).
  - by rewrite dispatched_snoc, (right_id_L [] (++)).
  - intros ->. destruct Hh as [_ Hrt].
    by rewrite slices_snoc, (tinv_slices0 eq_refl), Hrt.
  - intros Hpos. destruct (tinv_prec0 Hpos) as (Hheap & Hrun & Hprec).
    assert (Forall (λ b, 0 < b) (a :: acts)) as Hpacts.
    { rewrite <-Ha. exact (Forall_lookup_1 _ _ _ _ Hheap Ho). }
    split_and!.
    + destruct c; [by subst h'|]. destruct Hh as [-> _].
      apply Forall_insert; [done|]. simpl. by inversion Hpacts.
    + intros r [= <-]. by inversion Hpacts.
    + rewrite precedence_snoc, Hprec. by destruct (runningTime s).
Qed.

(** *** The steps of the engine *)

Lemma time_inv_peek c h0 (s : Sim) e q :
  time_inv c h0 s →
  EventQueue_peek (heap s) (events s) = Ok (e, q) →
  time_inv c h0 (set_events q s) ∧
  EventQueue_peek (heap s) q = Ok (e, q) ∧
  e ∈ queue q ∧ Forall (Event_le (heap s) e) (queue q).
Proof.
  intros J Ep.
  destruct (EventQueue_peek_least _ _ _ _ (tinv_ordered c h0 s J) Ep)
    as (HP & Hle & Ho & Hlast & Hd).
  destruct (peek_again _ _ _ _ Ep) as [Ep' _].
  split_and!; [|done| |by rewrite HP].
  - destruct J. split; simpl; try done.
    + intros x. rewrite HP. auto.
    + by rewrite HP.
    + intros d x Hd'. rewrite HP. auto.
  - apply last_Some in Hlast as [l' ->]. apply elem_of_app. right.
    by apply list_elem_of_singleton.
Qed.

Lemma head_time_peek (s : Sim) e :
  EventQueue_peek (heap s) (events s) = Ok (e, events s) →
  head_time (Some (time e - clock s)) s.
Proof.
  intros Ep. unfold head_time. destruct (peek_nonempty _ _ _ _ Ep) as [Hne _].
  destruct (queue (events s)) as [|x l]; [done|]. eauto.
Qed.

Lemma head_time_Some (s : Sim) mv :
  head_time (Some mv) s →
  (queue (events s) = [] ∧ runningTime s = Some mv) ∨
  ∃ e, EventQueue_peek (heap s) (events s) = Ok (e, events s) ∧
       mv = time e - clock s.
Proof.
  unfold head_time. destruct (queue (events s)) as [|x l].
  - intros <-. by left.
  - intros (e & Ep & [= ->]). right. eauto.
Qed.

Lemma head_time_None (s : Sim) :
  head_time None s → queue (events s) = [] ∧ runningTime s = None.
Proof.
  unfold head_time. destruct (queue (events s)) as [|x l]; [done|].
  by intros (e & _ & ?).
Qed.

Lemma events_peek_inv (s s' : Sim) e :
  events_peek s = Ok (e, s') →
  ∃ q, EventQueue_peek (heap s) (events s) = Ok (e, q) ∧ s' = set_events q s.
Proof.
  unfold events_peek.
  destruct (EventQueue_peek _ _) as [[e' q]| |]; simpl; [|done..].
  intros [= <- <-]. eauto.
Qed.

Lemma events_pop_inv (s s' : Sim) e :
  events_pop s = Ok (e, s') →
  ∃ q, EventQueue_pop (heap s) (events s) = Ok (e, q) ∧ s' = set_events q s.
Proof.
  unfold events_pop.
  destruct (EventQueue_pop _ _) as [[e' q]| |]; simpl; [|done..].
  intros [= <- <-]. eauto.
Qed.

Lemma Sim_getTimeForward_time c h0 (s s' : Sim) mv :
  time_inv c h0 s → Sim_getTimeForward s = Ok (mv, s') →
  time_inv c h0 s' ∧ head_time mv s'.
Proof.
  intros J. unfold Sim_getTimeForward, events_hasEvent. rewrite bind_gets.
  destruct (EventQueue_hasEvent (events s)) eqn:Eh.
  - intros (e & s1 & (q & Ep & ->)%events_peek_inv & H)%bind_Ok.
    rewrite bind_gets in H. injection H as <- <-.
    destruct (time_inv_peek _ _ _ _ _ J Ep) as (J' & Ep' & _).
    split; [done|]. by apply (head_time_peek (set_events q s)).
  - assert (queue (events s) = []) as Eq.
    { unfold EventQueue_hasEvent in Eh. apply bool_decide_eq_false in Eh.
      destruct (queue (events s)); [done|]. simpl in Eh. lia. }
    rewrite bind_gets. unfold head_time.
    destruct (runningTime s) eqn:Hrt; intros [= <- <-]; by rewrite Eq.
Qed.

Lemma Sim_run_due_time c h0 (s s' : Sim) (b : bool) :
  time_inv c h0 s → Sim_run_due s = Ok (b, s') →
  time_inv c h0 s' ∧
  (b = true → ∃ e, EventQueue_peek (heap s') (events s') = Ok (e, events s') ∧
                   time e = clock s').
Proof.
  intros J. unfold Sim_run_due, events_hasEvent. rewrite bind_gets.
  destruct (EventQueue_hasEvent (events s)) eqn:Eh.
  - intros (e & s1 & (q & Ep & ->)%events_peek_inv & H)%bind_Ok.
    rewrite bind_gets in H. injection H as <- <-.
    destruct (time_inv_peek _ _ _ _ _ J Ep) as (J' & Ep' & _).
    split; [done|]. intros Hb%Z.eqb_eq. eauto.
  - by intros [= <- <-].
Qed.

Lemma Sim_handleTimeDone_time c h0 (s s' : Sim) mv (b : bool) :
  time_inv c h0 s → head_time (Some mv) s →
  Sim_handleTimeDone (Some mv) s = Ok (b, s') →
  time_inv c h0 s' ∧
  (b = false → s' = s ∧ ∀ r, runningTime s = Some r → mv < r).
Proof.
  intros J Hh. destruct (runningTime s) as [r|] eqn:Hrt.
  2:{ rewrite Sim_handleTimeDone_idle by done. by intros [= <- <-]. }
  destruct (decide (r ≤ mv)) as [Hle|Hgt].
  2:{ rewrite (Sim_handleTimeDone_running _ _ _ Hrt) by lia.
      intros [= <- <-]. split; [done|]. intros _. split; [done|].
      intros ? [= <-]. lia. }
  destruct (Sim_handleTimeDone_elapsed _ _ _ Hrt Hle) as [_ ->].
  intros [= <- <-]. split; [|done].
  assert (0 ≤ r) as Hr by exact (tinv_running c h0 s J r Hrt).
  assert (∀ x, x ∈ queue (events s) → clock s + r ≤ time x) as Hnext.
  { intros x Hx. apply head_time_Some in Hh as [[Eq _]|(e & Ep & ->)].
    { rewrite Eq in Hx. by apply elem_of_nil in Hx. }
    destruct (time_inv_peek _ _ _ _ _ J Ep) as (_ & _ & _ & Hall).
    eapply Forall_forall in Hall; [|exact Hx].
    apply Event_le_time in Hall. lia. }
  destruct J. split; simpl; try done.
  - intros x Hx. destruct (tinv_events0 x Hx) as (? & ? & ?). auto.
  - intros q Hq. specialize (tinv_ready0 q Hq). lia.
  - apply Forall_app. split; [|repeat constructor; simpl; lia].
    eapply Forall_impl; [exact tinv_log0|]. simpl. intros. lia.
  - apply chronological_snoc; [done|].
    eapply Forall_impl; [exact tinv_log0|]. simpl. intros. lia.
  - intros p t b [Hin|Hin%list_elem_of_singleton]%elem_of_app; [eauto|done].
  - by rewrite dispatched_snoc, (right_id_L [] (++)).
  - by rewrite dispatched_snoc, (right_id_L [] (++)).
  - by rewrite dispatched_snoc, (right_id_L [] (++)).
  - intros Hc. rewrite slices_snoc, (tinv_slices0 Hc), Hrt. simpl.
    by rewrite decide_True.
  - intros Hpos. destruct (tinv_prec0 Hpos) as (Hheap & Hrun & Hprec).
    split_and!; [done..|]. rewrite precedence_snoc, Hprec, Hrt. simpl.
    by rewrite decide_True.
Qed.

Lemma dispatch_time c h0 (s s1 s' : Sim) e e' :
  time_inv c h0 s →
  EventQueue_peek (heap s) (events s) = Ok (e, events s) →
  time e = clock s →
  events_pop s = Ok (e', s1) →
  Sim_processEvent e' s1 = Ok ((), s') →
  time_inv c h0 s'.
Proof.
  intros J Ep Ht (q & Epop & ->)%events_pop_inv.
  destruct (peek_again _ _ _ _ Ep) as (_ & rest & Eq & Epop').
  rewrite Epop' in Epop. injection Epop as <- <-.
  destruct (EventQueue_pop_least _ _ _ _ (tinv_ordered c h0 s J) Epop')
    as (HP & Hle & Ho).
  simpl in HP.
  assert (e ∈ queue (events s)) as He by (rewrite HP; by left).
  destruct (tinv_events c h0 s J e He) as (Hty & Harr & _).
  unfold Sim_processEvent. rewrite bind_log, Hty. simpl.
  set (s_m := set_trace _ _). intros H.
  apply (sched_arrive_effect c) in H; [|exact (tinv_class c h0 s J)].
  apply (time_inv_effect c h0 _ _ _) in H; [done| |].
  2:{ intros p ->%list_elem_of_singleton. simpl. lia. }
  assert (∀ x, x ∈ rest → x ∈ queue (events s)) as Hsub.
  { intros x Hx. rewrite HP. by right. }
  assert (∀ x, x ∈ queue (events s) → Event_le h0 e x) as Hmin.
  { intros x Hx. eapply Forall_forall in Hle; [|exact Hx].
    eapply Event_le_fields; [|exact Hle].
    intros p. by destruct (tinv_fields c h0 s J p). }
  destruct J. subst s_m. split; simpl; try done.
  - intros x Hx. auto.
  - apply Forall_app. split; [done|]. repeat constructor. simpl. lia.
  - apply chronological_snoc; [done|]. simpl. by rewrite Ht.
  - intros p t b [Hin|Hin%list_elem_of_singleton]%elem_of_app; [eauto|done].
  - rewrite dispatched_snoc, <-tinv_dispatch0, HP, <-(assoc_L (++)). done.
  - rewrite dispatched_snoc. apply StronglySorted_app_2;
      [|done|repeat constructor].
    intros d x Hd ->%list_elem_of_singleton. auto.
  - rewrite dispatched_snoc.
    intros d x [Hd| ->%list_elem_of_singleton]%elem_of_app Hx; auto.
  - intros Hc. rewrite slices_snoc, (tinv_slices0 Hc).
    by destruct (runningTime s).
  - intros Hpos. destruct (tinv_prec0 Hpos) as (Hheap & Hrun & Hprec).
    split_and!; [done..|]. rewrite precedence_snoc, Hprec.
    destruct (runningTime s) as [r0|] eqn:Hrt; simpl; [|done].
    specialize (Hrun r0 eq_refl). rewrite decide_True by lia. done.
Qed.

Lemma time_inv_advance c h0 (s : Sim) e :
  time_inv c h0 s →
  EventQueue_peek (heap s) (events s) = Ok (e, events s) →
  (∀ r, runningTime s = Some r → time e - clock s < r) →
  time_inv c h0
    (set_clock (time e)
       (set_runningTime ((λ r, r - (time e - clock s)) <$> runningTime s) s)).
Proof.
  intros J Ep Hrun.
  rewrite <-(set_events_id s (events s) eq_refl) in J.
  destruct (time_inv_peek _ _ _ _ _ J Ep) as (_ & _ & He & Hall).
  rewrite (set_events_id s (events s) eq_refl) in J.
  simpl in He, Hall.
  destruct (tinv_events c h0 s J e He) as (_ & _ & Hclock).
  destruct J. split; simpl; try done.
  - intros x Hx. destruct (tinv_events0 x Hx) as (? & ? & ?).
    split_and!; [done..|]. eapply Forall_forall in Hall; [|exact Hx].
    by apply Event_le_time in Hall.
  - intros r. destruct (runningTime s) as [r0|]; [|done]. simpl.
    intros [= <-]. specialize (Hrun r0 eq_refl). lia.
  - intros q Hq. specialize (tinv_ready0 q Hq). lia.
  - eapply Forall_impl; [exact tinv_log0|]. simpl. intros. lia.
  - intros Hc. rewrite (tinv_slices0 Hc). destruct (runningTime s); simpl; [|done].
    do 2 f_equal. lia.
  - intros Hpos. destruct (tinv_prec0 Hpos) as (Hheap & Hrun' & Hprec).
    split_and!; [done| |].
    + intros r. destruct (runningTime s) as [r0|]; [|done]. simpl.
      intros [= <-]. specialize (Hrun r0 eq_refl). lia.
    + rewrite Hprec. destruct (runningTime s); simpl; [|done].
      do 2 f_equal. lia.
Qed.

Lemma Sim_run_drain_time c h0 fuel : ∀ s s' : Sim,
  time_inv c h0 s → Sim_run_drain fuel s = Ok ((), s') → time_inv c h0 s'.
Proof.
  induction fuel as [|fuel IH]; intros s s' J; simpl; [done|].
  intros (again & s1 & Hdue & H)%bind_Ok.
  destruct (Sim_run_due_time _ _ _ _ _ J Hdue) as [J1 Hagain].
  destruct again; [|by injection H as <-].
  destruct (Hagain eq_refl) as (e & Ep & Et).
  apply bind_Ok in H as (e' & s2 & Hpop & H).
  apply bind_Ok in H as ([] & s3 & Hdisp & H).
  eapply IH; [|exact H]. by eapply dispatch_time.
Qed.

Lemma Sim_run_settle_time c h0 fuel : ∀ move (s s' : Sim),
  time_inv c h0 s → head_time move s →
  Sim_run_settle fuel move s = Ok ((), s') → time_inv c h0 s'.
Proof.
  induction fuel as [|fuel IH]; intros move s s' J Hh; simpl; [done|].
  destruct move as [mv|]; [|by intros [= <-]].
  intros (handled & s1 & Hdone & H)%bind_Ok.
  destruct (Sim_handleTimeDone_time _ _ _ _ _ _ J Hh Hdone) as [J1 _].
  destruct handled; [|by injection H as <-].
  apply bind_Ok in H as (move' & s2 & Hfwd & H).
  destruct (Sim_getTimeForward_time _ _ _ _ _ J1 Hfwd) as [J2 Hh2].
  by eapply IH.
Qed.

Lemma Sim_run_body_time c h0 fuel (s s' : Sim) mv mv' :
  time_inv c h0 s → head_time (Some mv) s →
  Sim_run_body fuel mv s = Ok (mv', s') →
  time_inv c h0 s' ∧ head_time mv' s'.
Proof.
  intros J Hh. unfold Sim_run_body.
  intros (handled & s1 & Hdone & H)%bind_Ok.
  destruct (Sim_handleTimeDone_time _ _ _ _ _ _ J Hh Hdone) as [J1 Hfalse].
  apply bind_Ok in H as ([] & s2 & Hfirst & H).
  assert (time_inv c h0 s2) as J2.
  { destruct handled.
    - apply bind_Ok in Hfirst as (move' & s1' & Hfwd & Hsettle).
      destruct (Sim_getTimeForward_time _ _ _ _ _ J1 Hfwd) as [J1' Hh1].
      by eapply Sim_run_settle_time.
    - destruct (Hfalse eq_refl) as [-> Hrun]. clear Hfalse J1 Hdone.
      apply head_time_Some in Hh as [[Eq Hrt]|(e & Ep & ->)].
      { specialize (Hrun _ Hrt). lia. }
      pose proof (time_inv_advance _ _ _ _ J Ep Hrun) as Ja.
      rewrite bind_gets in Hfirst.
      set (sa := set_runningTime _ s) in Ja.
      assert ((e0 ← events_peek; modify (set_clock (time e0));;
               e' ← events_pop; Sim_processEvent e') sa = Ok ((), s2)) as H2.
      { subst sa. destruct (runningTime s) eqn:Hrt; simpl.
        - by rewrite bind_modify in Hfirst.
        - rewrite bind_ret in Hfirst.
          assert (set_runningTime None s = s) as ->; [|done].
          destruct s. simpl in Hrt. by subst. }
      assert (events_peek sa = Ok (e, sa)) as Epa.
      { unfold events_peek. change (heap sa) with (heap s).
        change (events sa) with (events s). rewrite Ep. simpl.
        by rewrite set_events_id. }
      rewrite bind_eq, Epa in H2. cbv beta iota in H2.
      rewrite bind_modify in H2.
      apply bind_Ok in H2 as (e' & s3 & Hpop & Hdisp).
      eapply (dispatch_time c h0 _ _ _ e); [exact Ja|exact Ep|done| |];
        [exact Hpop|exact Hdisp]. }
  apply bind_Ok in H as ([] & s3 & Hdrain & H).
  pose proof (Sim_run_drain_time _ _ _ _ _ J2 Hdrain) as J3.
  rewrite bind_gets in H.
  apply bind_Ok in H as ([] & s4 & Hidle & H).
  eapply Sim_getTimeForward_time; [|exact H].
  destruct (runningTime s3) eqn:Hrt; [by injection Hidle as <-|].
  eapply time_inv_effect; [exact J3| |].
  2:{ eapply sched_idle_effect; [exact (tinv_class c h0 s3 J3)|done..]. }
  intros p Hp. by apply elem_of_nil in Hp.
Qed.

Lemma Sim_run_loop_time c h0 fuel n : ∀ move (s s' : Sim),
  time_inv c h0 s → head_time move s →
  Sim_run_loop fuel n move s = Ok ((), s') →
  time_inv c h0 s' ∧ queue (events s') = [] ∧ runningTime s' = None.
Proof.
  induction n as [|n IH]; intros move s s' J Hh; simpl.
  - destruct move; [done|]. intros [= <-]. split; [done|].
    by apply head_time_None.
  - destruct move as [mv|].
    2:{ intros [= <-]. split; [done|]. by apply head_time_None. }
    intros (move' & s1 & Hbody & H)%bind_Ok.
    destruct (Sim_run_body_time _ _ _ _ _ _ _ J Hh Hbody) as [J1 Hh1].
    by eapply IH.
Qed.

(** *** A whole run *)

Lemma Sim_addArrival_all_dirty (ps : list ref) : ∀ s : Sim,
  ∃ l, mapM Sim_addArrival ps s =
       Ok (l, set_events
                (mkEventQueue
                   (queue (events s) ++
                    ((λ p, mkEvent ARRIVAL p (arrive (deref (heap s) p))) <$> ps))
                   (match ps with [] => dirty (events s) | _ => true end)) s).
Proof.
  induction ps as [|p ps IH]; intros s.
  - exists []. simpl. rewrite (right_id_L [] (++)).
    by destruct s as [? ? ? [] ? ? ?].
  - set (s1 := set_events (EventQueue_push
                 (mkEvent ARRIVAL p (arrive (deref (heap s) p))) (events s)) s).
    destruct (IH s1) as (l & E). exists (() :: l).
    change (mapM Sim_addArrival (p :: ps))
      with (y ← Sim_addArrival p; k ← mapM Sim_addArrival ps; mret (y :: k)).
    rewrite bind_eq. change (Sim_addArrival p s) with (Ok ((), s1)).
    cbv beta iota. rewrite bind_eq, E. simpl. rewrite <-(assoc_L (++)).
    by destruct ps.
Qed.

Lemma sched_initialize_time c (h0 : list Process) (s : Sim) :
  nonneg_workload h0 →
  sched_initialize (Sim_init h0 (all_refs h0) (Scheduler_init c (all_refs h0)))
    = Ok ((), s) →
  time_inv c h0 s.
Proof.
  intros Hw. set (s0 := Sim_init _ _ _).
  destruct (Sim_addArrival_all_dirty (all_refs h0) s0) as (l & E).
  assert (∃ s1, mapM Sim_addArrival (all_refs h0) s0 = Ok (l, s1) ∧
                sched_initialize s0 = Ok ((), s1)) as (s1 & E1 & ->).
  { eexists. split; [exact E|].
    unfold sched_initialize. simpl.
    unfold FCFS_Scheduler_initialize, SPN_Scheduler_initialize.
    destruct c; rewrite bind_gets; simpl; fold s0;
      rewrite bind_eq, E; reflexivity. }
  rewrite E in E1. injection E1 as <-. intros [= <-].
  split; simpl; try done.
  - eapply Forall_impl; [exact Hw|]. by intros o [_ ?].
  - intros Hd. destruct (all_refs h0); [constructor|done].
  - intros e (p & -> & Hp)%list_elem_of_fmap. simpl. split_and!; [done..|].
    apply elem_of_seq in Hp as [_ Hp].
    destruct (lookup_lt_is_Some_2 h0 p) as [o Ho]; [lia|].
    rewrite (deref_lookup _ _ _ Ho).
    by destruct (Forall_lookup_1 _ _ _ _ Hw Ho).
  - intros q Hq. by apply elem_of_nil in Hq.
  - constructor.
  - intros p t a Hin. by apply elem_of_nil in Hin.
  - constructor.
  - intros d x Hd. by apply elem_of_nil in Hd.
Qed.

Lemma simulate_time c (h0 : list Process) (fuel : nat) (s' : Sim) :
  nonneg_workload h0 → simulate c h0 fuel = Ok ((), s') →
  time_inv c h0 s' ∧ queue (events s') = [] ∧ runningTime s' = None.
Proof.
  intros Hw. unfold simulate, Sim_run.
  intros ([] & s1 & Hinit & H)%bind_Ok.
  apply (sched_initialize_time c h0 s1 Hw) in Hinit.
  apply bind_Ok in H as (move & s2 & Hfwd & H).
  destruct (Sim_getTimeForward_time _ _ _ _ _ Hinit Hfwd) as [J2 Hh2].
  by eapply Sim_run_loop_time.
Qed.

(** In a run that returns, on a workload without negative times, the clock
    never goes back: the entries of the log are in the order of their
    times, none later than the clock the run ends with. *)
Theorem run_log_chronological c (h0 : list Process) (fuel : nat) (s' : Sim) :
  nonneg_workload h0 → simulate c h0 fuel = Ok ((), s') →
  chronological (trace s') ∧
  Forall (λ d, entry_time d ≤ clock s') (trace s').
Proof.
  intros Hw H. destruct (simulate_time c h0 fuel s' Hw H) as (J & _).
  split; [exact (tinv_chron c h0 s' J)|exact (tinv_log c h0 s' J)].
Qed.

Lemma run_log_chronological_witness :
  let h0 := [mkProcess 0 0 [5; 2; 4]; mkProcess 1 2 [3]] in
  nonneg_workload h0 ∧
  ∃ s', simulate FCFS_Scheduler h0 9 = Ok ((), s') ∧
        chronological (trace s') ∧
        Forall (λ d, entry_time d ≤ clock s') (trace s').
Proof.
  intros h0.
  assert (nonneg_workload h0) as Hw.
  { unfold nonneg_workload, h0. repeat first [done | constructor]. }
  assert (∃ s', simulate FCFS_Scheduler h0 9 = Ok ((), s')) as [s' E].
  { vm_compute. eexists. reflexivity. }
  split; [exact Hw|]. exists s'. split; [exact E|].
  exact (run_log_chronological FCFS_Scheduler h0 9 s' Hw E).
Defined.

(** In a run that returns, the arrival of every process is dispatched
    exactly once, and the arrivals are dispatched in the order of their
    times, those of one time in the order of the process ids. *)
Theorem run_dispatches_arrivals_in_order c (h0 : list Process) (fuel : nat)
    (s' : Sim) :
  nonneg_workload h0 → simulate c h0 fuel = Ok ((), s') →
  dispatched (trace s') ≡ₚ arrivals h0 ∧
  StronglySorted (Event_le h0) (dispatched (trace s')).
Proof.
  intros Hw H. destruct (simulate_time c h0 fuel s' Hw H) as (J & Eq & _).
  split; [|exact (tinv_sorted c h0 s' J)].
  pose proof (tinv_dispatch c h0 s' J) as HP.
  by rewrite Eq, (right_id_L [] (++)) in HP.
Qed.

Lemma run_dispatches_arrivals_in_order_witness :
  let h0 := [mkProcess 0 4 [5; 2]; mkProcess 1 0 [3]; mkProcess 2 4 [1]] in
  nonneg_workload h0 ∧
  ∃ s', simulate SPN_Scheduler h0 9 = Ok ((), s') ∧
        dispatched (trace s') ≡ₚ arrivals h0 ∧
        StronglySorted (Event_le h0) (dispatched (trace s')).
Proof.
  intros h0.
  assert (nonneg_workload h0) as Hw.
  { unfold nonneg_workload, h0. repeat first [done | constructor]. }
  assert (∃ s', simulate SPN_Scheduler h0 9 = Ok ((), s')) as [s' E].
  { vm_compute. eexists. reflexivity. }
  split; [exact Hw|]. exists s'. split; [exact E|].
  exact (run_dispatches_arrivals_in_order SPN_Scheduler h0 9 s' Hw E).
Defined.

(** In a run that returns, no process is put on the CPU before the time it
    arrives at. *)
Theorem run_no_start_before_arrival c (h0 : list Process) (fuel : nat)
    (s' : Sim) (p : ref) (t a : Z) :
  nonneg_workload h0 → simulate c h0 fuel = Ok ((), s') →
  Started p t a ∈ trace s' → arrive (deref h0 p) ≤ t.
Proof.
  intros Hw H. destruct (simulate_time c h0 fuel s' Hw H) as (J & _).
  exact (tinv_started c h0 s' J p t a).
Qed.

Lemma run_no_start_before_arrival_witness :
  let h0 := [mkProcess 0 0 [5; 2; 4]; mkProcess 1 2 [3]] in
  nonneg_workload h0 ∧
  ∃ s', simulate SPN_Scheduler h0 9 = Ok ((), s') ∧
        Started 1 5 3 ∈ trace s' ∧ arrive (deref h0 1%nat) ≤ 5.
Proof.
  intros h0.
  assert (nonneg_workload h0) as Hw.
  { unfold nonneg_workload, h0. repeat first [done | constructor]. }
  assert (∃ s', simulate SPN_Scheduler h0 9 = Ok ((), s') ∧
                Started 1 5 3 ∈ trace s') as (s' & E & Hin).
  { vm_compute. eexists. split; [reflexivity|].
    repeat first [by left | right]. }
  split; [exact Hw|]. exists s'. split; [exact E|]. split; [exact Hin|].
  exact (run_no_start_before_arrival SPN_Scheduler h0 9 s' 1%nat 5 3 Hw E Hin).
Defined.

(** In a run under SPN that returns, the log reads as slices of CPU time:
    a process is started only when the CPU is free, its burst ends exactly
    the length of the burst after its start, nothing is started in between,
    and the run ends with the CPU free. *)
Theorem SPN_run_slices (h0 : list Process) (fuel : nat) (s' : Sim) :
  nonneg_workload h0 → simulate SPN_Scheduler h0 fuel = Ok ((), s') →
  slices (trace s') = Some None.
Proof.
  intros Hw H.
  destruct (simulate_time SPN_Scheduler h0 fuel s' Hw H) as (J & _ & Hrt).
  by rewrite (tinv_slices _ h0 s' J eq_refl), Hrt.
Qed.

Lemma SPN_run_slices_witness :
  let h0 := [mkProcess 0 0 [5; 2; 4]; mkProcess 1 2 [3]; mkProcess 2 9 [1]] in
  nonneg_workload h0 ∧
  ∃ s', simulate SPN_Scheduler h0 9 = Ok ((), s') ∧
        slices (trace s') = Some None.
Proof.
  intros h0.
  assert (nonneg_workload h0) as Hw.
  { unfold nonneg_workload, h0. repeat first [done | constructor]. }
  assert (∃ s', simulate SPN_Scheduler h0 9 = Ok ((), s')) as [s' E].
  { vm_compute. eexists. reflexivity. }
  split; [exact Hw|]. exists s'. split; [exact E|].
  exact (SPN_run_slices h0 9 s' Hw E).
Defined.

(** ** The script *)

Lemma script_run (h : list Process) (fuel : nat) :
  Forall (λ o, activities o ≠ []) h →
  (4 * length h < fuel)%nat →
  ∃ sim_fcfs sim_spn,
    script h fuel = Ok (sim_fcfs, sim_spn) ∧
    heap sim_fcfs = h ∧
    heap sim_spn =
      (λ o, mkProcess (pid o) (arrive o) (tail (activities o))) <$> h.
Proof.
  intros Hb Hfuel.
  destruct (simulate_run FCFS_Scheduler h fuel Hb Hfuel) as (s1 & E1 & _).
  destruct (FCFS_frame_run fuel _ _ _ E1 eq_refl) as [Hh1 _]. simpl in Hh1.
  destruct (simulate_run SPN_Scheduler h fuel Hb Hfuel) as (s2 & E2 & Hhead).
  exists s1, s2. split_and!; [|done|].
  - unfold script. unfold simulate in E1, E2. rewrite E1. simpl.
    by rewrite Hh1, E2.
  - destruct (at_head_None _ _ _ Hhead) as (_ & _ & _ & Hpend).
    destruct Hhead as [Hinv _].
    apply list_eq. intros i. rewrite list_lookup_fmap.
    destruct (h !! i) as [o|] eqn:Ho; simpl.
    + destruct (inv_started _ _ _ Hinv eq_refl i o Ho) as (a & acts & Ha & Hs & _).
      { rewrite Hpend. apply not_elem_of_nil. }
      rewrite Ha. exact Hs.
    + apply lookup_ge_None. rewrite (inv_length _ _ _ Hinv).
      by apply lookup_ge_None.
Qed.

(** On processes that all have a burst, both runs of the script return
    (given their loops more than four turns for each process): the run
    under FCFS leaves every process as it was, so the run under SPN sees
    the workload unchanged, and after it every process has lost exactly
    its first burst. *)
Theorem script_returns (h : list Process) (fuel : nat) :
  Forall (λ o, activities o ≠ []) h →
  (4 * length h < fuel)%nat →
  ∃ sim_fcfs sim_spn,
    script h fuel = Ok (sim_fcfs, sim_spn) ∧
    heap sim_fcfs = h ∧
    heap sim_spn =
      (λ o, mkProcess (pid o) (arrive o) (tail (activities o))) <$> h.
Proof. apply script_run. Qed.

Lemma script_returns_witness :
  let h := [mkProcess 0 0 [5; 2; 4]; mkProcess 1 2 [3]] in
  ∃ sim_fcfs sim_spn,
    script h 9 = Ok (sim_fcfs, sim_spn) ∧
    heap sim_fcfs = h ∧
    heap sim_spn =
      (λ o, mkProcess (pid o) (arrive o) (tail (activities o))) <$> h.
Proof.
  intros h. apply (script_returns h 9).
  - unfold h. repeat first [done | constructor].
  - simpl. lia.
Defined.

(** ** Reading the process file *)

Lemma dropwhile_all {A} (f : A → bool) (l : list A) :
  forallb f l = true → dropwhile f l = [].
Proof.
  induction l as [|x l IH]; simpl; [done|]. destruct (f x); simpl; [auto|done].
Qed.

Lemma dropwhile_suffix {A} (f : A → bool) (l : list A) :
  ∃ ws, l = ws ++ dropwhile f l.
Proof.
  induction l as [|x l [ws IH]]; simpl; [by exists []|].
  destruct (f x); [|by exists []]. exists (x :: ws). simpl. by rewrite <-IH.
Qed.

Lemma forallb_reverse {A} (f : A → bool) (l : list A) :
  forallb f (reverse l) = forallb f l.
Proof.
  induction l as [|x l IH]; [done|].
  rewrite reverse_cons, forallb_app, IH. simpl.
  rewrite andb_true_r. apply andb_comm.
Qed.

Ltac fix_line z :=
  match goal with
  | |- parse_line _ _ _ ?z' _ = _ => replace z' with z by lia
  end.

Section parse_facts.
Context (isspace isdecimal : char → bool) (int : str → option Z).

Lemma rstrip_blank (l : str) :
  forallb isspace l = true → rstrip isspace l = [].
Proof.
  intros H. unfold rstrip. rewrite dropwhile_all; [done|].
  by rewrite forallb_reverse.
Qed.

Lemma rstrip_prefix (l : str) : ∃ ws, l = rstrip isspace l ++ ws.
Proof.
  unfold rstrip. destruct (dropwhile_suffix isspace (reverse l)) as [ws E].
  exists (reverse ws).
  by rewrite <-reverse_app, <-E, reverse_involutive.
Qed.

Lemma convert_inr n (tmp : list str) : ∀ vs,
  convert isdecimal int n tmp = inr vs →
  Forall2 (λ tok v, fullmatch_digits isdecimal tok = true ∧ int tok = Some v)
    tmp vs.
Proof.
  induction tmp as [|tok tmp IH]; simpl; intros vs.
  { intros [= <-]. constructor. }
  destruct (fullmatch_digits isdecimal tok) eqn:Ef; [|done].
  destruct (int tok) as [v|] eqn:Ei; [|done].
  destruct (convert isdecimal int n tmp) as [e|vs'] eqn:Ec; [done|].
  intros [= <-]. constructor; auto.
Qed.

Lemma convert_inl n (tmp : list str) e :
  convert isdecimal int n tmp = inl e →
  ∃ tok, tok ∈ tmp ∧
    ((e = InvalidProcess n ∧ fullmatch_digits isdecimal tok = false) ∨
     (e = IntValueError ∧ fullmatch_digits isdecimal tok = true ∧
      int tok = None)).
Proof.
  induction tmp as [|tok tmp IH]; simpl; [done|].
  destruct (fullmatch_digits isdecimal tok) eqn:Ef.
  2:{ intros [= <-]. exists tok. split; [by left|]. by left. }
  destruct (int tok) as [v|] eqn:Ei.
  2:{ intros [= <-]. exists tok. split; [by left|]. by right. }
  destruct (convert isdecimal int n tmp) as [e'|vs'] eqn:Ec; [|done].
  intros [= <-]. destruct (IH eq_refl) as (tok' & Hin & H).
  exists tok'. split; [by right|done].
Qed.

Lemma parse_line_inr n (p : str) (o : Process) :
  parse_line isspace isdecimal int n p = inr o →
  ∃ a acts,
    o = mkProcess (n - 1) a acts ∧
    (3 ≤ length (re_split isspace false [] p))%nat ∧
    Forall2 (λ tok v, fullmatch_digits isdecimal tok = true ∧ int tok = Some v)
      (re_split isspace false [] p) (a :: acts).
Proof.
  unfold parse_line. destruct (decide _) as [|Hlen]; [done|].
  destruct (convert _ _ _ _) as [e|[|a acts]] eqn:Ec; [done..|].
  intros [= <-]. exists a, acts. split_and!; [done|lia|].
  by eapply convert_inr.
Qed.

Lemma parse_line_inl n (p : str) e :
  parse_line isspace isdecimal int n p = inl e →
  match e with
  | NoFinalActivity m =>
      m = n ∧ (length (re_split isspace false [] p) < 3)%nat
  | InvalidProcess m =>
      m = n ∧ (3 ≤ length (re_split isspace false [] p))%nat ∧
      ∃ tok, tok ∈ re_split isspace false [] p ∧
             fullmatch_digits isdecimal tok = false
  | IntValueError =>
      (3 ≤ length (re_split isspace false [] p))%nat ∧
      ∃ tok, tok ∈ re_split isspace false [] p ∧
             fullmatch_digits isdecimal tok = true ∧ int tok = None
  | TmpIndexError => False
  end.
Proof.
  unfold parse_line. destruct (decide _) as [Hlen|Hlen].
  { by intros [= <-]. }
  destruct (convert _ _ _ _) as [e'|[|a acts]] eqn:Ec; [| |done].
  - intros [= <-].
    destruct (convert_inl _ _ _ Ec) as (tok & Hin & [[-> Hf]|(-> & Hf & Hi)]).
    + split_and!; [done|lia|]. eauto.
    + split; [lia|]. eauto.
  - apply convert_inr, Forall2_length in Ec. simpl in Ec. lia.
Qed.

Lemma parse_lines_inr (lines : list str) : ∀ n procs,
  parse_lines isspace isdecimal int n lines = inr procs →
  length procs = length lines ∧
  ∀ k l, lines !! k = Some l →
    ∃ o, procs !! k = Some o ∧
         parse_line isspace isdecimal int (n + Z.of_nat k) l = inr o.
Proof.
  induction lines as [|l0 lines IH]; simpl; intros n procs.
  { by intros [= <-]. }
  destruct (parse_line _ _ _ n l0) as [e|o] eqn:El; [done|].
  destruct (parse_lines _ _ _ _ lines) as [e|procs'] eqn:Er; [done|].
  intros [= <-]. destruct (IH _ _ Er) as [Hlen Hall].
  split; [simpl; by rewrite Hlen|].
  intros [|k] l Hl; simpl in *.
  - injection Hl as <-. exists o. by rewrite Z.add_0_r.
  - destruct (Hall k l Hl) as (o' & Ho' & Hp). exists o'. split; [done|].
    by fix_line (n + 1 + Z.of_nat k).
Qed.

Lemma parse_lines_inl (lines : list str) : ∀ n e,
  parse_lines isspace isdecimal int n lines = inl e →
  ∃ k l, lines !! k = Some l ∧
    parse_line isspace isdecimal int (n + Z.of_nat k) l = inl e ∧
    ∀ j l', (j < k)%nat → lines !! j = Some l' →
      ∃ o, parse_line isspace isdecimal int (n + Z.of_nat j) l' = inr o.
Proof.
  induction lines as [|l0 lines IH]; simpl; intros n e; [done|].
  destruct (parse_line _ _ _ n l0) as [e0|o] eqn:El.
  { intros [= <-]. exists 0%nat, l0. rewrite Z.add_0_r.
    split_and!; [done..|]. intros j l' Hj. lia. }
  destruct (parse_lines _ _ _ _ lines) as [e'|procs'] eqn:Er; [|done].
  intros [= <-]. destruct (IH _ _ Er) as (k & l & Hl & Hp & Hbefore).
  exists (S k), l. split_and!; [done| |].
  - by fix_line (n + 1 + Z.of_nat k).
  - intros [|j] l' Hj Hl'; simpl in *.
    + injection Hl' as <-. exists o. by rewrite Z.add_0_r.
    + destruct (Hbefore j l') as [o' Ho']; [lia|done|]. exists o'.
      by fix_line (n + 1 + Z.of_nat j).
Qed.

Lemma parseProcessFile_lookup (f : list str) (procs : list Process) :
  parseProcessFile isspace isdecimal int f = inr procs →
  length procs = length f ∧
  ∀ i o, procs !! i = Some o →
    ∃ l a acts,
      f !! i = Some l ∧ o = mkProcess (Z.of_nat i) a acts ∧
      (3 ≤ length (re_split isspace false [] (rstrip isspace l)))%nat ∧
      Forall2 (λ tok v, fullmatch_digits isdecimal tok = true ∧
                        int tok = Some v)
        (re_split isspace false [] (rstrip isspace l)) (a :: acts).
Proof.
  unfold parseProcessFile. intros [Hlen Hall]%parse_lines_inr.
  rewrite length_fmap in Hlen. split; [done|]. intros i o Ho.
  destruct (lookup_lt_is_Some_2 f i) as [l Hl].
  { rewrite <-Hlen. by eapply lookup_lt_Some. }
  destruct (Hall i (rstrip isspace l)) as (o' & Ho' & Hp).
  { by rewrite list_lookup_fmap, Hl. }
  rewrite Ho in Ho'. injection Ho' as <-.
  apply parse_line_inr in Hp as (a & acts & -> & Hn & HF).
  exists l, a, acts. split_and!; [done| |done..].
  f_equal. lia.
Qed.

Lemma parseProcessFile_bursts (f : list str) (procs : list Process) :
  parseProcessFile isspace isdecimal int f = inr procs →
  Forall (λ o, (2 ≤ length (activities o))%nat) procs.
Proof.
  intros [_ Hall]%parseProcessFile_lookup. apply Forall_lookup. intros i o Ho.
  destruct (Hall i o Ho) as (l & a & acts & _ & -> & Hn & HF). simpl.
  apply Forall2_length in HF. simpl in HF. lia.
Qed.

(** A file that [parseProcessFile] accepts gives one process for each
    line, the process of a line has the number of the line, counted from
    0, for its pid, and it has two bursts at least: a line with an arrival
    time and one burst only is not accepted. *)
Theorem parseProcessFile_shape (f : list str) (procs : list Process) :
  parseProcessFile isspace isdecimal int f = inr procs →
  length procs = length f ∧
  ∀ i o, procs !! i = Some o →
    pid o = Z.of_nat i ∧ (2 ≤ length (activities o))%nat.
Proof.
  intros H. destruct (parseProcessFile_lookup _ _ H) as [Hlen Hall].
  split; [done|]. intros i o Ho.
  destruct (Hall i o Ho) as (l & a & acts & _ & -> & _ & _). split; [done|].
  pose proof (parseProcessFile_bursts _ _ H) as Hb.
  exact (Forall_lookup_1 _ _ _ _ Hb Ho).
Qed.

(** When [parseProcessFile] raises, it is for the first line that is not
    accepted, every line before it being one that gives a process: with
    the number of that line, counted from 1, and "no final CPU activity"
    when the line has fewer than three fields, with that number and
    "Invalid process" when it has three fields at least and one of them is
    not a string of decimal digits, or with the [ValueError] of [int] in
    case [int] refuses a string of decimal digits.  It never raises
    [IndexError]. *)
Theorem parseProcessFile_error (f : list str) (e : parse_exn) :
  parseProcessFile isspace isdecimal int f = inl e →
  ∃ k l, f !! k = Some l ∧
    (∀ j l', (j < k)%nat → f !! j = Some l' →
       ∃ o, parse_line isspace isdecimal int (Z.of_nat j + 1)
              (rstrip isspace l') = inr o) ∧
    let tmp := re_split isspace false [] (rstrip isspace l) in
    match e with
    | NoFinalActivity m => m = Z.of_nat k + 1 ∧ (length tmp < 3)%nat
    | InvalidProcess m =>
        m = Z.of_nat k + 1 ∧ (3 ≤ length tmp)%nat ∧
        ∃ tok, tok ∈ tmp ∧ fullmatch_digits isdecimal tok = false
    | IntValueError =>
        (3 ≤ length tmp)%nat ∧
        ∃ tok, tok ∈ tmp ∧ fullmatch_digits isdecimal tok = true ∧
               int tok = None
    | TmpIndexError => False
    end.
Proof.
  unfold parseProcessFile.
  intros (k & l' & Hl & Hp & Hbefore)%parse_lines_inl.
  rewrite list_lookup_fmap in Hl.
  destruct (f !! k) as [l|] eqn:Hk; [|done]. injection Hl as <-.
  exists k, l. split_and!; [done| |].
  - intros j l' Hj Hl'. destruct (Hbefore j (rstrip isspace l')) as [o Ho];
      [done|by rewrite list_lookup_fmap, Hl'|].
    exists o. by rewrite Z.add_comm.
  - apply parse_line_inl in Hp. simpl.
    destruct e; [destruct Hp as [-> ?]|destruct Hp as (-> & ? & ?)|done..];
      split_and!; try done; lia.
Qed.

(** A file with a line that is empty or starts with whitespace, a blank
    line or an indented one, is not accepted. *)
Theorem parseProcessFile_blank_or_indented (f : list str) (l : str) :
  l ∈ f →
  (∀ c, head l = Some c → isspace c = true) →
  ∃ e, parseProcessFile isspace isdecimal int f = inl e.
Proof.
  intros Hin Hhead.
  destruct (parseProcessFile isspace isdecimal int f) as [e|procs] eqn:E;
    [eauto|]. exfalso.
  unfold parseProcessFile in E. apply parse_lines_inr in E as [_ Hall].
  apply list_elem_of_lookup in Hin as [k Hk].
  destruct (Hall k (rstrip isspace l)) as (o & _ & Hp).
  { by rewrite list_lookup_fmap, Hk. }
  apply parse_line_inr in Hp as (a & acts & _ & Hn & HF).
  destruct (rstrip_prefix l) as [ws Hws].
  destruct (rstrip isspace l) as [|c r] eqn:Er.
  - simpl in Hn. lia.
  - assert (isspace c = true) as Hc by (apply Hhead; by rewrite Hws).
    simpl in HF. rewrite Hc in HF.
    inversion HF as [|? ? ? ? [Hf _]]. done.
Qed.

Lemma convert_nonneg (tmp : list str) (vs : list Z) :
  (∀ tok v, fullmatch_digits isdecimal tok = true → int tok = Some v → 0 ≤ v) →
  Forall2 (λ tok v, fullmatch_digits isdecimal tok = true ∧ int tok = Some v)
    tmp vs →
  Forall (λ v, 0 ≤ v) vs.
Proof.
  intros Hint. induction 1 as [|tok v tmp vs [Hf Hi] _ IH]; constructor; eauto.
Qed.

(** If [int] makes no negative number of a string of decimal digits, the
    processes of a file that is accepted have no negative arrival time and
    no negative burst. *)
Theorem parseProcessFile_workload (f : list str) (procs : list Process) :
  (∀ tok v, fullmatch_digits isdecimal tok = true → int tok = Some v → 0 ≤ v) →
  parseProcessFile isspace isdecimal int f = inr procs →
  nonneg_workload procs.
Proof.
  intros Hint [_ Hall]%parseProcessFile_lookup.
  apply Forall_lookup. intros i o Ho.
  destruct (Hall i o Ho) as (l & a & acts & _ & -> & _ & HF). simpl.
  apply (convert_nonneg _ _ Hint) in HF. by inversion HF.
Qed.

(** The script on a file that is accepted: both runs return (given their
    loops more than four turns for each line of the file), so that no line
    of the file can make a scheduler raise; the run under FCFS leaves the
    processes as they were read, and after the run under SPN every process
    still has a burst. *)
Theorem parse_then_script (f : list str) (procs : list Process) (fuel : nat) :
  parseProcessFile isspace isdecimal int f = inr procs →
  (4 * length f < fuel)%nat →
  ∃ sim_fcfs sim_spn,
    script procs fuel = Ok (sim_fcfs, sim_spn) ∧
    heap sim_fcfs = procs ∧
    Forall (λ o, activities o ≠ []) (heap sim_spn).
Proof.
  intros H Hfuel.
  destruct (parseProcessFile_lookup _ _ H) as [Hlen _].
  pose proof (parseProcessFile_bursts _ _ H) as Hb.
  destruct (script_run procs fuel) as (s1 & s2 & E & H1 & H2).
  { eapply Forall_impl; [exact Hb|]. simpl. intros o Ho Hnil.
    rewrite Hnil in Ho. simpl in Ho. lia. }
  { by rewrite Hlen. }
  exists s1, s2. split_and!; [done..|]. rewrite H2.
  apply Forall_fmap. eapply Forall_impl; [exact Hb|]. simpl.
  intros o Ho. destruct (activities o) as [|a [|b acts]]; simpl in *; [lia..|done].
Qed.

End parse_facts.

Lemma parseProcessFile_shape_witness :
  let f := [codes "0 5 2 4" ++ [10%N]; codes "2 3 1"]%string in
  let procs := [mkProcess 0 0 [5; 2; 4]; mkProcess 1 2 [3; 1]] in
  parseProcessFile ascii_isspace ascii_isdecimal ascii_int f = inr procs ∧
  length procs = length f ∧
  ∀ i o, procs !! i = Some o →
    pid o = Z.of_nat i ∧ (2 ≤ length (activities o))%nat.
Proof.
  intros f procs.
  assert (parseProcessFile ascii_isspace ascii_isdecimal ascii_int f
          = inr procs) as E by (vm_compute; reflexivity).
  split; [exact E|].
  exact (parseProcessFile_shape ascii_isspace ascii_isdecimal ascii_int
           f procs E).
Defined.

Lemma parseProcessFile_error_witness :
  let f := [codes "0 5 2" ++ [10%N]; codes "1 x 3" ++ [10%N]; codes "7"]%string in
  parseProcessFile ascii_isspace ascii_isdecimal ascii_int f
    = inl (InvalidProcess 2) ∧
  ∃ k l, f !! k = Some l ∧
    (∀ j l', (j < k)%nat → f !! j = Some l' →
       ∃ o, parse_line ascii_isspace ascii_isdecimal ascii_int (Z.of_nat j + 1)
              (rstrip ascii_isspace l') = inr o) ∧
    2 = Z.of_nat k + 1 ∧
    (3 ≤ length (re_split ascii_isspace false [] (rstrip ascii_isspace l)))%nat ∧
    ∃ tok, tok ∈ re_split ascii_isspace false [] (rstrip ascii_isspace l) ∧
           fullmatch_digits ascii_isdecimal tok = false.
Proof.
  intros f.
  assert (parseProcessFile ascii_isspace ascii_isdecimal ascii_int f
          = inl (InvalidProcess 2)) as E by (vm_compute; reflexivity).
  split; [exact E|].
  exact (parseProcessFile_error ascii_isspace ascii_isdecimal ascii_int
           f (InvalidProcess 2) E).
Defined.

Lemma parseProcessFile_blank_or_indented_witness :
  let f := [codes "0 5 2" ++ [10%N]; [10%N]]%string in
  [10%N] ∈ f ∧
  (∀ c, head [10%N] = Some c → ascii_isspace c = true) ∧
  ∃ e, parseProcessFile ascii_isspace ascii_isdecimal ascii_int f = inl e.
Proof.
  intros f.
  assert ([10%N] ∈ f) as Hin by (right; left).
  assert (∀ c, head [10%N] = Some c → ascii_isspace c = true) as Hhead.
  { intros c [= <-]. reflexivity. }
  split; [exact Hin|]. split; [exact Hhead|].
  exact (parseProcessFile_blank_or_indented ascii_isspace ascii_isdecimal
           ascii_int f [10%N] Hin Hhead).
Defined.

Lemma ascii_int_nonneg (tok : str) (v : Z) :
  fullmatch_digits ascii_isdecimal tok = true → ascii_int tok = Some v → 0 ≤ v.
Proof.
  unfold fullmatch_digits, ascii_int. intros [_ Hd]%andb_prop [= <-].
  cut (∀ a, 0 ≤ a → 0 ≤ foldl (λ a c, 10 * a + (Z.of_N c - 48)) a tok).
  { intros H. by apply H. }
  induction tok as [|c tok IH]; simpl in *; [done|].
  apply andb_prop in Hd as [Hc Hd]. intros a Ha. apply IH; [done|].
  unfold ascii_isdecimal in Hc. apply andb_prop in Hc as [Hlo _].
  apply N.leb_le in Hlo. lia.
Qed.

Lemma parseProcessFile_workload_witness :
  let f := [codes "0 5 2 4" ++ [10%N]; codes "2 3 1"]%string in
  let procs := [mkProcess 0 0 [5; 2; 4]; mkProcess 1 2 [3; 1]] in
  (∀ tok v, fullmatch_digits ascii_isdecimal tok = true →
            ascii_int tok = Some v → 0 ≤ v) ∧
  parseProcessFile ascii_isspace ascii_isdecimal ascii_int f = inr procs ∧
  nonneg_workload procs.
Proof.
  intros f procs.
  assert (parseProcessFile ascii_isspace ascii_isdecimal ascii_int f
          = inr procs) as E by (vm_compute; reflexivity).
  split; [exact ascii_int_nonneg|]. split; [exact E|].
  exact (parseProcessFile_workload ascii_isspace ascii_isdecimal ascii_int
           f procs ascii_int_nonneg E).
Defined.

Lemma parse_then_script_witness :
  let f := [codes "0 5 2 4" ++ [10%N]; codes "2 3 1"]%string in
  let procs := [mkProcess 0 0 [5; 2; 4]; mkProcess 1 2 [3; 1]] in
  parseProcessFile ascii_isspace ascii_isdecimal ascii_int f = inr procs ∧
  ∃ sim_fcfs sim_spn,
    script procs 9 = Ok (sim_fcfs, sim_spn) ∧
    heap sim_fcfs = procs ∧
    Forall (λ o, activities o ≠ []) (heap sim_spn).
Proof.
  intros f procs.
  assert (parseProcessFile ascii_isspace ascii_isdecimal ascii_int f
          = inr procs) as E by (vm_compute; reflexivity).
  split; [exact E|].
  apply (parse_then_script ascii_isspace ascii_isdecimal ascii_int
           f procs 9 E).
  simpl. lia.
Defined.

(** ** The bursts that FCFS runs *)

#[global] Instance FCFS_log_frame_preorder : PreOrder FCFS_log_frame.
Proof.
  split.
  - intros s Hc. split_and!; [done..|]. exists []. by rewrite (right_id_L [] (++)).
  - intros s1 s2 s3 H12 H23 Hc.
    destruct (H12 Hc) as (Hh2 & Hc2 & t & Ht & HP).
    destruct (H23 Hc2) as (Hh3 & Hc3 & t' & Ht' & HP').
    split_and!; [congruence|done|]. exists (t ++ t'). split.
    + by rewrite Ht', Ht, (assoc_L (++)).
    + apply Forall_app. split; [done|]. by rewrite <-Hh2.
Qed.

Lemma FCFS_log_frame_same (s s' : Sim) :
  heap s' = heap s → sched s' = sched s → trace s' = trace s →
  FCFS_log_frame s s'.
Proof.
  intros Hh Hs Ht Hc. split_and!; [done|by rewrite Hs|].
  exists []. by rewrite (right_id_L [] (++)).
Qed.

Lemma FCFS_log_frame_log (s : Sim) (d : LogEntry) :
  starts_first (heap s) d →
  FCFS_log_frame s (set_trace (trace s ++ [d]) s).
Proof.
  intros Hd Hc. split_and!; [done..|]. exists [d]. split; [done|].
  by constructor.
Qed.

Ltac log_frame_step :=
  first
    [ apply (preserves_bind FCFS_log_frame); [|intros ?]
    | apply (preserves_ret FCFS_log_frame)
    | apply (preserves_gets FCFS_log_frame)
    | apply (preserves_raise FCFS_log_frame)
    | apply (preserves_out_of_fuel FCFS_log_frame)
    | apply (preserves_lift FCFS_log_frame)
    | apply (preserves_events_peek FCFS_log_frame);
        intros [] ?; by apply FCFS_log_frame_same
    | apply (preserves_events_pop FCFS_log_frame);
        intros [] ?; by apply FCFS_log_frame_same
    | apply (preserves_modify FCFS_log_frame); intros [];
        first [by apply FCFS_log_frame_same | by apply FCFS_log_frame_log]
    | match goal with
      | |- preserves _ (match ?x with _ => _ end) => destruct x
      | |- preserves _ (if ?x then _ else _) => destruct x
      end ].

Lemma FCFS_log_frame_dispatch {A} (m mF mS : M Sim A) :
  (∀ s, m s = match sched_class (sched s) with
              | FCFS_Scheduler => mF s
              | SPN_Scheduler => mS s
              end) →
  preserves FCFS_log_frame mF → preserves FCFS_log_frame m.
Proof.
  intros Hm HF s a s' H Hc. rewrite Hm, Hc in H. by apply (HF _ _ _ H).
Qed.

Lemma FCFS_log_frame_effect new (s s' : Sim) :
  sched_effect FCFS_Scheduler new s s' → FCFS_log_frame s s'.
Proof.
  intros [rq' Hrq|rq' q o a acts h' Hrq Hq Ho Ha ->] Hc.
  - split_and!; [done..|]. exists []. by rewrite (right_id_L [] (++)).
  - split_and!; [done..|]. exists [Started q (clock s) a]. split; [done|].
    repeat constructor. exists acts. by rewrite (deref_lookup _ _ _ Ho).
Qed.

Lemma FCFS_Scheduler_idle_effect (s s' : Sim) :
  FCFS_Scheduler_idle s = Ok ((), s') → sched_effect FCFS_Scheduler [] s s'.
Proof.
  unfold FCFS_Scheduler_idle. rewrite bind_gets.
  destruct (ready_queue (sched s)) as [|x rest] eqn:Erq.
  { intros [= <-]. rewrite <-(set_ready_queue_id s) at 2.
    apply effect_queue. intros y. by rewrite Erq. }
  rewrite bind_modify. destruct x as [|q]; [done|]. simpl.
  rewrite bind_ret, bind_gets. simpl.
  destruct (activities (deref (heap s) q)) as [|a acts] eqn:Ea; [done|].
  destruct (deref_activities _ _ _ _ Ea) as (o & Ho & Ha).
  repeat run_step. intros [= <-].
  apply (effect_start _ _ s rest q o a acts (heap s)); rewrite ?Erq; simpl;
    try done.
  + intros y Hy. rewrite (right_id_L [] (++)). by right.
  + rewrite (right_id_L [] (++)). by left.
Qed.

Lemma FCFS_log_frame_Sim_addArrival_all (ps : list ref) :
  preserves FCFS_log_frame (mapM Sim_addArrival ps).
Proof.
  intros s l s' H. destruct (Sim_addArrival_all ps s) as (l' & d & E).
  rewrite E in H. injection H as <- <-. by apply FCFS_log_frame_same.
Qed.

Lemma FCFS_log_frame_getTimeForward :
  preserves FCFS_log_frame Sim_getTimeForward.
Proof.
  unfold Sim_getTimeForward, events_hasEvent. repeat log_frame_step.
Qed.

Lemma FCFS_log_frame_handleTimeDone move :
  preserves FCFS_log_frame (Sim_handleTimeDone move).
Proof.
  unfold Sim_handleTimeDone, log.
  repeat first
    [ apply (FCFS_log_frame_dispatch sched_stopRunning
               FCFS_Scheduler_stopRunning SPN_Scheduler_stopRunning); [done|]
    | log_frame_step ].
Qed.

Lemma FCFS_log_frame_arrive p : preserves FCFS_log_frame (sched_arrive p).
Proof.
  intros s [] s' H Hc.
  apply (sched_arrive_effect FCFS_Scheduler) in H; [|done].
  by apply (FCFS_log_frame_effect [p]).
Qed.

Lemma FCFS_log_frame_unblock x y : preserves FCFS_log_frame (sched_unblock x y).
Proof.
  apply (FCFS_log_frame_dispatch (sched_unblock x y)
           (FCFS_Scheduler_unblock x y) (SPN_Scheduler_unblock x y)); [done|].
  apply (preserves_ret FCFS_log_frame).
Qed.

Lemma FCFS_log_frame_processEvent e :
  preserves FCFS_log_frame (Sim_processEvent e).
Proof.
  unfold Sim_processEvent, log.
  repeat first [apply FCFS_log_frame_arrive | apply FCFS_log_frame_unblock
               |log_frame_step].
Qed.

Lemma FCFS_log_frame_idle : preserves FCFS_log_frame sched_idle.
Proof.
  apply (FCFS_log_frame_dispatch sched_idle FCFS_Scheduler_idle
           SPN_Scheduler_idle); [done|].
  intros s [] s' H. apply FCFS_Scheduler_idle_effect in H.
  by apply (FCFS_log_frame_effect []).
Qed.

Lemma FCFS_log_frame_settle fuel : ∀ move,
  preserves FCFS_log_frame (Sim_run_settle fuel move).
Proof.
  induction fuel as [|fuel IH]; intros move; simpl.
  - apply (preserves_out_of_fuel FCFS_log_frame).
  - repeat first [apply FCFS_log_frame_handleTimeDone
                 |apply FCFS_log_frame_getTimeForward | apply IH
                 |log_frame_step].
Qed.

Lemma FCFS_log_frame_drain fuel : preserves FCFS_log_frame (Sim_run_drain fuel).
Proof.
  induction fuel as [|fuel IH]; simpl.
  - apply (preserves_out_of_fuel FCFS_log_frame).
  - unfold Sim_run_due, events_hasEvent.
    repeat first [apply FCFS_log_frame_processEvent | apply IH
                 |log_frame_step].
Qed.

Lemma FCFS_log_frame_body fuel move :
  preserves FCFS_log_frame (Sim_run_body fuel move).
Proof.
  unfold Sim_run_body.
  repeat first [apply FCFS_log_frame_handleTimeDone
               |apply FCFS_log_frame_getTimeForward
               |apply FCFS_log_frame_settle
               |apply FCFS_log_frame_drain | apply FCFS_log_frame_processEvent
               |apply FCFS_log_frame_idle | log_frame_step].
Qed.

Lemma FCFS_log_frame_loop fuel n : ∀ move,
  preserves FCFS_log_frame (Sim_run_loop fuel n move).
Proof.
  induction n as [|n IH]; intros move; simpl.
  - destruct move; [apply (preserves_out_of_fuel FCFS_log_frame)
                   |apply (preserves_ret FCFS_log_frame)].
  - destruct move; [|apply (preserves_ret FCFS_log_frame)].
    apply (preserves_bind FCFS_log_frame);
      [apply FCFS_log_frame_body|apply IH].
Qed.

Lemma FCFS_log_frame_run fuel : preserves FCFS_log_frame (Sim_run fuel).
Proof.
  unfold Sim_run.
  apply (preserves_bind FCFS_log_frame).
  - apply (FCFS_log_frame_dispatch sched_initialize FCFS_Scheduler_initialize
             SPN_Scheduler_initialize); [done|].
    unfold FCFS_Scheduler_initialize.
    repeat first [apply FCFS_log_frame_Sim_addArrival_all | log_frame_step].
  - intros _. apply (preserves_bind FCFS_log_frame);
      [apply FCFS_log_frame_getTimeForward|apply FCFS_log_frame_loop].
Qed.

(** Under FCFS every start puts on the CPU the first burst of the process:
    in a run that returns, whatever the workload, no process ever gets to
    its second burst. *)
Theorem FCFS_run_starts_first_burst (h0 : list Process) (fuel : nat) (s' : Sim)
    (p : ref) (t a : Z) :
  simulate FCFS_Scheduler h0 fuel = Ok ((), s') →
  Started p t a ∈ trace s' →
  ∃ acts, activities (deref h0 p) = a :: acts.
Proof.
  intros H Hin.
  destruct (FCFS_log_frame_run fuel _ _ _ H eq_refl) as (_ & _ & tr & Ht & HP).
  simpl in Ht, HP. rewrite Ht in Hin.
  by eapply Forall_forall in HP; [|exact Hin].
Qed.

Lemma FCFS_run_starts_first_burst_witness :
  let h0 := [mkProcess 0 0 [5; 2; 4]; mkProcess 1 2 [3]] in
  ∃ s', simulate FCFS_Scheduler h0 9 = Ok ((), s') ∧
        Started 0 5 5 ∈ trace s' ∧
        ∃ acts, activities (deref h0 0%nat) = 5 :: acts.
Proof.
  intros h0.
  assert (∃ s', simulate FCFS_Scheduler h0 9 = Ok ((), s') ∧
                Started 0 5 5 ∈ trace s') as (s' & E & Hin).
  { vm_compute. eexists. split; [reflexivity|].
    repeat first [by left | right]. }
  exists s'. split; [exact E|]. split; [exact Hin|].
  exact (FCFS_run_starts_first_burst h0 9 s' 0%nat 5 5 E Hin).
Defined.

(** ** Reading the scheduler file *)

Lemma dict_set_keys {V} (k : str) (v : V) (d : list (str * V)) :
  NoDup d.*1 → NoDup (dict_set k v d).*1 ∧
  ∀ kv, kv ∈ dict_set k v d → kv = (k, v) ∨ kv ∈ d.
Proof.
  induction d as [|[k' v'] d IH]; simpl; intros Hnd.
  { split; [repeat constructor; by intros ?%elem_of_nil|].
    intros kv ->%list_elem_of_singleton. by left. }
  apply NoDup_cons in Hnd as [Hk' Hnd]. destruct (IH Hnd) as [IH1 IH2].
  destruct (decide (k' = k)) as [->|Hne]; simpl.
  - split; [by apply NoDup_cons|].
    intros kv [->|Hin]%elem_of_cons; [by left|]. right. by right.
  - split.
    + apply NoDup_cons. split; [|done].
      intros ([k1 v1] & Hk & [[= -> ->]|Hin]%IH2)%list_elem_of_fmap;
        simpl in *; [done|].
      apply Hk'. apply list_elem_of_fmap. by exists (k1, v1).
    + intros kv [->|[->|Hin]%IH2]%elem_of_cons; [right; by left|by left|].
      right. by right.
Qed.

Ltac solve_member :=
  repeat match goal with
         | H : _ ∈ _ :: _ |- _ => apply elem_of_cons in H as [->|H]
         | H : _ ∈ [] |- _ => by apply elem_of_nil in H
         end;
  repeat first [by left | right].

Section scheduler_file_facts.
Context (isspace : char → bool) (isdigit : str → bool) (int : str → option Z).
Context (float_t : Type) (float : str → option float_t).

Lemma checkSchedOption_cases (algorithm opt value : str) :
  match checkSchedOption isdigit int float_t float algorithm opt value with
  | inr (Some r) => admits float_t algorithm opt r
  | inr None => True
  | inl e => e = OptionIntValueError ∧ isdigit value = true ∧ int value = None
  end.
Proof.
  unfold checkSchedOption, return_int, admits.
  repeat first
    [ done
    | match goal with
      | |- context [decide ?P] => destruct (decide P)
      | |- context [bool_decide ?P] => destruct (bool_decide_reflect P)
      | |- context [isdigit ?v] => destruct (isdigit v) eqn:?
      | |- context [int ?v] => destruct (int v) eqn:?
      | |- context [float ?v] => destruct (float v) eqn:?
      end; simpl ].
  all: subst.
  all: first [ done
             | by (left; split; [solve_member|eauto])
             | by (right; left; eauto 10)
             | by (right; right; split; [solve_member|eauto 10]) ].
Qed.

Lemma checkSchedOption_FCFS (opt value : str) :
  checkSchedOption isdigit int float_t float (codes "FCFS"%string) opt value
  = inr None.
Proof. unfold checkSchedOption. by rewrite decide_True. Qed.

Lemma parse_options_inr (algorithm : str) (lines : list str) :
  ∀ n options options',
    parse_options isspace isdigit int float_t float algorithm n lines options
      = inr options' →
    NoDup options.*1 →
    (∀ k v, (k, v) ∈ options → admits float_t algorithm k v) →
    NoDup options'.*1 ∧
    (∀ k v, (k, v) ∈ options' → admits float_t algorithm k v) ∧
    (algorithm = codes "FCFS"%string → lines = []).
Proof.
  induction lines as [|line lines IH]; simpl; intros n options options'.
  { by intros [= <-]. }
  destruct (re_split_eq isspace line) as [|opt [|val [|]]]; [done..| |done].
  pose proof (checkSchedOption_cases algorithm opt val) as Hc.
  pose proof (checkSchedOption_FCFS opt val) as HF.
  destruct (checkSchedOption _ _ _ _ algorithm opt val) as [e|[r|]] eqn:E;
    [done| |done].
  intros H Hnd Hadm. destruct (dict_set_keys opt r options Hnd) as [Hnd' Hin'].
  destruct (IH _ _ _ H Hnd') as (H1 & H2 & _).
  { intros k v [[= -> ->]|Hin]%Hin'; auto. }
  split_and!; [done..|]. intros ->. by rewrite HF in E.
Qed.

Lemma parse_options_inl (algorithm : str) (lines : list str) :
  ∀ n options m,
    parse_options isspace isdigit int float_t float algorithm n lines options
      = inl (InvalidSchedulerOption m) →
    ∃ j line, lines !! j = Some line ∧ m = n + Z.of_nat j ∧
      match re_split_eq isspace line with
      | [opt; val] =>
          checkSchedOption isdigit int float_t float algorithm opt val
          = inr None
      | _ => True
      end.
Proof.
  induction lines as [|line lines IH]; simpl; intros n options m; [done|].
  destruct (re_split_eq isspace line) as [|opt [|val [|]]] eqn:Es.
  1,2,4: intros [= <-]; exists 0%nat, line; rewrite Es;
         split_and!; [done|lia|done].
  destruct (checkSchedOption _ _ _ _ algorithm opt val) as [e|[r|]] eqn:E.
  - intros [= ->]. pose proof (checkSchedOption_cases algorithm opt val) as Hc.
    rewrite E in Hc. by destruct Hc.
  - intros (j & l & Hl & -> & Hbad)%IH. exists (S j), l.
    split_and!; [done|lia|done].
  - intros [= <-]. exists 0%nat, line. rewrite Es, E.
    split_and!; [done|lia|done].
Qed.

(** A file that [parseSchedulerFile] accepts names one of the five
    algorithms of [SCHED_IDS] in its first line (so never VRR or SRT, which
    [checkSchedOption] provides for), and the dictionary returned has every
    key once, each an option that [checkSchedOption] admits for that
    algorithm, with a value of the kind of that option; for FCFS the file
    has no second line, FCFS admitting no option at all. *)
Theorem parseSchedulerFile_accepts (f : list str) (algorithm : str)
    (options : list (str * optval float_t)) :
  parseSchedulerFile isspace isdigit int float_t float f
    = inr (algorithm, options) →
  ∃ l0 rest, f = l0 :: rest ∧
    algorithm = rstrip isspace l0 ∧ algorithm ∈ SCHED_IDS ∧
    NoDup options.*1 ∧
    (∀ k v, (k, v) ∈ options → admits float_t algorithm k v) ∧
    (algorithm = codes "FCFS"%string → rest = [] ∧ options = []).
Proof.
  unfold parseSchedulerFile. destruct f as [|l0 rest]; [done|]. simpl.
  destruct (bool_decide_reflect (rstrip isspace l0 ∈ SCHED_IDS)) as [Hin|];
    [|done].
  destruct (parse_options _ _ _ _ _ _ 1 _ []) as [e|options'] eqn:E; [done|].
  intros [= <- <-]. exists l0, rest.
  destruct (parse_options_inr _ _ _ _ _ E) as (Hnd & Hadm & HF).
  { constructor. }
  { intros k v Hkv. by apply elem_of_nil in Hkv. }
  split_and!; [done..|]. intros Halg. specialize (HF Halg).
  apply fmap_nil_inv in HF. subst rest. split; [done|]. simpl in E. congruence.
Qed.

(** A file whose first line is FCFS is accepted, with no options, if it has
    no other line, and with any other line it is refused as having an
    invalid option at line 1. *)
Theorem parseSchedulerFile_FCFS (l0 : str) (rest : list str) :
  rstrip isspace l0 = codes "FCFS"%string →
  parseSchedulerFile isspace isdigit int float_t float (l0 :: rest) =
  match rest with
  | [] => inr (codes "FCFS"%string, [])
  | _ :: _ => inl (InvalidSchedulerOption 1)
  end.
Proof.
  intros H0. unfold parseSchedulerFile. rewrite fmap_cons, H0.
  rewrite bool_decide_true by (by left).
  destruct rest as [|l1 rest]; [done|].
  rewrite fmap_cons. cbn [parse_options].
  destruct (re_split_eq isspace (rstrip isspace l1)) as [|opt [|val [|]]];
    [done..| |done].
  by rewrite checkSchedOption_FCFS.
Qed.

(** When [parseSchedulerFile] refuses an option, the line number of the
    message counts the lines after the first from 1: it is the index from 0
    of the line in the file, one less than the number that
    [parseProcessFile] would give it.  The line is one that does not split
    at a single equals sign into two pieces, or one whose pieces
    [checkSchedOption] answers with [None]. *)
Theorem parseSchedulerFile_option_error (f : list str) (m : Z) :
  parseSchedulerFile isspace isdigit int float_t float f
    = inl (InvalidSchedulerOption m) →
  ∃ l0 k l, f !! 0%nat = Some l0 ∧ f !! k = Some l ∧
    (1 ≤ k)%nat ∧ m = Z.of_nat k ∧
    match re_split_eq isspace (rstrip isspace l) with
    | [opt; val] =>
        checkSchedOption isdigit int float_t float (rstrip isspace l0) opt val
        = inr None
    | _ => True
    end.
Proof.
  unfold parseSchedulerFile. destruct f as [|l0 rest]; [done|]. simpl.
  destruct (bool_decide (rstrip isspace l0 ∈ SCHED_IDS)); [|done].
  destruct (parse_options _ _ _ _ _ _ 1 _ []) as [e|options'] eqn:E; [|done].
  intros [= ->]. apply parse_options_inl in E as (j & l' & Hl & -> & Hbad).
  rewrite list_lookup_fmap in Hl.
  destruct (rest !! j) as [l|] eqn:Hj; [|done]. injection Hl as <-.
  exists l0, (S j), l. split_and!; [done|done|lia|lia|done].
Qed.

End scheduler_file_facts.

Lemma parseSchedulerFile_accepts_witness :
  let f := [codes "RR" ++ [10%N]; codes "quantum = 4"]%string in
  let options := [(codes "quantum"%string, VInt 4)] in
  parseSchedulerFile ascii_isspace ascii_isdigit ascii_int Z ascii_float f
    = inr (codes "RR"%string, options) ∧
  ∃ l0 rest, f = l0 :: rest ∧
    codes "RR"%string = rstrip ascii_isspace l0 ∧
    codes "RR"%string ∈ SCHED_IDS ∧
    NoDup options.*1 ∧
    (∀ k v, (k, v) ∈ options → admits Z (codes "RR"%string) k v) ∧
    (codes "RR"%string = codes "FCFS"%string → rest = [] ∧ options = []).
Proof.
  intros f options.
  assert (parseSchedulerFile ascii_isspace ascii_isdigit ascii_int Z
            ascii_float f = inr (codes "RR"%string, options)) as E
    by (vm_compute; reflexivity).
  split; [exact E|].
  exact (parseSchedulerFile_accepts ascii_isspace ascii_isdigit ascii_int Z
           ascii_float f (codes "RR"%string) options E).
Defined.

Lemma parseSchedulerFile_FCFS_witness :
  let l0 := (codes "FCFS" ++ [10%N])%string in
  rstrip ascii_isspace l0 = codes "FCFS"%string ∧
  parseSchedulerFile ascii_isspace ascii_isdigit ascii_int Z ascii_float
    [l0; codes "quantum=4"%string]
  = inl (InvalidSchedulerOption 1).
Proof.
  intros l0.
  assert (rstrip ascii_isspace l0 = codes "FCFS"%string) as H0
    by (vm_compute; reflexivity).
  split; [exact H0|].
  exact (parseSchedulerFile_FCFS ascii_isspace ascii_isdigit ascii_int Z
           ascii_float l0 [codes "quantum=4"%string] H0).
Defined.

Lemma parseSchedulerFile_option_error_witness :
  let f := [codes "RR" ++ [10%N]; codes "quantum=4" ++ [10%N];
            codes "quantum=x"]%string in
  parseSchedulerFile ascii_isspace ascii_isdigit ascii_int Z ascii_float f
    = inl (InvalidSchedulerOption 2) ∧
  ∃ l0 k l, f !! 0%nat = Some l0 ∧ f !! k = Some l ∧
    (1 ≤ k)%nat ∧ 2 = Z.of_nat k ∧
    match re_split_eq ascii_isspace (rstrip ascii_isspace l) with
    | [opt; val] =>
        checkSchedOption ascii_isdigit ascii_int Z ascii_float
          (rstrip ascii_isspace l0) opt val = inr None
    | _ => True
    end.
Proof.
  intros f.
  assert (parseSchedulerFile ascii_isspace ascii_isdigit ascii_int Z
            ascii_float f = inl (InvalidSchedulerOption 2)) as E
    by (vm_compute; reflexivity).
  split; [exact E|].
  exact (parseSchedulerFile_option_error ascii_isspace ascii_isdigit ascii_int
           Z ascii_float f 2 E).
Defined.

(** ** Completion precedence *)

Lemma well_formed_nonneg (h0 : list Process) :
  well_formed h0 → nonneg_workload h0.
Proof.
  intros H. eapply Forall_impl; [exact H|]. simpl. intros o (? & _ & Hb).
  split; [done|]. eapply Forall_impl; [exact Hb|]. simpl. lia.
Qed.

Lemma well_formed_positive (h0 : list Process) :
  well_formed h0 → positive_bursts h0.
Proof. intros H. eapply Forall_impl; [exact H|]. simpl. tauto. Qed.

(** The engine that the other properties are about is the engine with the
    scheduler objects of the file. *)
Lemma Sim_handleTimeDone_on_sched_object :
  Sim_handleTimeDone_on sched_object = Sim_handleTimeDone.
Proof. reflexivity. Qed.

Lemma Sim_processEvent_on_sched_object :
  Sim_processEvent_on sched_object = Sim_processEvent.
Proof. reflexivity. Qed.

Lemma Sim_run_body_on_sched_object :
  Sim_run_body_on sched_object = Sim_run_body.
Proof. reflexivity. Qed.

Lemma Sim_run_on_sched_object : Sim_run_on sched_object = Sim_run.
Proof. reflexivity. Qed.

Lemma Sim_handleTimeDone_on_elapsed (o : SchedulerObject) (s : Sim) (mv r : Z) :
  runningTime s = Some r → r ≤ mv →
  Sim_handleTimeDone_on o (Some mv) s
  = (obj_stopRunning o ≫= λ _, mret true)
      (set_trace (trace s ++ [Stopped (clock s + r)])
         (set_runningTime None (set_clock (clock s + r) s))).
Proof.
  intros Hr Hle. unfold Sim_handleTimeDone_on. rewrite bind_gets, Hr.
  by destruct (Z.leb_spec r mv); [|lia].
Qed.

(** C1. The engine is taken with any scheduler object [o] for [self.sched],
    so that the call of its [stopRunning] shows, whatever that method does
    (the [stopRunning] of both classes of the file leaves the state of that
    moment as it is).

    At the head of a turn of the loop of [Sim.run], when a process is
    running and its remaining running time [r] is at most the delta [move]
    to the earliest queued event [e]: [handleTimeDone] advances the clock
    by exactly [r], not by [move], sets the running time to [None] and then
    calls [o.stopRunning], in a state where [e] is still queued, and it
    returns [True] when that call returns; the whole turn is that call
    followed by the rest of the turn, so that no other method of [o] and no
    dispatch comes before it.  With the schedulers of the file, in every
    such turn that returns the clock ends at the old clock plus [r], the
    call of [stopRunning] is the first decision of the turn, the dispatch
    of [e] comes right after it when [e] is due at that very time, and when
    [e] is due later nothing is dispatched in the turn.

    Over a whole run, on every well-formed workload (the bursts are
    positive) and under both schedulers: the run returns, every event that
    it dispatches while a burst is running is due before the end of that
    burst, so that an event due at the end of the burst or later is
    dispatched only after [stopRunning] has been called, and every call of
    [stopRunning] comes when the clock is exactly at the end of the burst.
    No state in the middle of a turn escapes this. *)
Theorem completion_precedence :
  (∀ (o : SchedulerObject) (s : Sim) (e : Event) (q : EventQueue) (r : Z),
     EventQueue_peek (heap s) (events s) = Ok (e, q) →
     runningTime s = Some r →
     r ≤ time e - clock s →
     let move := time e - clock s in
     let s1 := set_events q s in
     let s2 := set_trace (trace s ++ [Stopped (clock s + r)])
                 (set_runningTime None (set_clock (clock s + r) s1)) in
     Sim_getTimeForward s = Ok (Some move, s1) ∧
     Sim_handleTimeDone_on o (Some move) s1
     = (obj_stopRunning o ≫= λ _, mret true) s2 ∧
     last (queue (events s2)) = Some e ∧
     (∀ fuel, Sim_run_body_on o fuel move s1
              = (obj_stopRunning o ≫= λ _, Sim_run_handled_on o fuel) s2) ∧
     ∀ fuel move' s',
       Sim_run_body_on sched_object fuel move s1 = Ok (move', s') →
       clock s' = clock s + r ∧
       ∃ rest, trace s' = trace s ++ Stopped (clock s + r) :: rest ∧
         (r = move → ∃ rest', rest = Dispatched e :: rest') ∧
         (r < move → Forall is_Started rest)) ∧
  (∀ (c : SchedulerClass) (h0 : list Process) (fuel : nat),
     well_formed h0 → (4 * length h0 < fuel)%nat →
     ∃ s', Sim_run_on sched_object fuel
             (Sim_init h0 (all_refs h0) (Scheduler_init c (all_refs h0)))
           = Ok ((), s') ∧
           precedence (trace s') = Some None).
Proof.
  split.
  - intros o s e q r Hp Hr Hle move s1 s2.
    destruct (peek_again _ _ _ _ Hp) as (Hp' & rest & Hq & Hpop).
    assert (Sim_handleTimeDone_on o (Some move) s1
            = (obj_stopRunning o ≫= λ _, mret true) s2) as Hdone_on.
    { by apply (Sim_handleTimeDone_on_elapsed o s1 move r). }
    assert (Sim_handleTimeDone (Some move) s1 = Ok (true, s2)) as Hdone.
    { by apply (Sim_handleTimeDone_elapsed s1 move r). }
    split_and!; [by apply Sim_getTimeForward_events|done| | |].
    { simpl. rewrite Hq. apply last_snoc. }
    { intros fuel. unfold Sim_run_body_on. rewrite bind_eq, Hdone_on.
      rewrite !bind_eq. by destruct (obj_stopRunning o s2) as [[[] s3]| |]. }
    intros fuel move' s' Hb.
    change (Sim_run_body_on sched_object fuel move s1)
      with (Sim_run_body fuel move s1) in Hb.
    unfold Sim_run_body in Hb.
    apply bind_Ok in Hb as (h & sa & Hh & Hb).
    rewrite Hdone in Hh. injection Hh as <- <-.
    apply bind_Ok in Hb as ([] & sb & Hs & Hb).
    rewrite bind_eq, (Sim_getTimeForward_events s2 e q Hp') in Hs.
    rewrite (set_events_id s2 q eq_refl) in Hs.
    destruct fuel as [|fuel]; [done|].
    rewrite Sim_run_settle_idle in Hs by done. injection Hs as <-.
    apply bind_Ok in Hb as ([] & sc & Hd & Hb).
    destruct (logs_run_body_end _ _ _ Hb) as (Hc' & t' & Ht' & HP').
    simpl in Hd. rewrite bind_eq, (Sim_run_due_events s2 e q Hp') in Hd.
    rewrite (set_events_id s2 q eq_refl) in Hd.
    change (clock s2) with (clock s + r) in Hd.
    destruct (Z.eqb_spec (time e) (clock s + r)) as [Heq|Hne].
    + apply bind_Ok in Hd as (e' & s3 & Hpop3 & Hd).
      unfold events_pop in Hpop3. simpl in Hpop3. rewrite Hpop in Hpop3.
      simpl in Hpop3. injection Hpop3 as <- <-.
      apply bind_Ok in Hd as ([] & s4 & Hpe & Hd).
      destruct (Sim_processEvent_log _ _ _ _ Hpe) as (Hc4 & t4 & Ht4 & _).
      destruct (logs_Sim_run_drain _ _ _ _ Hd) as (Hcc & tc & Htc & _).
      split; [by rewrite Hc', Hcc, Hc4|].
      exists (Dispatched e :: t4 ++ tc ++ t'). split_and!.
      * rewrite Ht', Htc, Ht4. simpl. by rewrite <-!(assoc_L (++)).
      * intros _. eauto.
      * unfold move. lia.
    + injection Hd as <-. split; [by rewrite Hc'|].
      exists t'. split_and!.
      * rewrite Ht'. simpl. by rewrite <-!(assoc_L (++)).
      * unfold move. lia.
      * done.
  - intros c h0 fuel Hwf Hfuel.
    destruct (simulate_run c h0 fuel (well_formed_bursts _ Hwf) Hfuel)
      as (s' & Hrun & _).
    exists s'. split; [exact Hrun|].
    destruct (simulate_time c h0 fuel s' (well_formed_nonneg _ Hwf) Hrun)
      as (J & _ & Hrt).
    destruct (tinv_prec c h0 s' J (well_formed_positive _ Hwf))
      as (_ & _ & Hprec).
    by rewrite Hprec, Hrt.
Qed.

Lemma completion_precedence_witness :
  let heap := [mkProcess 0 0 [5]; mkProcess 1 5 [3]] in
  let e := mkEvent ARRIVAL 1 5 in
  let s := set_runningTime (Some 3)
             (set_clock 2
                (set_events (mkEventQueue [e] true)
                   (Sim_init heap [0; 1]%nat
                      (Scheduler_init SPN_Scheduler [0; 1]%nat)))) in
  (∃ move' s',
     Sim_run_body_on sched_object 5 3 (set_events (mkEventQueue [e] false) s)
       = Ok (move', s') ∧
     clock s' = 5 ∧
     ∃ rest', trace s' = Stopped 5 :: Dispatched e :: rest') ∧
  ∃ s', Sim_run_on sched_object 9
          (Sim_init heap (all_refs heap)
             (Scheduler_init SPN_Scheduler (all_refs heap)))
        = Ok ((), s') ∧
        precedence (trace s') = Some None.
Proof.
  intros heap e s. destruct completion_precedence as [Hturn Hrun]. split.
  - destruct (Hturn sched_object s e (mkEventQueue [e] false) 3
                eq_refl eq_refl ltac:(simpl; lia)) as (_ & _ & _ & _ & H).
    assert (∃ move' s',
              Sim_run_body_on sched_object 5 3
                (set_events (mkEventQueue [e] false) s)
              = Ok (move', s')) as (move' & s' & Hb).
    { vm_compute. eexists _, _. reflexivity. }
    exists move', s'. split; [exact Hb|].
    destruct (H 5%nat move' s' Hb) as (Hc & rest & Ht & Hd & _).
    split; [exact Hc|].
    destruct (Hd eq_refl) as [rest' Hrest']. exists rest'.
    rewrite Ht, Hrest'. reflexivity.
  - apply (Hrun SPN_Scheduler heap 9%nat); [|simpl; lia].
    unfold well_formed, heap. repeat first [done | constructor].
Defined.

(** With a burst of length 0, which no well-formed workload has, an event
    due at the time at which the burst starts and ends is dispatched in
    the same turn as the start, before [stopRunning] is called. *)
Lemma zero_burst_dispatched_before_stop :
  let h0 := [mkProcess 0 0 [0]; mkProcess 1 0 [5]] in
  nonneg_workload h0 ∧
  ∃ s' rest,
    simulate SPN_Scheduler h0 9 = Ok ((), s') ∧
    trace s' = [Dispatched (mkEvent ARRIVAL 0 0); Started 0 0 0;
                Dispatched (mkEvent ARRIVAL 1 0); Stopped 0] ++ rest ∧
    precedence (trace s') = None.
Proof.
  intros h0. split.
  { unfold nonneg_workload, h0. repeat first [done | constructor]. }
  vm_compute. eexists _, _. split_and!; reflexivity.
Qed.
